(** * Flat lists for Tiptap: a shallow embedding and its verified properties

    The development follows the source tree:
    - [ListType]      src/list-type.ts
    - [Core]          the FlatListCore commands (indentFlatListItem,
                      dedentFlatListItem)
    - [Postprocessor] flatListPostprocessorPlugin
    - [PastePlugin]   flatListPastePlugin (transformPasted)
    - [Utils]         src/internal/utils.ts (parseIntegerAttr, computeIndent, ...)
    - [Serializer]    JoinListDOMSerializer / joinListElements

    Numbers are modelled as [Z] (JavaScript numbers restricted to the
    integers, without the loss of precision beyond 2^53).  A ProseMirror
    document is modelled as the sequence of the block children of one
    container; a position that points in front of a child is the index of
    that child.  All the steps used by the commands ([setNodeAttribute],
    [setNodeMarkup]) keep the size of every node, so a position computed in
    [state.doc] denotes the same child of [tr.doc].  A transaction is
    modelled by its current document [tr.doc]. *)

From Stdlib Require Import Ascii.
From stdpp Require Import base list gmap strings pretty.

Local Open Scope Z_scope.

(** ** JavaScript arrays

    An array is an object with a [length] and properties.  Reading an absent
    property gives [undefined]; writing index [i] beyond the length grows the
    array (leaving holes); assigning [length] drops the index properties at or
    above the new length and throws a RangeError for a value that is not an
    array length.  Keys that are not array indices (negative numbers, numbers
    above 2^32 - 2) are ordinary properties that [length] ignores. *)
Module JsArray.

Inductive Error := RangeError | TypeError.

Definition Result (A : Type) : Type := Error + A.

Definition ret {A} (a : A) : Result A := inr a.
Definition throw {A} (e : Error) : Result A := inl e.
Definition bind {A B} (m : Result A) (k : A → Result B) : Result B :=
  match m with
  | inl e => inl e
  | inr a => k a
  end.

Record t (A : Type) := mk { length : Z; props : gmap Z A }.
Arguments mk {A} _ _.
Arguments length {A} _.
Arguments props {A} _.

Definition max_length : Z := 4294967295.

Definition is_index (k : Z) : bool := (0 <=? k) && (k <? max_length).

(** [[]] *)
Definition empty {A} : t A := mk 0 ∅.

(** [a[k]] *)
Definition get {A} (a : t A) (k : Z) : option A := props a !! k.

(** [a[k] = v] *)
Definition set {A} (a : t A) (k : Z) (v : A) : t A :=
  mk (if is_index k && (length a <=? k) then k + 1 else length a)
     (<[k := v]> (props a)).

(** [a.length = n] *)
Definition set_length {A} (a : t A) (n : Z) : Result (t A) :=
  if (0 <=? n) && (n <=? max_length)
  then ret (mk n (filter (λ kv, negb (is_index kv.1 && (n <=? kv.1)) = true) (props a)))
  else throw RangeError.

End JsArray.

Notation "'let*' x ':=' m 'in' k" := (JsArray.bind m (λ x, k))
  (at level 10, x name, m at level 100, k at level 200, only parsing).

(** ** src/list-type.ts *)
Module ListType.

(** The names exported by internal/extension-names, one per flat list
    extension; every other node type (paragraph, ...) is an [otherNodeName]. *)
Inductive NodeName :=
  | orderedNodeName
  | unorderedNodeName
  | taskNodeName
  | otherNodeName (name : string).

Global Instance NodeName_eq_dec : EqDecision NodeName.
Proof. solve_decision. Defined.

Inductive ListType := ordered | unordered | task.

Global Instance ListType_eq_dec : EqDecision ListType.
Proof. solve_decision. Defined.

(** The attributes of the three extensions.  [counter] is read only on
    ordered items and [checked] only on task items. *)
Record Attrs := mkAttrs {
  indent : Z;
  counter : Z;
  checked : bool;
  _isTempPropped : bool
}.

Global Instance Attrs_eq_dec : EqDecision Attrs.
Proof. solve_decision. Defined.

(** The defaults declared by [addAttributes]. *)
Definition defaultAttrs : Attrs := mkAttrs 0 1 false false.

Definition with_indent (a : Attrs) (v : Z) : Attrs :=
  mkAttrs v (counter a) (checked a) (_isTempPropped a).
Definition with_counter (a : Attrs) (v : Z) : Attrs :=
  mkAttrs (indent a) v (checked a) (_isTempPropped a).
Definition with_isTempPropped (a : Attrs) (v : bool) : Attrs :=
  mkAttrs (indent a) (counter a) (checked a) v.

(** Inline content: one entry per document position inside the node. *)
Definition Inline := Ascii.ascii.

Record Node := mkNode {
  type_name : NodeName;
  attrs : Attrs;
  content : list Inline
}.

Global Instance Node_eq_dec : EqDecision Node.
Proof. solve_decision. Defined.

Definition getListType (node : Node) : option ListType :=
  match type_name node with
  | orderedNodeName => Some ordered
  | unorderedNodeName => Some unordered
  | taskNodeName => Some task
  | otherNodeName _ => None
  end.

Definition isFlatListNode (node : Node) : bool :=
  bool_decide (getListType node ≠ None).

Definition getFlatListNodeName (listType : ListType) : NodeName :=
  match listType with
  | ordered => orderedNodeName
  | unordered => unorderedNodeName
  | task => taskNodeName
  end.

Definition node_indent (node : Node) : Z := indent (attrs node).

Definition set_node_attrs (a : Attrs) (node : Node) : Node :=
  mkNode (type_name node) a (content node).

End ListType.
Import ListType.

(** ** The FlatListCore commands *)
Module Core.

Abbreviation Doc := (list Node).

(** [tr.setNodeAttribute(pos, "indent", v)] *)
Definition setNodeAttribute_indent (pos : nat) (v : Z) (tr : Doc) : Doc :=
  alter (λ node, set_node_attrs (with_indent (attrs node) v) node) pos tr.

(** [tr.setNodeMarkup(pos, state.schema.nodes["paragraph"])]: the node gets
    the paragraph type with its default attributes and keeps its content. *)
Definition setNodeMarkup_paragraph (pos : nat) (tr : Doc) : Doc :=
  alter (λ node, mkNode (otherNodeName "paragraph") defaultAttrs (content node)) pos tr.

(** A selection range, as the first child it overlaps and the number of
    children it overlaps. *)
Abbreviation Range := (nat * nat)%type.

(** [doc.nodesBetween(from, to, f)]: the children overlapping the range, in
    document order, each with its position. *)
Definition nodesBetween (doc : Doc) (range : Range) : list (nat * Node) :=
  omap (λ pos, (λ node, (pos, node)) <$> doc !! pos) (seq range.1 range.2).

(** All the calls of the callback, over [state.selection.ranges]. *)
Definition visited (doc : Doc) (ranges : list Range) : list (nat * Node) :=
  ranges ≫= nodesBetween doc.

(** [resolvedInTr.parent.childBefore(resolvedInTr.parentOffset).node], then
    its indent, or -1. *)
Definition prevSiblingIndent (tr : Doc) (pos : nat) : Z :=
  match pos with
  | O => -1
  | S before =>
      match tr !! before with
      | Some prevSiblingInTr =>
          if isFlatListNode prevSiblingInTr then node_indent prevSiblingInTr else -1
      | None => -1
      end
  end.

(** One call of the callback of [indentFlatListItem]; the state is [tr] and
    [applicable]. *)
Definition indent_visit (st : Doc * bool) (v : nat * Node) : Doc * bool :=
  let '(pos, node) := v in
  if isFlatListNode node then
    let newIndent := node_indent node + 1 in
    if newIndent <=? prevSiblingIndent st.1 pos + 1
    then (setNodeAttribute_indent pos newIndent st.1, true)
    else st
  else st.

(** [indentFlatListItem]: the dispatched document and the returned flag. *)
Definition indentFlatListItem (doc : Doc) (ranges : list Range) : Doc * bool :=
  let st := foldl indent_visit (doc, false) (visited doc ranges) in
  if st.2 then (st.1, true) else (doc, false).

Record LastDedented := mkLast { pos : nat; oldIndent : Z; node : Node }.

Record DedentState := mkDedent {
  d_tr : Doc;
  d_applicable : bool;
  d_lastDedented : option LastDedented
}.

(** One call of the callback of [dedentFlatListItem]. *)
Definition dedent_visit (canConvert : bool) (st : DedentState) (v : nat * Node)
  : DedentState :=
  let '(pos, node) := v in
  if isFlatListNode node then
    let indent := node_indent node in
    let '(tr, applicable) :=
      if 0 <? indent then (setNodeAttribute_indent pos (indent - 1) (d_tr st), true)
      else if canConvert then (setNodeMarkup_paragraph pos (d_tr st), true)
      else (d_tr st, d_applicable st) in
    mkDedent tr applicable
      (if applicable then Some (mkLast pos indent node) else d_lastDedented st)
  else st.

(** The loop over the siblings after the last dedented item: [rest] are the
    children of [$lastDedented.parent] from [index] on. *)
Fixpoint dedent_descendants (oldIndent : Z) (index : nat) (rest : list Node) (tr : Doc)
  : Doc :=
  match rest with
  | [] => tr
  | subsequentItem :: rest' =>
      if negb (isFlatListNode subsequentItem) then tr
      else
        let indent := node_indent subsequentItem in
        if indent <=? oldIndent then tr
        else dedent_descendants oldIndent (S index) rest'
               (setNodeAttribute_indent index (indent - 1) tr)
  end.

(** [dedentFlatListItem(canConvert)]: the dispatched document and the
    returned flag. *)
Definition dedentFlatListItem (canConvert : bool) (doc : Doc) (ranges : list Range)
  : Doc * bool :=
  let st := foldl (dedent_visit canConvert) (mkDedent doc false None) (visited doc ranges) in
  if d_applicable st then
    match d_lastDedented st with
    | Some lastDedented =>
        (dedent_descendants (oldIndent lastDedented) (S (pos lastDedented))
           (drop (S (pos lastDedented)) (d_tr st)) (d_tr st), true)
    | None => (d_tr st, true)
    end
  else (doc, false).

(** The staircase invariant on the children of one container. *)
Definition staircase (doc : Doc) : Prop :=
  ∀ i a b, doc !! i = Some a → doc !! S i = Some b →
    isFlatListNode a = true → isFlatListNode b = true →
    node_indent b ≤ node_indent a + 1.

Fixpoint staircaseb (doc : Doc) : bool :=
  match doc with
  | a :: (b :: _) as rest =>
      (negb (isFlatListNode a && isFlatListNode b) || (node_indent b <=? node_indent a + 1))
      && staircaseb rest
  | _ => true
  end.

(** Test documents: a list item of the given type and indent, without
    content; the indents of the children of a document. *)
Definition item (ty : ListType) (i : Z) : Node :=
  mkNode (getFlatListNodeName ty) (with_indent defaultAttrs i) [].
Definition indents (doc : Doc) : list Z := node_indent <$> doc.

End Core.
Import Core.

(** ** flatListPostprocessorPlugin *)
Module Postprocessor.
Import JsArray.

(** [tr.setNodeMarkup(pos, undefined, nodeAttrs)]: the type and the content
    stay, the attributes are replaced. *)
Definition setNodeMarkup (pos : nat) (nodeAttrs : Attrs) (tr : Doc) : Doc :=
  alter (set_node_attrs nodeAttrs) pos tr.

(** [tr.delete(pos + 1, pos + 2)] for the child at [pos]: the first inline of
    its content goes (nothing goes when the content is empty: the step would
    only close the node again). *)
Definition delete_first_inline (tr : Doc) (pos : nat) : Doc :=
  alter (λ node, mkNode (type_name node) (attrs node) (drop 1 (content node))) pos tr.

(** The variables of [appendTransaction].  [toDelete] records [pos + 1] as
    the child position [pos]. *)
Record State := mkState {
  tr : Doc;
  updated : bool;
  lastCounters : JsArray.t Z;
  toDelete : list nat
}.

(** The part of the callback on the counters of an ordered item, or on the
    reset by another list item: the node attributes, the transaction, the
    flag and the array afterwards. *)
Definition visit_counter (st : State) (pos : nat) (node : Node)
  : Result (Attrs * Doc * bool * JsArray.t Z) :=
  let nodeAttrs := attrs node in
  let indent := indent nodeAttrs in
  if decide (type_name node = orderedNodeName) then
    let counterValue := default 0 (get (lastCounters st) indent) + 1 in
    let '(nodeAttrs, tr, updated) :=
      if bool_decide (counter nodeAttrs ≠ counterValue)
      then (with_counter nodeAttrs counterValue,
            setNodeMarkup pos (with_counter nodeAttrs counterValue) (tr st), true)
      else (nodeAttrs, tr st, updated st) in
    let lastCounters := set (lastCounters st) indent counterValue in
    let* lastCounters := set_length lastCounters (indent + 1) in
    ret (nodeAttrs, tr, updated, lastCounters)
  else
    let* lastCounters := set_length (lastCounters st) indent in
    ret (nodeAttrs, tr st, updated st, lastCounters).

(** The callback given to [newState.doc.descendants]. *)
Definition visit (st : State) (pos : nat) (node : Node) : Result State :=
  if isFlatListNode node then
    let* r := visit_counter st pos node in
    let '(nodeAttrs, tr, updated, lastCounters) := r in
    if _isTempPropped nodeAttrs then
      let nodeAttrs := with_isTempPropped nodeAttrs false in
      ret (mkState (setNodeMarkup pos nodeAttrs tr) true lastCounters (toDelete st ++ [pos]))
    else ret (mkState tr updated lastCounters (toDelete st))
  else ret (mkState (tr st) (updated st) empty (toDelete st)).

(** [newState.doc.descendants(f)] with a callback that returns false: the
    children of the document, in order. *)
Fixpoint descendants (st : State) (pos : nat) (nodes : list Node) : Result State :=
  match nodes with
  | [] => ret st
  | node :: rest => let* st := visit st pos node in descendants st (S pos) rest
  end.

(** [appendTransaction]: the document of the returned transaction, or [None]
    for null.  (The stored marks and the history flag are not modelled.) *)
Definition appendTransaction (doc : Doc) : Result (option Doc) :=
  let* st := descendants (mkState doc false empty []) 0 doc in
  let tr := foldl delete_first_inline (tr st) (reverse (toDelete st)) in
  let updated := updated st || bool_decide (toDelete st ≠ []) in
  ret (if updated then Some tr else None).

(** The document after the pass. *)
Definition after (doc : Doc) (result : option Doc) : Doc := default doc result.

(** *** The scan, in the words of the specification

    One left-to-right scan keeps a record of the last counter per indent
    level. *)
Definition spec_visit (records : gmap Z Z) (node : Node) : gmap Z Z * option Z :=
  let i := node_indent node in
  match getListType node with
  | Some ordered =>
      let c := default 0 (records !! i) + 1 in
      (filter (λ kv, kv.1 ≤ i) (<[i := c]> records), Some c)
  | Some _ => (filter (λ kv, kv.1 < i) records, None)
  | None => (∅, None)
  end.

Fixpoint spec_counters (records : gmap Z Z) (nodes : list Node) : list (option Z) :=
  match nodes with
  | [] => []
  | node :: rest =>
      let '(records, c) := spec_visit records node in
      c :: spec_counters records rest
  end.

End Postprocessor.
Import Postprocessor.

(** ** flatListPastePlugin *)
Module PastePlugin.

(** What [transformPasted] reads of [view.state.selection.$from]: its depth,
    the top-level node around it ([from.node(1)], read only when the depth is
    positive), its position, and the position in front of that top-level node
    ([from.posAtIndex(from.index(0), 0)]). *)
Record ResolvedPos := mkPos {
  depth : nat;
  node_1 : Node;
  pos : Z;
  posAtIndex_0 : Z
}.

(** [from.depth > 0 && from.pos == from.posAtIndex(from.index(0), 0) + 1] *)
Definition at_node_start (from : ResolvedPos) : bool :=
  bool_decide (0 < depth from)%nat && bool_decide (pos from = posAtIndex_0 from + 1).

(** The variables of the loop. *)
Record LoopState := mkLoop {
  contextIndent : Z;
  lastIndent : Z;
  delta : option Z
}.

Definition initial (from : ResolvedPos) : LoopState :=
  if bool_decide (0 < depth from)%nat && isFlatListNode (node_1 from)
  then mkLoop (node_indent (node_1 from)) (node_indent (node_1 from)) None
  else mkLoop 0 (-1) None.

(** "Clamp newIndent, also adjusting following indents by the same amount":
    the new [delta] and the new [newIndent]. *)
Definition clamp (lastIndent delta newIndent : Z) : Z * Z :=
  if newIndent <? 0 then (delta + (0 - newIndent), 0)
  else if lastIndent + 1 <? newIndent
       then (delta + (lastIndent + 1 - newIndent), lastIndent + 1)
       else (delta, newIndent).

(** A node of the slice.  [child.attrs] is an object, and several nodes may
    hold the same one (the default attributes of a node type, the attributes
    of a copy of a node): the node holds a reference to it. *)
Record SliceNode := mkSliceNode {
  s_type : NodeName;
  s_attrs : nat;
  s_content : list Inline
}.

(** The attribute objects, by reference. *)
Abbreviation Heap := (gmap nat Attrs).

(** [child.attrs]; a reference without an object reads as the default
    attributes. *)
Definition attrs_of (h : Heap) (child : SliceNode) : Attrs :=
  default defaultAttrs (h !! s_attrs child).

(** The node as it reads in the heap. *)
Definition node_of (h : Heap) (child : SliceNode) : Node :=
  mkNode (s_type child) (attrs_of h child) (s_content child).

(** The body of the loop for the child at index [i].  The assignment
    [child.attrs.indent = newIndent] writes into the object that
    [child.attrs] refers to, for every node that holds it. *)
Definition visit (from : ResolvedPos) (st : LoopState) (h : Heap) (i : nat)
    (child : SliceNode) : LoopState * Heap :=
  if isFlatListNode (node_of h child) then
    let delta :=
      match delta st with
      | None => contextIndent st - indent (attrs_of h child)
      | Some d => d
      end in
    if bool_decide (i = 0%nat) && negb (at_node_start from)
    then (mkLoop (contextIndent st) (lastIndent st) (Some delta), h)
    else
      let newIndent := indent (attrs_of h child) + delta in
      let '(delta, newIndent) := clamp (lastIndent st) delta newIndent in
      (mkLoop (contextIndent st) newIndent (Some delta),
       <[s_attrs child := with_indent (attrs_of h child) newIndent]> h)
  else (mkLoop 0 (lastIndent st) None, h).

Fixpoint loop (from : ResolvedPos) (st : LoopState) (h : Heap) (i : nat)
    (children : list SliceNode) : LoopState * Heap :=
  match children with
  | [] => (st, h)
  | child :: rest =>
      let '(st, h) := visit from st h i child in
      loop from st h (S i) rest
  end.

(** The state of the loop when it reaches the child at index [i]. *)
Definition state_at (from : ResolvedPos) (h : Heap) (children : list SliceNode) (i : nat)
  : LoopState :=
  (loop from (initial from) h 0 (take i children)).1.

(** Step 2, on the children as they read after the loop: the first child is
    replaced by a new node, with attributes of its own, without the
    indicator and without the propping character. *)
Definition unprop_first (children : list Node) : list Node :=
  match children with
  | firstChild :: rest =>
      if isFlatListNode firstChild && _isTempPropped (attrs firstChild)
      then mkNode (type_name firstChild)
             (with_isTempPropped (attrs firstChild) false)
             (drop 1 (content firstChild)) :: rest
      else children
  | [] => []
  end.

(** [transformPasted(slice, view)]: the nodes of the returned slice, as they
    read when the function returns. *)
Definition transformPasted (from : ResolvedPos) (h : Heap) (slice : list SliceNode)
  : list Node :=
  let h := (loop from (initial from) h 0 slice).2 in
  unprop_first (node_of h <$> slice).

End PastePlugin.
Import PastePlugin.

(** ** HTML trees

    The parse rules read a DOM that nothing mutates while they run: it is
    modelled as a tree.  An element is given to a rule together with its
    ancestors, the parent first. *)
Module Html.

#[local] Unset Elimination Schemes.
Inductive HtmlNode :=
  | HText (data : string)
  | HElement (tagName : string) (attributes : list (string * string))
      (style : option (list (string * string))) (childNodes : list HtmlNode).
#[local] Set Elimination Schemes.

Definition tagName (n : HtmlNode) : string :=
  match n with
  | HText _ => "#text"
  | HElement t _ _ _ => t
  end.

Definition childNodes (n : HtmlNode) : list HtmlNode :=
  match n with
  | HText _ => []
  | HElement _ _ _ cs => cs
  end.

Definition isElement (n : HtmlNode) : bool :=
  match n with
  | HText _ => false
  | HElement _ _ _ _ => true
  end.

(** [element.getAttribute(name)]; [None] is null. *)
Fixpoint lookup_attr (name : string) (attributes : list (string * string)) : option string :=
  match attributes with
  | [] => None
  | (k, v) :: rest => if bool_decide (k = name) then Some v else lookup_attr name rest
  end.

Definition getAttribute (n : HtmlNode) (name : string) : option string :=
  match n with
  | HText _ => None
  | HElement _ attributes _ _ => lookup_attr name attributes
  end.

End Html.
Import Html.

(** ** src/internal/utils.ts *)
Module Utils.

(** The white space that [parseInt] skips, among the code units below 256. *)
Definition isStrWhiteSpaceChar (c : ascii) : bool :=
  let n := N_of_ascii c in
  bool_decide (n = 9 ∨ n = 10 ∨ n = 11 ∨ n = 12 ∨ n = 13 ∨ n = 32 ∨ n = 160)%N.

Fixpoint skipWhiteSpace (s : string) : string :=
  match s with
  | String c rest => if isStrWhiteSpaceChar c then skipWhiteSpace rest else s
  | EmptyString => s
  end.

(** The value of a digit in the given radix. *)
Definition digitValue (radix : Z) (c : ascii) : option Z :=
  let n := Z.of_N (N_of_ascii c) in
  let v :=
    if (48 <=? n) && (n <=? 57) then Some (n - 48)
    else if (97 <=? n) && (n <=? 122) then Some (n - 97 + 10)
    else if (65 <=? n) && (n <=? 90) then Some (n - 65 + 10)
    else None in
  v ≫= λ d, if d <? radix then Some d else None.

(** The longest prefix of digits, read from the left; [None] when there is
    no digit at all. *)
Fixpoint parseDigits (radix : Z) (acc : option Z) (s : string) : option Z :=
  match s with
  | String c rest =>
      match digitValue radix c with
      | Some d => parseDigits radix (Some (default 0 acc * radix + d)) rest
      | None => acc
      end
  | EmptyString => acc
  end.

(** [Number.parseInt(attr)] without a radix; [None] is NaN.  The result is
    the exact integer that the digits denote: the code's result is that
    integer as long as it is a safe integer (below 2^53 in absolute value),
    and its rounding to a double beyond. *)
Definition parseInt (attr : string) : option Z :=
  let s := skipWhiteSpace attr in
  let '(sign, s) :=
    match s with
    | String "-" rest => (-1, rest)
    | String "+" rest => (1, rest)
    | _ => (1, s)
    end in
  let '(radix, s) :=
    match s with
    | String "0" (String "x" rest) => (16, rest)
    | String "0" (String "X" rest) => (16, rest)
    | _ => (10, s)
    end in
  (λ n, sign * n) <$> parseDigits radix None s.

(** [parseIntegerAttr]: [None] is undefined.  [Number.isInteger] refuses
    NaN only, as the model has no infinite number. *)
Definition parseIntegerAttr (attr : option string) : option Z :=
  match attr with
  | None => None
  | Some attr => parseInt attr
  end.

Definition isListTag (t : string) : bool :=
  bool_decide (t = "UL") || bool_decide (t = "OL").

(** The loop over the ancestors of [computeIndent]. *)
Fixpoint countListAncestors (count : Z) (ancestors : list HtmlNode) : Z :=
  match ancestors with
  | [] => count
  | ancestor :: rest =>
      countListAncestors (if isListTag (tagName ancestor) then count + 1 else count) rest
  end.

Definition computeIndent (ancestors : list HtmlNode) (element : HtmlNode) : Z :=
  match parseIntegerAttr (getAttribute element "data-list-indent") with
  | Some storedIndent => storedIndent
  | None => Z.max (countListAncestors (-1) ancestors) 0
  end.

Definition computeChecked (element : HtmlNode) : bool :=
  let dataChecked := getAttribute element "data-checked" in
  bool_decide (dataChecked = Some "") || bool_decide (dataChecked = Some "true").

Definition firstElementChild (n : HtmlNode) : option HtmlNode :=
  head (filter (λ c, isElement c = true) (childNodes n)).
Definition lastElementChild (n : HtmlNode) : option HtmlNode :=
  last (filter (λ c, isElement c = true) (childNodes n)).

Definition getContentElement (listType : ListType) (li : HtmlNode) : HtmlNode :=
  match listType, firstElementChild li, lastElementChild li with
  | task, Some first, Some lastChild =>
      if bool_decide (tagName first = "LABEL") then lastChild else li
  | _, _, _ => li
  end.

(** The test of the regular expression [/^[ \t\r\n\u000c]*$/]. *)
Fixpoint isCollapsible (s : string) : bool :=
  match s with
  | String c rest =>
      let n := N_of_ascii c in
      bool_decide (n = 32 ∨ n = 9 ∨ n = 13 ∨ n = 10 ∨ n = 12)%N && isCollapsible rest
  | EmptyString => true
  end.

(** [wholeText] of a first child: its text and that of the text nodes that
    follow it directly. *)
Fixpoint wholeText (nodes : list HtmlNode) : string :=
  match nodes with
  | HText data :: rest => data +:+ wholeText rest
  | _ => ""
  end.

Definition hasNoContentBeforeChildList (contentElement : HtmlNode) : bool :=
  let nodes := childNodes contentElement in
  let skip :=
    match nodes with
    | HText _ :: _ => isCollapsible (wholeText nodes)
    | HElement t _ _ _ :: _ => bool_decide (t = "BR")
    | [] => false
    end in
  let childToCheck := if skip then nodes !! 1%nat else head nodes in
  match childToCheck with
  | Some (HElement t _ _ _) => isListTag t
  | _ => false
  end.

(** The [getAttrs] of the three parse rules for [li]; [None] is false
    ("fall through").  [counter] and [checked], when a rule does not give
    them, take their defaults. *)
Definition getAttrs_ordered (ancestors : list HtmlNode) (element : HtmlNode) : option Attrs :=
  match ancestors with
  | parentElement :: _ =>
      if bool_decide (tagName parentElement = "OL")
      then Some (mkAttrs (computeIndent ancestors element) 1 false
                   (hasNoContentBeforeChildList element))
      else None
  | [] => None
  end.

Definition getAttrs_task (ancestors : list HtmlNode) (element : HtmlNode) : option Attrs :=
  match ancestors with
  | parentElement :: _ =>
      let attrTaskList := getAttribute parentElement "data-task-list" in
      if bool_decide (attrTaskList = Some "") || bool_decide (attrTaskList = Some "true")
      then Some (mkAttrs (computeIndent ancestors element) 1 (computeChecked element)
                   (hasNoContentBeforeChildList (getContentElement task element)))
      else None
  | [] => None
  end.

Definition getAttrs_unordered (ancestors : list HtmlNode) (element : HtmlNode) : option Attrs :=
  Some (mkAttrs (computeIndent ancestors element) 1 false
          (hasNoContentBeforeChildList element)).

(** The rules by priority: ordered (230), task (220), unordered (210). *)
Definition parse_li (ancestors : list HtmlNode) (element : HtmlNode) : ListType * Attrs :=
  match getAttrs_ordered ancestors element with
  | Some a => (ordered, a)
  | None =>
      match getAttrs_task ancestors element with
      | Some a => (task, a)
      | None => (unordered, mkAttrs (computeIndent ancestors element) 1 false
                              (hasNoContentBeforeChildList element))
      end
  end.

(** The list items that parsing meets: the [li] elements in document order,
    each given to the rules with its ancestors. *)
Fixpoint parse_items (ancestors : list HtmlNode) (n : HtmlNode) : list (ListType * Attrs) :=
  match n with
  | HText _ => []
  | HElement t _ _ cs =>
      (if bool_decide (t = "LI") then [parse_li ancestors n] else [])
      ++ (fix go (cs : list HtmlNode) : list (ListType * Attrs) :=
            match cs with
            | [] => []
            | c :: rest => parse_items (n :: ancestors) c ++ go rest
            end) cs
  end.

Definition parse_fragment (nodes : list HtmlNode) : list (ListType * Attrs) :=
  concat ((parse_items []) <$> nodes).

End Utils.
Import Utils.

(** ** The live DOM

    [joinListElements] mutates the DOM it is given, and keeps references to
    elements that it mutates later: the DOM is a store of nodes, a reference
    is a key of the store. *)
Module Dom.

Inductive NodeType := ElementNode | TextNode | FragmentNode.

Global Instance NodeType_eq_dec : EqDecision NodeType.
Proof. solve_decision. Defined.

Record DomNode := mkDomNode {
  nodeType : NodeType;
  tagName : string;
  data : string;
  attributes : list (string * string);
  style : option (list (string * string));
  childNodes : list nat
}.

Abbreviation Dom := (gmap nat DomNode).

Definition with_childNodes (cs : list nat) (n : DomNode) : DomNode :=
  mkDomNode (nodeType n) (tagName n) (data n) (attributes n) (style n) cs.
Definition with_attributes (a : list (string * string)) (n : DomNode) : DomNode :=
  mkDomNode (nodeType n) (tagName n) (data n) a (style n) (childNodes n).
Definition with_style (st : option (list (string * string))) (n : DomNode) : DomNode :=
  mkDomNode (nodeType n) (tagName n) (data n) (attributes n) st (childNodes n).

Definition isElement (dom : Dom) (id : nat) : bool :=
  match dom !! id with
  | Some n => bool_decide (nodeType n = ElementNode)
  | None => false
  end.

Definition childNodesOf (dom : Dom) (id : nat) : list nat :=
  match dom !! id with
  | Some n => childNodes n
  | None => []
  end.

(** [parent.children]: the children that are elements. *)
Definition children (dom : Dom) (id : nat) : list nat :=
  filter (λ c, isElement dom c = true) (childNodesOf dom id).

Definition firstChild (dom : Dom) (id : nat) : option nat := head (childNodesOf dom id).
Definition lastChild (dom : Dom) (id : nat) : option nat := last (childNodesOf dom id).
Definition firstElementChild (dom : Dom) (id : nat) : option nat := head (children dom id).
Definition lastElementChild (dom : Dom) (id : nat) : option nat := last (children dom id).

Definition tagNameOf (dom : Dom) (id : nat) : string :=
  match dom !! id with
  | Some n => tagName n
  | None => ""
  end.

Definition getAttribute (dom : Dom) (id : nat) (name : string) : option string :=
  dom !! id ≫= λ n, lookup_attr name (attributes n).

Definition styleOf (dom : Dom) (id : nat) : option (list (string * string)) :=
  dom !! id ≫= style.

(** [element.removeAttribute(name)]; the style attribute is kept apart from
    the others, as the list of its declarations. *)
Definition removeAttribute (name : string) (id : nat) (dom : Dom) : Dom :=
  alter (λ n,
    if bool_decide (name = "style") then with_style None n
    else with_attributes (filter (λ kv, kv.1 ≠ name) (attributes n)) n) id dom.

(** [element.style.removeProperty(property)] *)
Definition style_removeProperty (property : string) (id : nat) (dom : Dom) : Dom :=
  alter (λ n, with_style (filter (λ kv, kv.1 ≠ property) <$> style n) n) id dom.

(** A node leaves the children of its parent. *)
Definition detach (c : nat) (dom : Dom) : Dom :=
  (λ n, with_childNodes (filter (λ x, x ≠ c) (childNodes n)) n) <$> dom.

(** [parent.append(c)]: [c] leaves its parent and becomes the last child. *)
Definition append (parent c : nat) (dom : Dom) : Dom :=
  alter (λ n, with_childNodes (childNodes n ++ [c]) n) parent (detach c dom).

(** [c.remove()] *)
Definition remove (c : nat) (dom : Dom) : Dom := detach c dom.

(** [parent.replaceChildren(...cs)] *)
Definition replaceChildren (parent : nat) (cs : list nat) (dom : Dom) : Dom :=
  alter (with_childNodes cs) parent (foldr detach dom cs).

(** *** From a tree to the store and back *)

Definition text_node (data : string) : DomNode :=
  mkDomNode TextNode "#text" data [] None [].

(** The nodes of a tree enter the store under fresh keys, from [st.1] on. *)
Fixpoint build (n : HtmlNode) (st : nat * Dom) : nat * (nat * Dom) :=
  match n with
  | HText data => (st.1, (S st.1, <[st.1 := text_node data]> st.2))
  | HElement t attributes sty cs =>
      let r :=
        (fix go (cs : list HtmlNode) (st : nat * Dom) : list nat * (nat * Dom) :=
           match cs with
           | [] => ([], st)
           | c :: rest =>
               let r1 := build c st in
               let r2 := go rest r1.2 in
               (r1.1 :: r2.1, r2.2)
           end) cs (S st.1, st.2) in
      (st.1, (r.2.1, <[st.1 := mkDomNode ElementNode t "" attributes sty r.1]> r.2.2))
  end.

Fixpoint build_all (nodes : list HtmlNode) (st : nat * Dom) : list nat * (nat * Dom) :=
  match nodes with
  | [] => ([], st)
  | n :: rest =>
      let r1 := build n st in
      let r2 := build_all rest r1.2 in
      (r1.1 :: r2.1, r2.2)
  end.

(** A document fragment, under the key 0, with the given trees as children. *)
Definition fragment (nodes : list HtmlNode) : Dom :=
  let r := build_all nodes (1%nat, ∅) in
  <[0%nat := mkDomNode FragmentNode "#document-fragment" "" [] None r.1]> r.2.2.

(** The tree under a node, down to the given depth. *)
Fixpoint to_html (depth : nat) (dom : Dom) (id : nat) : option HtmlNode :=
  match depth with
  | O => None
  | S depth =>
      n ← dom !! id;
      match nodeType n with
      | TextNode => Some (HText (data n))
      | _ =>
          cs ← mapM (to_html depth dom) (childNodes n);
          Some (HElement (tagName n) (attributes n) (style n) cs)
      end
  end.

(** The trees of the children of a node ([innerHTML], before it is printed). *)
Definition innerHTML (dom : Dom) (id : nat) : option (list HtmlNode) :=
  mapM (to_html (size dom) dom) (childNodesOf dom id).

End Dom.

(** ** JoinListDOMSerializer *)
Module Serializer.
Import JsArray Dom.

Inductive UsedFor := getHTML | clipboard.

Global Instance UsedFor_eq_dec : EqDecision UsedFor.
Proof. solve_decision. Defined.

Definition getElementListType (dom : Dom) (element : nat) : option ListType :=
  let tag := tagNameOf dom element in
  if bool_decide (tag = "OL") then Some ordered
  else if bool_decide (tag = "UL") then
    let attrTaskList := getAttribute dom element "data-task-list" in
    if bool_decide (attrTaskList = Some "") || bool_decide (attrTaskList = Some "true")
    then Some task else Some unordered
  else None.

(** [getContentElement] of utils.ts, on the live DOM. *)
Definition getContentElement (dom : Dom) (listType : option ListType) (li : nat) : nat :=
  match listType, firstElementChild dom li, lastElementChild dom li with
  | Some task, Some first, Some lastChild =>
      if bool_decide (tagNameOf dom first = "LABEL") then lastChild else li
  | _, _, _ => li
  end.

(** The variables of the loop: the DOM, [lastLists] and [i]. *)
Record JoinState := mkJoin {
  dom : Dom;
  lastLists : JsArray.t nat;
  i : Z
}.

(** A reference that the code uses as an element: using anything else
    throws a TypeError. *)
Definition as_element (dom : Dom) (ref : option nat) : Result nat :=
  match ref with
  | Some id => if isElement dom id then ret id else throw TypeError
  | None => throw TypeError
  end.

(** What the loop does to the LI of a block before it looks at [lastLists]:
    for getHTML the indent attribute goes; for the clipboard the LI becomes
    its own content element and loses its style. *)
Definition clean_li (usedFor : UsedFor) (listType : ListType) (liChild : nat) (dom : Dom)
  : Dom :=
  let dom :=
    if decide (usedFor = getHTML)
    then removeAttribute "data-list-indent" liChild dom else dom in
  if decide (usedFor = clipboard) then
    let contentElement := getContentElement dom (Some listType) liChild in
    let dom :=
      if decide (contentElement ≠ liChild)
      then replaceChildren liChild (childNodesOf dom contentElement) dom
      else dom in
    removeAttribute "style" liChild dom
  else dom.

(** "1. Remove extraneous attrs/styles." *)
Definition clean_list (usedFor : UsedFor) (block : nat) (dom : Dom) : Dom :=
  let dom := removeAttribute "start" block dom in
  let dom := style_removeProperty "margin-left" block dom in
  if decide (usedFor = clipboard) then removeAttribute "style" block dom else dom.

(** "child starts a new list" *)
Definition start_list (usedFor : UsedFor) (st : JoinState) (block : nat) (indent : Z)
  : Result JoinState :=
  let dom := clean_list usedFor block (dom st) in
  let* r :=
    match (if 0 <? indent then get (lastLists st) (indent - 1) else None) with
    | Some parentList =>
        let parentListType := getElementListType dom parentList in
        let* parentLi := as_element dom (lastChild dom parentList) in
        ret (append (getContentElement dom parentListType parentLi) block dom, i st - 1)
    | None => ret (dom, i st)
    end in
  let lastLists := set (lastLists st) indent block in
  let* lastLists := set_length lastLists (indent + 1) in
  ret (mkJoin r.1 lastLists r.2).

(** "Append child's li to the existing list." *)
Definition join_list (st : JoinState) (block liChild lastList : nat) (indent : Z)
  : Result JoinState :=
  let dom := append lastList liChild (dom st) in
  let dom := remove block dom in
  let* lastLists := set_length (lastLists st) (indent + 1) in
  ret (mkJoin dom lastLists (i st - 1)).

(** The body of the loop, up to the increment of [i]. *)
Definition join_step (usedFor : UsedFor) (doc : nat) (st : JoinState) : Result JoinState :=
  match children (dom st) doc !! Z.to_nat (i st) with
  | None => ret st
  | Some block =>
      match getElementListType (dom st) block with
      | Some listType =>
          let* liChild := as_element (dom st) (firstChild (dom st) block) in
          let indent :=
            default 0 (parseIntegerAttr (getAttribute (dom st) liChild "data-list-indent")) in
          let dom := clean_li usedFor listType liChild (dom st) in
          let st := mkJoin dom (lastLists st) (i st) in
          match get (lastLists st) indent with
          | Some lastList =>
              if decide (getElementListType dom lastList = Some listType)
              then join_list st block liChild lastList indent
              else start_list usedFor st block indent
          | None => start_list usedFor st block indent
          end
      | None => ret (mkJoin (dom st) empty (i st))
      end
  end.

(** The [for] loop.  Every turn either moves [i] forward or takes a child
    out of [doc], so the number of children at the start bounds the number of
    turns; [None] says that the bound was too small. *)
Fixpoint join_loop (turns : nat) (usedFor : UsedFor) (doc : nat) (st : JoinState)
  : option (Result Dom) :=
  if i st <? Z.of_nat (List.length (children (dom st) doc)) then
    match turns with
    | O => None
    | S turns =>
        match join_step usedFor doc st with
        | inl e => Some (inl e)
        | inr st => join_loop turns usedFor doc (mkJoin (dom st) (lastLists st) (i st + 1))
        end
    end
  else Some (inr (dom st)).

Definition joinListElements (usedFor : UsedFor) (doc : nat) (dom : Dom)
  : option (Result Dom) :=
  join_loop (List.length (children dom doc)) usedFor doc (mkJoin dom empty 0).

(** *** renderHTML of the three extensions

    The trees that [DOMSerializer.serializeFragment] builds from the output
    specs: tag names in upper case as the DOM reports them, the style
    attribute as the list of its declarations, the content of the node (the
    hole 0) as one text node.  [getListStyleType] has its default. *)
Definition content_nodes (node : Node) : list HtmlNode :=
  match content node with
  | [] => []
  | cs => [HText (String.string_of_list_ascii cs)]
  end.

Definition px (n : Z) : string := pretty n +:+ "px".

Definition renderHTML_ordered (node : Node) : HtmlNode :=
  HElement "OL" [("start", pretty (counter (attrs node)))]
    (Some [("margin-bottom", "0"); ("margin-left", px (20 * node_indent node));
           ("list-style-type", "decimal")])
    [HElement "LI" [("data-list-indent", pretty (node_indent node))] None
       (content_nodes node)].

Definition renderHTML_unordered (node : Node) : HtmlNode :=
  HElement "UL" []
    (Some [("margin-bottom", "0"); ("margin-left", px (20 * node_indent node));
           ("list-style-type", "disc")])
    [HElement "LI" [("data-list-indent", pretty (node_indent node))] None
       (content_nodes node)].

Definition renderHTML_task (ariaLabel : string) (node : Node) : HtmlNode :=
  HElement "UL" [("data-task-list", "")]
    (Some [("margin-bottom", "0"); ("margin-left", px (20 * node_indent node));
           ("list-style-type", "none")])
    [HElement "LI"
       [("data-list-indent", pretty (node_indent node));
        ("data-checked", if checked (attrs node) then "true" else "false")]
       (Some [("position", "relative")])
       [HElement "LABEL" []
          (Some [("position", "absolute"); ("left", "-20px"); ("top", "0");
                 ("user-select", "none")])
          [HElement "INPUT"
             ([("type", "checkbox"); ("disabled", "true")]
              ++ (if checked (attrs node) then [("checked", "checked")] else [])
              ++ [("arialabel", ariaLabel)]) None [];
           HElement "SPAN" [] None []];
        HElement "DIV" [] None (content_nodes node)]].

(** Any other block, here as a paragraph. *)
Definition renderHTML_other (node : Node) : HtmlNode :=
  HElement "P" [] None (content_nodes node).

(** [checkboxAriaLabel], for options without a label of their own. *)
Definition checkboxAriaLabel (node : Node) : string :=
  "Task item checkbox for "
  +:+ match content node with
      | [] => "empty task item"
      | cs => String.string_of_list_ascii cs
      end.

Definition renderHTML (node : Node) : HtmlNode :=
  match getListType node with
  | Some ordered => renderHTML_ordered node
  | Some unordered => renderHTML_unordered node
  | Some task => renderHTML_task (checkboxAriaLabel node) node
  | None => renderHTML_other node
  end.

(** [serializeFragment]: the fragment of the rendered nodes, joined; then the
    trees of its children. *)
Definition serializeFragment (usedFor : UsedFor) (fragment : list Node)
  : option (Result (list HtmlNode)) :=
  match joinListElements usedFor 0%nat (Dom.fragment (renderHTML <$> fragment)) with
  | None => None
  | Some (inl e) => Some (inl e)
  | Some (inr dom) =>
      match innerHTML dom 0%nat with
      | Some nodes => Some (inr nodes)
      | None => None
      end
  end.

End Serializer.
Import Serializer.

(** ** The parse rules: contentElement and replaceParagraphsWithBreaks

    The callbacks mutate the element that they are given and nothing else
    holds a reference to it while they run: they are modelled as functions
    from the tree of the element to its tree afterwards.  HTML elements are
    the [HElement] nodes, text nodes the [HText] nodes. *)
Module ParseRules.

Definition with_childNodes (cs : list HtmlNode) (n : HtmlNode) : HtmlNode :=
  match n with
  | HText data => HText data
  | HElement t attributes style _ => HElement t attributes style cs
  end.

(** [child instanceof HTMLElement && child.tagName === "P"] *)
Definition isParagraph (child : HtmlNode) : bool :=
  isElement child && bool_decide (tagName child = "P").

(** [element.ownerDocument.createElement("br")] *)
Definition br : HtmlNode := HElement "BR" [] None [].

(** The loop over [originalChildNodes], from the child at hand on: what is
    among the children of [element] in the place of each original child.  A
    paragraph gives way to its own children, followed by a BR unless the
    paragraph is the last child or the next original child is an OL, UL or
    LI element. *)
Fixpoint replace_loop (originalChildNodes : list HtmlNode) : list HtmlNode :=
  match originalChildNodes with
  | [] => []
  | child :: rest =>
      if isParagraph child then
        childNodes child
        ++ match rest with
           | [] => []
           | nextChild :: _ =>
               if isElement nextChild
                  && (bool_decide (tagName nextChild = "OL")
                      || bool_decide (tagName nextChild = "UL")
                      || bool_decide (tagName nextChild = "LI"))
               then [] else [br]
           end
        ++ replace_loop rest
      else child :: replace_loop rest
  end.

(** [replaceParagraphsWithBreaks(element)] *)
Definition replaceParagraphsWithBreaks (element : HtmlNode) : HtmlNode :=
  let hasPChild := existsb isParagraph (childNodes element) in
  if negb hasPChild then element
  else with_childNodes (replace_loop (childNodes element)) element.

(** The text of [document.createTextNode("\u00A0")]: one no-break space. *)
Definition nbsp : string := String (ascii_of_N 160) EmptyString.

(** [element.prepend(node)] *)
Definition prepend (node : HtmlNode) (element : HtmlNode) : HtmlNode :=
  with_childNodes (node :: childNodes element) element.

(** The [contentElement] of the parse rule of FlatListOrdered. *)
Definition contentElement_ordered (element : HtmlNode) : HtmlNode :=
  let element := replaceParagraphsWithBreaks element in
  if hasNoContentBeforeChildList element then prepend (HText nbsp) element else element.

(** The [contentElement] of the parse rule of FlatListUnordered. *)
Definition contentElement_unordered (element : HtmlNode) : HtmlNode :=
  let element := replaceParagraphsWithBreaks element in
  if hasNoContentBeforeChildList element then prepend (HText nbsp) element else element.

(** The [contentElement] of the parse rule of FlatListTask: the content
    element of the LI, as it is after the rule has worked on it. *)
Definition contentElement_task (element : HtmlNode) : HtmlNode :=
  let contentElement := Utils.getContentElement task element in
  let contentElement := replaceParagraphsWithBreaks contentElement in
  if hasNoContentBeforeChildList contentElement
  then prepend (HText nbsp) contentElement else contentElement.

End ParseRules.
Import ParseRules.

(** ** The key handlers of FlatListCore *)
Module Keymap.

(** What the handlers read of [editor.state.selection], for a document whose
    children are text blocks: [from], [to], the index in the document of the
    text block [$to.parent], and [$to.parentOffset].  A selection with
    [from = to] lies in one text block, and [nodesBetween(from, to)] then
    visits that block alone: its one range is the range of that child. *)
Record Selection := mkSelection {
  sel_from : Z;
  sel_to : Z;
  sel_index : nat;
  sel_parentOffset : Z
}.

(** [isFlatListNode($to.parent)] *)
Definition parent_is_list (doc : Doc) (sel : Selection) : bool :=
  match doc !! sel_index sel with
  | Some parent => isFlatListNode parent
  | None => false
  end.

(** [handleBackspace1(editor)]: [None] is false; otherwise the document that
    [editor.commands.dedentFlatListItem(true)] dispatches. *)
Definition handleBackspace1 (doc : Doc) (sel : Selection) : option Doc :=
  if negb (bool_decide (sel_from sel = sel_to sel)) then None
  else if negb (parent_is_list doc sel) then None
  else if negb (bool_decide (sel_parentOffset sel = 0)) then None
  else
    let r := dedentFlatListItem true doc [(sel_index sel, 1%nat)] in
    if r.2 then Some r.1 else None.

(** The key pressed [n] times, the selection staying where it is (the steps
    of the command keep the size of every node). *)
Fixpoint press (n : nat) (doc : Doc) (sel : Selection) : option Doc :=
  match n with
  | O => Some doc
  | S n =>
      match handleBackspace1 doc sel with
      | Some doc => press n doc sel
      | None => None
      end
  end.

End Keymap.
Import Keymap.

(** * Definitions for the statements and their proofs *)

(** ** The commands *)
(** The node with its indent increased by 1. *)
Definition bump (node : Node) : Node :=
  set_node_attrs (with_indent (attrs node) (node_indent node + 1)) node.

(** The calls of the callback of indentFlatListItem on a list of nodes. *)
Definition indent_run (doc : Doc) (vs : list (nat * Node)) : Doc * bool :=
  foldl indent_visit (doc, false) vs.

(** The test of the callback, against the transaction as it stands. *)
Definition indent_test (tr : Doc) (pos : nat) (node : Node) : Prop :=
  isFlatListNode node = true ∧ node_indent node + 1 ≤ prevSiblingIndent tr pos + 1.

(** Some call of the callback on the node at [pos] passed the test. *)
Definition indent_passed (doc : Doc) (vs : list (nat * Node)) (pos : nat) (node : Node) : Prop :=
  ∃ k, vs !! k = Some (pos, node) ∧ indent_test (indent_run doc (take k vs)).1 pos node.

(** *** indentFlatListItem in the words of the specification

    The children of the container are scanned from left to right.  A list
    item that the selection meets gets its indent increased by 1 when the
    new indent is at most one more than the indent of the sibling just
    before it, read as the scan has left that sibling; without such a
    sibling, or when it is not a list item, that indent counts as -1. *)

(** The range meets the child at the position [p]. *)
Definition in_range (range : Range) (p : nat) : bool :=
  (range.1 <=? p)%nat && (p <? range.1 + range.2)%nat.

(** The indent to compare with, after the sibling [n]. *)
Definition spec_indent_after (n : Node) : Z :=
  if isFlatListNode n then node_indent n else -1.

(** The indent of the last of the siblings [before], or -1. *)
Definition spec_prev (before : list Node) : Z :=
  match last before with
  | Some n => spec_indent_after n
  | None => -1
  end.

(** The scan for the children that [selected] holds of: [orig] are the
    children before the command, [staged] the same children as the ranges
    dealt with so far have left them, [prev] the indent of the sibling
    before, [p] the position of the first child. *)
Fixpoint spec_indent_scan (selected : nat → bool) (prev : Z) (p : nat)
    (orig staged : list Node) : list Node :=
  match orig, staged with
  | node :: orig, current :: staged =>
      let out :=
        if selected p && isFlatListNode node && (node_indent node + 1 <=? prev + 1)
        then set_node_attrs (with_indent (attrs current) (node_indent node + 1)) current
        else current in
      out :: spec_indent_scan selected (spec_indent_after out) (S p) orig staged
  | _, _ => []
  end.

(** One scan per range of the selection, in their order. *)
Definition spec_indentFlatListItem (doc : Doc) (ranges : list Range) : Doc :=
  foldl (λ staged range, spec_indent_scan (in_range range) (-1) 0 doc staged) doc ranges.

(** What the scan says of the child at the position [j], given the children
    [R] that come out. *)
Definition scan_at (selected : nat → bool) (prev : Z) (orig staged R : list Node) (j : nat)
  : option Node :=
  match orig !! j, staged !! j with
  | Some node, Some current =>
      Some (if selected j && isFlatListNode node
               && (node_indent node + 1
                   <=? match last (take j R) with
                       | Some n => spec_indent_after n
                       | None => prev
                       end + 1)
            then set_node_attrs (with_indent (attrs current) (node_indent node + 1)) current
            else current)
  | _, _ => None
  end.

(** What the callback does to one node. *)
Definition dedent1 (canConvert : bool) (n : Node) : Node :=
  if isFlatListNode n then
    if 0 <? node_indent n
    then set_node_attrs (with_indent (attrs n) (node_indent n - 1)) n
    else if canConvert
         then mkNode (otherNodeName "paragraph") defaultAttrs (content n)
         else n
  else n.

(** The callback changes the node. *)
Definition dedent_applies (canConvert : bool) (n : Node) : bool :=
  isFlatListNode n && ((0 <? node_indent n) || canConvert).

(** The node with its indent decreased by 1. *)
Definition dec (n : Node) : Node :=
  set_node_attrs (with_indent (attrs n) (node_indent n - 1)) n.

(** The calls of the callback of dedentFlatListItem on a list of nodes. *)
Definition dedent_run (canConvert : bool) (doc : Doc) (vs : list (nat * Node)) : DedentState :=
  foldl (dedent_visit canConvert) (mkDedent doc false None) vs.

(** The number of turns of the loop over the later siblings. *)
Fixpoint run_length (oldIndent : Z) (rest : list Node) : nat :=
  match rest with
  | n :: rest' =>
      if isFlatListNode n && (oldIndent <? node_indent n)
      then S (run_length oldIndent rest') else O
  | [] => O
  end.

(** ** The paste plugin *)

(** The loop of transformPasted on nodes that are given by value.  It is
    what the loop does to a slice in which no list item shares its
    attributes object (see [transformPasted_unshared]), and serves the
    proofs only. *)
Module Owned.

Definition visit (from : ResolvedPos) (st : LoopState) (i : nat) (child : Node)
  : LoopState * Node :=
  if isFlatListNode child then
    let delta :=
      match delta st with
      | None => contextIndent st - node_indent child
      | Some d => d
      end in
    if bool_decide (i = 0%nat) && negb (at_node_start from)
    then (mkLoop (contextIndent st) (lastIndent st) (Some delta), child)
    else
      let newIndent := node_indent child + delta in
      let '(delta, newIndent) := clamp (lastIndent st) delta newIndent in
      (mkLoop (contextIndent st) newIndent (Some delta),
       set_node_attrs (with_indent (attrs child) newIndent) child)
  else (mkLoop 0 (lastIndent st) None, child).

Fixpoint loop (from : ResolvedPos) (st : LoopState) (i : nat) (children : list Node)
  : LoopState * list Node :=
  match children with
  | [] => (st, [])
  | child :: rest =>
      let '(st, child) := visit from st i child in
      let '(st, rest) := loop from st (S i) rest in
      (st, child :: rest)
  end.

Definition state_at (from : ResolvedPos) (children : list Node) (i : nat) : LoopState :=
  (loop from (initial from) 0 (take i children)).1.

Definition transformPasted (from : ResolvedPos) (slice : list Node) : list Node :=
  unprop_first (loop from (initial from) 0 slice).2.

End Owned.

(** No list item of the slice shares its attributes object with another
    node of the slice. *)
Definition unshared (h : Heap) (slice : list SliceNode) : Prop :=
  ∀ i j a b, slice !! i = Some a → slice !! j = Some b → i ≠ j →
    isFlatListNode (node_of h a) = true → s_attrs a ≠ s_attrs b.

(** A slice in which every node has an attributes object of its own: the
    objects, and the nodes. *)
Definition own_heap (nodes : list Node) : Heap := map_seq 0 (attrs <$> nodes).
Definition own_nodes (nodes : list Node) : list SliceNode :=
  imap (λ i node, mkSliceNode (type_name node) i (content node)) nodes.

(** Nodes without content that all hold the one attributes object of the
    heap: what [type.create()] gives, every node with the default attributes
    of the node type. *)
Definition default_heap : Heap := {[ 0%nat := defaultAttrs ]}.
Definition default_nodes (types : list NodeName) : list SliceNode :=
  (λ ty, mkSliceNode ty 0 []) <$> types.

(** The shift that the loop applies to a list item. *)
Definition shift_of (st : LoopState) (child : Node) : Z :=
  default (contextIndent st - node_indent child) (delta st).

(** The loop skips the child. *)
Definition skipped (from : ResolvedPos) (i : nat) : bool :=
  bool_decide (i = 0%nat) && negb (at_node_start from).

(** A paste position two characters into the content of an unordered item
    of indent 3 that lies at position 10 of the document (its content starts
    at position 11). *)
Definition paste_in_item : ResolvedPos :=
  mkPos 1 (mkNode unorderedNodeName (with_indent defaultAttrs 3) ["a"; "b"; "c"]%char) 13 10.

(** The same position, in a paragraph. *)
Definition paste_in_paragraph : ResolvedPos :=
  mkPos 1 (mkNode (otherNodeName "paragraph") defaultAttrs ["a"; "b"; "c"]%char) 13 10.

(** ** The postprocessor *)

(** The counters of the pass: what the callback does to [lastCounters] on
    one node, and the counter value it computes for an ordered item. *)
Definition counter_step (lc : JsArray.t Z) (node : Node)
  : JsArray.Result (JsArray.t Z * option Z) :=
  if isFlatListNode node then
    if decide (type_name node = orderedNodeName) then
      let counterValue := default 0 (JsArray.get lc (node_indent node)) + 1 in
      let* lc := JsArray.set_length (JsArray.set lc (node_indent node) counterValue) (node_indent node + 1) in
      JsArray.ret (lc, Some counterValue)
    else
      let* lc := JsArray.set_length lc (node_indent node) in
      JsArray.ret (lc, None)
  else JsArray.ret (JsArray.empty, None).

(** The counter values of a list of nodes, and the array afterwards. *)
Fixpoint counter_scan (lc : JsArray.t Z) (nodes : list Node)
  : JsArray.Result (list (option Z) * JsArray.t Z) :=
  match nodes with
  | [] => JsArray.ret ([], lc)
  | node :: rest =>
      let* r := counter_step lc node in
      let* rs := counter_scan r.1 rest in
      JsArray.ret (r.2 :: rs.1, rs.2)
  end.

(** The node that the pass leaves in the transaction, given the counter
    value computed for it. *)
Definition post (cv : option Z) (node : Node) : Node :=
  if isFlatListNode node then
    set_node_attrs
      (with_isTempPropped
         (match cv with Some c => with_counter (attrs node) c | None => attrs node end)
         false) node
  else node.

(** The node is a list item with [_isTempPropped] set. *)
Definition is_propped (node : Node) : bool :=
  isFlatListNode node && _isTempPropped (attrs node).

(** The positions that the pass records in [toDelete]. *)
Fixpoint propped_positions (pos : nat) (nodes : list Node) : list nat :=
  match nodes with
  | [] => []
  | node :: rest =>
      (if is_propped node then [pos] else []) ++ propped_positions (S pos) rest
  end.

(** The type and the attributes of a node: what the pass reads. *)
Definition meta (node : Node) : NodeName * Attrs := (type_name node, attrs node).

(** The array holds the records, and nothing under a key that is not an
    array index. *)
Definition holds (lc : JsArray.t Z) (records : gmap Z Z) : Prop :=
  JsArray.props lc = records ∧
  ∀ k v, records !! k = Some v → JsArray.is_index k = true.

(** ** The serializer *)

(** An unordered item with the given indent and content. *)
Definition unordered_item (i : Z) (content : list Inline) : Node :=
  mkNode unorderedNodeName (with_indent defaultAttrs i) content.

(** The lists that joinListElements leaves for three unordered items at
    indents 0, 1, 1. *)
Definition joined_0_1_1 (usedFor : UsedFor) (a b c : list HtmlNode) : list HtmlNode :=
  let ul_style :=
    match usedFor with
    | getHTML => Some [("margin-bottom", "0"); ("list-style-type", "disc")]
    | clipboard => None
    end in
  let li_attributes (i : string) :=
    match usedFor with
    | getHTML => []
    | clipboard => [("data-list-indent", i)]
    end in
  [HElement "UL" [] ul_style
     [HElement "LI" (li_attributes "0") None
        (a ++ [HElement "UL" [] ul_style
                 [HElement "LI" (li_attributes "1") None b;
                  HElement "LI" (li_attributes "1") None c]])]].

Section JoinDefinitions.
Import Dom.

(** What no operation of joinListElements changes on a node: its kind, its
    tag and its task-list mark. *)
Definition static (dom : Dom) (x : nat) : option (NodeType * string * option string) :=
  (λ n, (nodeType n, tagName n, lookup_attr "data-task-list" (attributes n))) <$> dom !! x.

(** The store is a forest in which [doc] is a root: no node occurs twice
    among the children of a node, no node has two parents, and [doc] has no
    parent. *)
Definition tree (dom : Dom) (doc : nat) : Prop :=
  (∀ p, NoDup (childNodesOf dom p)) ∧
  (∀ p1 p2 c, c ∈ childNodesOf dom p1 → c ∈ childNodesOf dom p2 → p1 = p2) ∧
  (∀ p, doc ∉ childNodesOf dom p).

(** The attribute that names the indent. *)
Definition dli : string := "data-list-indent".

(** The loop only takes attributes away; for the clipboard it leaves the
    indent attribute of every node as it is. *)
Definition attrs_le (usedFor : UsedFor) (dom1 dom2 : Dom) : Prop :=
  (∀ x name, getAttribute dom1 x name = None → getAttribute dom2 x name = None) ∧
  (∀ x, styleOf dom1 x = None → styleOf dom2 x = None) ∧
  (usedFor = clipboard → ∀ x, getAttribute dom2 x dli = getAttribute dom1 x dli).

(** What the loop has done to the LI of a block. *)
Definition cleaned (usedFor : UsedFor) (dom : Dom) (liChild : nat) : Prop :=
  match usedFor with
  | getHTML => getAttribute dom liChild dli = None
  | clipboard => styleOf dom liChild = None
  end.

(** The invariant of the loop when it has dealt with the first [k] of the
    elements that [doc] had as children at the start: those that stay are
    the first [i] children of [doc], the others follow them untouched, and
    the LI of each of the first [k] has been cleaned. *)
Record Inv (usedFor : UsedFor) (doc : nat) (dom0 : Dom) (k : nat) (st : JoinState)
  : Prop := mkInv {
  inv_tree : tree (dom st) doc;
  inv_static : ∀ x, static (dom st) x = static dom0 x;
  inv_i : 0 ≤ i st;
  inv_children :
    ∃ P, children (dom st) doc = P ++ drop k (children dom0 doc) ∧
         length P = Z.to_nat (i st) ∧
         ∀ x, x ∈ P → x ∈ take k (children dom0 doc);
  inv_rest :
    ∀ u, u ∈ drop k (children dom0 doc) → childNodesOf (dom st) u = childNodesOf dom0 u;
  inv_lastLists :
    ∀ key v, JsArray.get (lastLists st) key = Some v → v ∈ take k (children dom0 doc);
  inv_attrs : attrs_le usedFor dom0 (dom st);
  inv_cleaned :
    ∀ j block liChild, (j < k)%nat → children dom0 doc !! j = Some block →
      getElementListType dom0 block ≠ None → firstChild dom0 block = Some liChild →
      cleaned usedFor (dom st) liChild
}.

(** All the children of all the nodes. *)
Definition all_children (dom : Dom.Dom) : list nat :=
  map_to_list dom ≫= λ kv, Dom.childNodes kv.2.

(** A test that implies [tree]: no node occurs twice among all the
    children, and [doc] is not among them. *)
Definition treeb (dom : Dom.Dom) (doc : nat) : bool :=
  bool_decide (NoDup (all_children dom)) && bool_decide (doc ∉ all_children dom).

(** One list wrapper with its LI, under a fragment. *)
Definition one_list : Dom.Dom :=
  Dom.fragment
    [HElement "UL" [] (Some [("margin-left", "0px")])
       [HElement "LI" [("data-list-indent", "0")] (Some [("position", "relative")]) []]].

(** Induction on HTML trees, with the children at hand. *)
Fixpoint HtmlNode_ind' (P : HtmlNode → Prop)
    (Htext : ∀ d, P (HText d))
    (Helement : ∀ tag a s cs, Forall P cs → P (HElement tag a s cs))
    (t : HtmlNode) : P t :=
  match t with
  | HText d => Htext d
  | HElement tag a s cs =>
      Helement tag a s cs
        ((fix go (cs : list HtmlNode) : Forall P cs :=
            match cs with
            | [] => List.Forall_nil P
            | c :: cs => List.Forall_cons P c cs (HtmlNode_ind' P Htext Helement c) (go cs)
            end) cs)
  end.

(** No key from [n] on is in use. *)
Definition fresh (n : nat) (h : Dom) : Prop := ∀ k, (n ≤ k)%nat → h !! k = None.

(** What building trees from the key [lo] to the key [hi] adds to a store. *)
Record region (lo hi : nat) (h h' : Dom) : Prop := mkRegion {
  reg_le : (lo ≤ hi)%nat;
  reg_old : ∀ k, (k < lo)%nat → h' !! k = h !! k;
  reg_fresh : fresh hi h';
  reg_children : ∀ k c, (lo ≤ k)%nat → c ∈ childNodesOf h' k → (k < c < hi)%nat;
  reg_NoDup : ∀ k, (lo ≤ k)%nat → NoDup (childNodesOf h' k);
  reg_parent : ∀ k1 k2 c, (lo ≤ k1)%nat → (lo ≤ k2)%nat →
    c ∈ childNodesOf h' k1 → c ∈ childNodesOf h' k2 → k1 = k2
}.

(** The keys that [build_all] returns: the roots of the trees. *)
Definition roots (lo hi : nat) (h' : Dom) (rs : list nat) : Prop :=
  NoDup rs ∧
  (∀ r, r ∈ rs → (lo ≤ r < hi)%nat) ∧
  (∀ r k, r ∈ rs → (lo ≤ k)%nat → r ∉ childNodesOf h' k).

(** An LI of the store is the first child of the list wrapper [block], and
    has the indent of [node] as its attribute. *)
Definition li_of (h : Dom) (block : nat) (node : Node) (x : nat) : Prop :=
  getElementListType h block ≠ None ∧
  firstChild h block = Some x ∧
  getAttribute h x dli = Some (pretty (node_indent node)).

(** [e] is [t] or occurs below it. *)
Inductive subnode (e : HtmlNode) : HtmlNode → Prop :=
  | subnode_refl : subnode e e
  | subnode_child c tag a s cs :
      c ∈ cs → subnode e c → subnode e (HElement tag a s cs).

End JoinDefinitions.

(** ** Further definitions *)

(** A list item whose indent makes the assignment to [lastCounters.length]
    throw: the new length, [indent + 1] for an ordered item and [indent] for
    another list item, is not an array length. *)
Definition bad_indent (node : Node) : bool :=
  isFlatListNode node &&
  (if decide (type_name node = orderedNodeName)
   then negb ((-1 <=? node_indent node) && (node_indent node <=? 4294967294))
   else negb ((0 <=? node_indent node) && (node_indent node <=? 4294967295))).

(** The records of the scan after a list of nodes. *)
Definition records_after (records : gmap Z Z) (nodes : list Node) : gmap Z Z :=
  foldl (λ r node, (spec_visit r node).1) records nodes.

(** The node without the first inline of its content. *)
Definition cut_first (node : Node) : Node :=
  mkNode (type_name node) (attrs node) (drop 1 (content node)).

(** The decimal digits, as [pretty] writes them. *)
Definition is_digit (c : ascii) : Prop :=
  c ∈ ["0"; "1"; "2"; "3"; "4"; "5"; "6"; "7"; "8"; "9"]%char.

(** The text nodes below a node, in document order. *)
Fixpoint text_nodes (n : HtmlNode) : list string :=
  match n with
  | HText data => [data]
  | HElement _ _ _ cs =>
      (fix go (cs : list HtmlNode) : list string :=
         match cs with
         | [] => []
         | c :: rest => text_nodes c ++ go rest
         end) cs
  end.

(** The contents of paragraphs, with a BR between one and the next. *)
Fixpoint joined_by_br (paragraphs : list (list HtmlNode)) : list HtmlNode :=
  match paragraphs with
  | [] => []
  | [p] => p
  | p :: rest => p ++ [br] ++ joined_by_br rest
  end.

(** The indent that joinListElements reads from an LI. *)
Definition li_indent (dom : Dom.Dom) (liChild : nat) : Z :=
  default 0 (parseIntegerAttr (Dom.getAttribute dom liChild "data-list-indent")).

(** [lastLists.length = indent + 1] assigns an array length. *)
Definition length_ok (indent : Z) : bool := (-1 <=? indent) && (indent <=? 4294967294).

(** Every list element among the children of [doc] has an element as its
    first child and an element as its last child. *)
Definition list_items (dom : Dom.Dom) (doc : nat) : Prop :=
  ∀ block, block ∈ Dom.children dom doc → getElementListType dom block ≠ None →
    ∃ li y, Dom.firstChild dom block = Some li ∧ Dom.isElement dom li = true ∧
            Dom.lastChild dom block = Some y ∧ Dom.isElement dom y = true.

(** A list element whose LI has an indent that [lastLists.length] refuses. *)
Definition bad_list (dom : Dom.Dom) (block : nat) : bool :=
  match getElementListType dom block, Dom.firstChild dom block with
  | Some _, Some li => negb (length_ok (li_indent dom li))
  | _, _ => false
  end.

(** The list wrapper that renderHTML gives for a list item: its only child
    is the LI, an element with the indent of the item as its attribute. *)
Definition rendered_block (dom : Dom.Dom) (block : nat) (node : Node) : Prop :=
  (getElementListType dom block ≠ None ↔ getListType node ≠ None) ∧
  (getListType node ≠ None →
     ∃ li, Dom.childNodesOf dom block = [li] ∧ Dom.isElement dom li = true ∧
           Dom.getAttribute dom li dli = Some (pretty (node_indent node))).

(** One list wrapper whose LI has the indent -2, under a fragment. *)
Definition low_list : Dom.Dom :=
  Dom.fragment [HElement "OL" [] None [HElement "LI" [("data-list-indent", "-2")] None []]].

(** What the loop keeps besides [Inv] when it has dealt with the first [k]
    children of [doc]: the LI of a later child still has its indent
    attribute and its children, and each element of [lastLists] has an
    element as its last child. *)
Record Inv2 (doc : nat) (dom0 : Dom.Dom) (k : nat) (st : JoinState) : Prop := mkInv2 {
  inv_li_attr :
    ∀ u li, u ∈ drop k (Dom.children dom0 doc) → Dom.firstChild dom0 u = Some li →
      Dom.getAttribute (dom st) li dli = Dom.getAttribute dom0 li dli;
  inv_li_children :
    ∀ u li, u ∈ drop k (Dom.children dom0 doc) → Dom.firstChild dom0 u = Some li →
      Dom.childNodesOf (dom st) li = Dom.childNodesOf dom0 li;
  inv_last :
    ∀ key v, JsArray.get (lastLists st) key = Some v →
      ∃ y, Dom.lastChild (dom st) v = Some y ∧ Dom.isElement (dom st) y = true
}.

(** * Facts on the commands *)
Section CoreFacts.

Implicit Types (doc tr : Doc) (node n : Node) (pos : nat).

Lemma isFlatListNode_set_node_attrs a n :
  isFlatListNode (set_node_attrs a n) = isFlatListNode n.
Proof. done. Qed.

Lemma node_indent_set_indent n v :
  node_indent (set_node_attrs (with_indent (attrs n) v) n) = v.
Proof. done. Qed.

Lemma lookup_setNodeAttribute_indent tr pos v j :
  setNodeAttribute_indent pos v tr !! j =
    if decide (pos = j)
    then (λ n, set_node_attrs (with_indent (attrs n) v) n) <$> tr !! j
    else tr !! j.
Proof.
  unfold setNodeAttribute_indent. case_decide as Hj.
  - subst. apply list_lookup_alter_eq.
  - by apply list_lookup_alter_ne.
Qed.

Lemma length_setNodeAttribute_indent tr pos v :
  length (setNodeAttribute_indent pos v tr) = length tr.
Proof. apply length_alter. Qed.

Lemma nodesBetween_lookup doc range k pos node :
  nodesBetween doc range !! k = Some (pos, node) → doc !! pos = Some node.
Proof.
  unfold nodesBetween. intros H.
  apply list_elem_of_lookup_2, list_elem_of_omap in H as (p & _ & Hp).
  destruct (doc !! p) eqn:E; simplify_eq/=. done.
Qed.

Lemma visited_lookup doc ranges k pos node :
  visited doc ranges !! k = Some (pos, node) → doc !! pos = Some node.
Proof.
  unfold visited. intros H.
  apply list_elem_of_lookup_2, list_elem_of_bind in H as (r & Hl & _).
  apply list_elem_of_lookup in Hl as [k' Hk'].
  by eapply nodesBetween_lookup.
Qed.

(** *** indentFlatListItem *)

Lemma bump_neq node : bump node ≠ node.
Proof.
  intros H. apply (f_equal node_indent) in H.
  unfold bump in H. rewrite node_indent_set_indent in H. lia.
Qed.

Lemma indent_visit_eq st pos node :
  indent_visit st (pos, node) =
    if decide (indent_test st.1 pos node)
    then (setNodeAttribute_indent pos (node_indent node + 1) st.1, true)
    else st.
Proof.
  unfold indent_visit, indent_test.
  destruct (decide _) as [[Hl Hle]|Hn].
  - rewrite Hl. by rewrite (proj2 (Z.leb_le _ _) Hle).
  - destruct (isFlatListNode node); [|done].
    destruct (Z.leb_spec (node_indent node + 1) (prevSiblingIndent st.1 pos + 1));
      [|done]. destruct Hn. done.
Qed.

Lemma indent_passed_snoc_iff doc vs v pos node :
  indent_passed doc (vs ++ [v]) pos node ↔
    indent_passed doc vs pos node ∨
    (v = (pos, node) ∧ indent_test (indent_run doc vs).1 pos node).
Proof.
  unfold indent_passed. split.
  - intros (k & Hk & Ht).
    destruct (decide (k < length vs)%nat) as [Hlt|Hge].
    + left. exists k. rewrite lookup_app_l in Hk by done.
      rewrite take_app_le in Ht by lia. done.
    + right. rewrite lookup_app_r in Hk by lia.
      destruct (k - length vs)%nat eqn:E; simplify_eq/=.
      assert (k = length vs) as -> by lia.
      rewrite take_app_length in Ht. done.
  - intros [(k & Hk & Ht)|[-> Ht]].
    + exists k. pose proof (lookup_lt_Some _ _ _ Hk).
      rewrite lookup_app_l by done. rewrite take_app_le by lia. done.
    + exists (length vs). rewrite take_app_length.
      split; [|done]. rewrite lookup_app_r by lia. by rewrite Nat.sub_diag.
Qed.

Lemma indent_run_spec doc vs :
  (∀ k pos node, vs !! k = Some (pos, node) → doc !! pos = Some node) →
  length (indent_run doc vs).1 = length doc ∧
  (∀ pos node, doc !! pos = Some node →
     ((indent_run doc vs).1 !! pos = Some node ∨
      (indent_run doc vs).1 !! pos = Some (bump node)) ∧
     ((indent_run doc vs).1 !! pos = Some (bump node) ↔ indent_passed doc vs pos node)) ∧
  ((indent_run doc vs).2 = true ↔ ∃ pos node, indent_passed doc vs pos node).
Proof.
  induction vs as [|[p n] vs IH] using rev_ind; intros Hvs.
  - simpl. split; [done|]. split.
    + intros pos node Hd. split; [by left|]. split.
      * intros H. rewrite Hd in H. simplify_eq. by destruct (bump_neq node).
      * intros (k & Hk & _). done.
    + split; [done|]. intros (pos & node & k & Hk & _). done.
  - destruct IH as (Hlen & Hnodes & Hflag).
    { intros k pos node Hk. apply (Hvs k). by apply lookup_app_l_Some. }
    assert (doc !! p = Some n) as Hp.
    { apply (Hvs (length vs)). rewrite lookup_app_r by lia. by rewrite Nat.sub_diag. }
    unfold indent_run in *. rewrite foldl_snoc, indent_visit_eq.
    set (st := foldl indent_visit (doc, false) vs) in *.
    case_decide as Ht; simpl.
    + split; [by rewrite length_setNodeAttribute_indent|]. split.
      * intros pos node Hd. rewrite lookup_setNodeAttribute_indent.
        rewrite indent_passed_snoc_iff. fold (indent_run doc vs). fold st in Hnodes |- *.
        destruct (Hnodes pos node Hd) as [Hor Hiff].
        case_decide as Hpos.
        -- subst pos. simplify_eq.
           assert (st.1 !! p = Some n ∨ st.1 !! p = Some (bump n)) as [->| ->] by done;
             simpl; (split; [right; done|]); split; intros _; try done; right; done.
        -- split; [done|]. rewrite Hiff. split; [by left|]. intros [?|[? _]]; [done|].
           simplify_eq.
      * split; [|done]. intros _. exists p, n. apply indent_passed_snoc_iff. by right.
    + split; [done|]. split.
      * intros pos node Hd. destruct (Hnodes pos node Hd) as [Hor Hiff].
        split; [done|]. rewrite Hiff, indent_passed_snoc_iff.
        split; [by left|]. intros [?|[? ?]]; [done|]. simplify_eq. done.
      * rewrite Hflag. split.
        -- intros (pos & node & H). exists pos, node. apply indent_passed_snoc_iff. by left.
        -- intros (pos & node & H). apply indent_passed_snoc_iff in H as [H|[? H]].
           ++ by exists pos, node.
           ++ simplify_eq. done.
Qed.

Lemma indent_run_staircase doc vs :
  (∀ k pos node, vs !! k = Some (pos, node) → doc !! pos = Some node) →
  staircase doc → staircase (indent_run doc vs).1.
Proof.
  intros Hvs Hdoc. induction vs as [|[p n] vs IH] using rev_ind; [done|].
  assert (∀ k pos node, vs !! k = Some (pos, node) → doc !! pos = Some node) as Hvs'.
  { intros k pos node Hk. apply (Hvs k). by apply lookup_app_l_Some. }
  specialize (IH Hvs').
  destruct (indent_run_spec doc vs Hvs') as (_ & Hnodes & _).
  assert (doc !! p = Some n) as Hp.
  { apply (Hvs (length vs)). rewrite lookup_app_r by lia. by rewrite Nat.sub_diag. }
  unfold indent_run in *. rewrite foldl_snoc, indent_visit_eq.
  set (st := foldl indent_visit (doc, false) vs) in *.
  case_decide as Ht; [|done]. simpl.
  destruct Ht as [Hl Hle].
  intros i a b. rewrite !lookup_setNodeAttribute_indent.
  intros Ha Hb Hla Hlb.
  destruct (decide (p = i)) as [->|Hpi]; destruct (decide (i = S i)) as [?|_]; try lia.
  - destruct (decide (S i = S i)) as [_|?]; [|done].
    destruct (st.1 !! i) as [a0|] eqn:Ea0; simplify_eq/=.
    specialize (IH i a0 b Ea0 Hb Hla Hlb).
    rewrite node_indent_set_indent.
    destruct (Hnodes i n Hp) as [[H|H] _]; rewrite Ea0 in H; simplify_eq.
    + lia.
    + unfold bump in IH. rewrite node_indent_set_indent in IH. lia.
  - destruct (decide (p = S i)) as [->|Hps].
    + destruct (st.1 !! S i) as [b0|] eqn:Eb0; simplify_eq/=.
      rewrite node_indent_set_indent.
      unfold prevSiblingIndent in Hle. rewrite Ha, Hla in Hle. lia.
    + by apply (IH i).
Qed.

Lemma indentFlatListItem_staircase doc ranges :
  staircase doc → staircase (indentFlatListItem doc ranges).1.
Proof.
  intros Hdoc. unfold indentFlatListItem.
  pose proof (indent_run_staircase doc (visited doc ranges) (visited_lookup doc ranges) Hdoc) as H.
  unfold indent_run in H. by destruct (foldl _ _ _).2.
Qed.

(** *** dedentFlatListItem *)

Lemma nodesBetween_S doc lo len :
  nodesBetween doc (lo, S len) =
    nodesBetween doc (lo, len) ++
      match doc !! (lo + len)%nat with Some n => [((lo + len)%nat, n)] | None => [] end.
Proof.
  unfold nodesBetween. simpl fst. simpl snd.
  rewrite seq_S, omap_app. f_equal. simpl. by destruct (doc !! _).
Qed.

Lemma dedent_visit_list canConvert st pos node :
  isFlatListNode node = true →
  d_tr st !! pos = Some node →
  dedent_visit canConvert st (pos, node) =
    mkDedent (alter (dedent1 canConvert) pos (d_tr st))
      (dedent_applies canConvert node || d_applicable st)
      (if dedent_applies canConvert node || d_applicable st
       then Some (mkLast pos (node_indent node) node) else d_lastDedented st).
Proof.
  intros Hl Htr. unfold dedent_visit, dedent_applies. rewrite Hl. simpl.
  assert (∀ f, f node = dedent1 canConvert node →
               alter f pos (d_tr st) = alter (dedent1 canConvert) pos (d_tr st)) as Halt.
  { intros f Hf. apply list_eq. intros j. destruct (decide (pos = j)) as [->|].
    - rewrite !list_lookup_alter_eq, Htr. simpl. by rewrite Hf.
    - by rewrite !list_lookup_alter_ne. }
  destruct (0 <? node_indent node) eqn:E; simpl.
  - unfold setNodeAttribute_indent. rewrite Halt; [done|].
    unfold dedent1. by rewrite Hl, E.
  - destruct canConvert; simpl.
    + unfold setNodeMarkup_paragraph. rewrite Halt; [done|].
      unfold dedent1. by rewrite Hl, E.
    + rewrite <- (Halt id); [|unfold dedent1; by rewrite Hl, E].
      rewrite list_alter_id by done. by destruct st.
Qed.

Lemma dedent1_not_list canConvert n : isFlatListNode n = false → dedent1 canConvert n = n.
Proof. unfold dedent1. by intros ->. Qed.

Lemma dedent_run_range canConvert doc lo len :
  let st := dedent_run canConvert doc (nodesBetween doc (lo, len)) in
  (∀ j, d_tr st !! j =
     if decide (lo ≤ j < lo + len)%nat then dedent1 canConvert <$> doc !! j else doc !! j) ∧
  (d_applicable st = false →
     d_lastDedented st = None ∧
     ∀ j n, (lo ≤ j < lo + len)%nat → doc !! j = Some n → dedent_applies canConvert n = false) ∧
  (d_applicable st = true →
     ∃ p nodeP, d_lastDedented st = Some (mkLast p (node_indent nodeP) nodeP) ∧
       doc !! p = Some nodeP ∧ isFlatListNode nodeP = true ∧ (lo ≤ p < lo + len)%nat ∧
       ∀ j n, (p < j < lo + len)%nat → doc !! j = Some n → isFlatListNode n = false).
Proof.
  induction len as [|len IH]; simpl.
  - split; [|split]; [| |done].
    + intros j. case_decide; [lia|done].
    + intros _. split; [done|]. intros; lia.
  - destruct IH as (Htr & Hno & Hyes). unfold dedent_run in *.
    rewrite nodesBetween_S. rewrite foldl_app.
    set (st := foldl (dedent_visit canConvert) (mkDedent doc false None)
                 (nodesBetween doc (lo, len))) in *.
    destruct (doc !! (lo + len)%nat) as [n|] eqn:En; cbn [foldl].
    + destruct (isFlatListNode n) eqn:El.
      * rewrite dedent_visit_list; [|done|]; last first.
        { rewrite Htr. case_decide; [lia|done]. }
        simpl. split; [|split].
        -- intros j. destruct (decide (lo + len = j)%nat) as [<-|Hne].
           ++ rewrite list_lookup_alter_eq, Htr.
              case_decide; [lia|]. case_decide; [|lia]. done.
           ++ rewrite list_lookup_alter_ne by done. rewrite Htr.
              repeat case_decide; try done; lia.
        -- intros [Ha Hb]%orb_false_iff. rewrite Ha, Hb. simpl.
           destruct (Hno Hb) as [Hn1 Hn2]. split; [done|].
           intros j m Hj Hm. destruct (decide (j = lo + len)%nat) as [->|].
           ++ by simplify_eq.
           ++ apply (Hn2 j); [lia|done].
        -- intros ->. exists (lo + len)%nat, n.
           repeat split; try done; try lia.
      * unfold dedent_visit. rewrite El. split; [|split].
        -- intros j. rewrite Htr. destruct (decide (lo + len = j)%nat) as [<-|Hne].
           ++ case_decide; [lia|]. case_decide; [|lia].
              rewrite En. simpl. by rewrite dedent1_not_list.
           ++ repeat case_decide; try done; lia.
        -- intros Hb. destruct (Hno Hb) as [Hn1 Hn2]. split; [done|].
           intros j m Hj Hm. destruct (decide (j = lo + len)%nat) as [->|].
           ++ simplify_eq. unfold dedent_applies. by rewrite El.
           ++ apply (Hn2 j); [lia|done].
        -- intros Hb. destruct (Hyes Hb) as (p & nodeP & H1 & H2 & H3 & H4 & H5).
           exists p, nodeP. repeat split; try done; try lia.
           intros j m Hj Hm. destruct (decide (j = lo + len)%nat) as [->|].
           ++ by simplify_eq.
           ++ apply (H5 j); [lia|done].
    + split; [|split].
      * intros j. rewrite Htr. destruct (decide (lo + len = j)%nat) as [<-|Hne].
        -- case_decide; [lia|]. case_decide; [|lia]. by rewrite En.
        -- repeat case_decide; try done; lia.
      * intros Hb. destruct (Hno Hb) as [Hn1 Hn2]. split; [done|].
        intros j m Hj Hm. destruct (decide (j = lo + len)%nat) as [->|].
        -- by simplify_eq.
        -- apply (Hn2 j); [lia|done].
      * intros Hb. destruct (Hyes Hb) as (p & nodeP & H1 & H2 & H3 & H4 & H5).
        exists p, nodeP. repeat split; try done; try lia.
        intros j m Hj Hm. destruct (decide (j = lo + len)%nat) as [->|].
        -- by simplify_eq.
        -- apply (H5 j); [lia|done].
Qed.

Lemma run_length_lt oldIndent rest k :
  (k < run_length oldIndent rest)%nat →
  ∃ n, rest !! k = Some n ∧ isFlatListNode n = true ∧ oldIndent < node_indent n.
Proof.
  revert k. induction rest as [|n rest IH]; intros k; simpl; [lia|].
  destruct (isFlatListNode n) eqn:El; simpl; [|lia].
  destruct (Z.ltb_spec oldIndent (node_indent n)); [|lia].
  destruct k as [|k]; intros Hk.
  - by exists n.
  - apply IH. lia.
Qed.

Lemma run_length_stop oldIndent rest n :
  rest !! run_length oldIndent rest = Some n →
  ¬ (isFlatListNode n = true ∧ oldIndent < node_indent n).
Proof.
  induction rest as [|m rest IH]; simpl; [done|].
  destruct (isFlatListNode m) eqn:El; simpl.
  - destruct (Z.ltb_spec oldIndent (node_indent m)); simpl.
    + apply IH.
    + intros ? [_ ?]. simplify_eq. lia.
  - intros ? [? _]. simplify_eq. congruence.
Qed.

Lemma dedent_descendants_lookup oldIndent rest :
  ∀ index tr j, drop index tr = rest →
    dedent_descendants oldIndent index rest tr !! j =
      if decide (index ≤ j < index + run_length oldIndent rest)%nat
      then dec <$> tr !! j else tr !! j.
Proof.
  induction rest as [|n rest IH]; intros index tr j Hdrop; simpl.
  - case_decide; [lia|done].
  - assert (tr !! index = Some n) as Hn.
    { rewrite <- (Nat.add_0_r index), <- lookup_drop, Hdrop. done. }
    destruct (isFlatListNode n) eqn:El; simpl; [|case_decide; [lia|done]].
    destruct (Z.leb_spec (node_indent n) oldIndent) as [Hle|Hlt].
    + destruct (Z.ltb_spec oldIndent (node_indent n)); [lia|].
      case_decide; [lia|done].
    + destruct (Z.ltb_spec oldIndent (node_indent n)); [|lia].
      rewrite IH; last first.
      { unfold setNodeAttribute_indent. rewrite drop_alter_lt by lia.
        erewrite drop_S in Hdrop by done. by simplify_eq. }
      rewrite lookup_setNodeAttribute_indent.
      destruct (decide (index = j)) as [->|Hne].
      * case_decide; [lia|]. case_decide; [|lia]. rewrite Hn. done.
      * repeat case_decide; try done; lia.
Qed.

(** What the command does with a selection of one range. *)
Lemma dedent_single_range canConvert doc lo len :
  let res := dedentFlatListItem canConvert doc [(lo, len)] in
  (res.2 = false ∧ res.1 = doc) ∨
  (res.2 = true ∧ ∃ p nodeP r,
     doc !! p = Some nodeP ∧ isFlatListNode nodeP = true ∧ (lo ≤ p < lo + len)%nat ∧
     (∀ j n, (p < j < lo + len)%nat → doc !! j = Some n → isFlatListNode n = false) ∧
     (∀ j, (p < j ≤ p + r)%nat →
        ∃ n, doc !! j = Some n ∧ isFlatListNode n = true ∧ node_indent nodeP < node_indent n) ∧
     (∀ n, doc !! (p + r + 1)%nat = Some n →
        ¬ (isFlatListNode n = true ∧ node_indent nodeP < node_indent n)) ∧
     ∀ j, res.1 !! j =
       if decide (lo ≤ j ≤ p)%nat then dedent1 canConvert <$> doc !! j
       else if decide (p < j ≤ p + r)%nat then dec <$> doc !! j
       else doc !! j).
Proof.
  simpl. unfold dedentFlatListItem, visited. simpl. rewrite app_nil_r.
  destruct (dedent_run_range canConvert doc lo len) as (Htr & Hno & Hyes).
  unfold dedent_run in *.
  set (st := foldl (dedent_visit canConvert) (mkDedent doc false None)
               (nodesBetween doc (lo, len))) in *.
  destruct (d_applicable st) eqn:Ea; [|by left]. right.
  destruct (Hyes eq_refl) as (p & nodeP & -> & Hp & Hl & Hrange & Hafter).
  simpl. split; [done|].
  assert (∀ j, (p < j)%nat → d_tr st !! j = doc !! j) as Hsame.
  { intros j Hj. rewrite Htr. case_decide; [|done].
    destruct (doc !! j) as [n|] eqn:En; [|done]. simpl.
    rewrite dedent1_not_list; [done|]. apply (Hafter j); [lia|done]. }
  assert (∀ k, drop (S p) (d_tr st) !! k = drop (S p) doc !! k) as Hdrop.
  { intros k. rewrite !lookup_drop. apply Hsame. lia. }
  apply list_eq in Hdrop.
  exists p, nodeP, (run_length (node_indent nodeP) (drop (S p) doc)).
  split; [done|]. split; [done|]. split; [done|]. split; [done|]. split; [|split].
  - intros j Hj.
    destruct (run_length_lt (node_indent nodeP) (drop (S p) doc) (j - S p)%nat)
      as (n & Hn & ?); [lia|].
    rewrite lookup_drop in Hn. replace (S p + (j - S p))%nat with j in Hn by lia.
    by exists n.
  - intros n Hn. apply (run_length_stop (node_indent nodeP) (drop (S p) doc)).
    rewrite lookup_drop. rewrite <- Hn. f_equal. lia.
  - intros j. rewrite dedent_descendants_lookup by done. rewrite Hdrop.
    case_decide as H1.
    + rewrite Hsame by lia. case_decide; [lia|]. case_decide; [done|lia].
    + destruct (decide (p < j)%nat).
      * rewrite Hsame by lia. case_decide; [lia|]. case_decide; [lia|done].
      * rewrite Htr. repeat case_decide; try done; lia.
Qed.

Lemma dedent1_list canConvert n :
  isFlatListNode (dedent1 canConvert n) = true →
  isFlatListNode n = true ∧
  ((0 < node_indent n ∧ node_indent (dedent1 canConvert n) = node_indent n - 1) ∨
   (node_indent n ≤ 0 ∧ node_indent (dedent1 canConvert n) = node_indent n)).
Proof.
  unfold dedent1. destruct (isFlatListNode n) eqn:El; [|by rewrite El].
  destruct (Z.ltb_spec 0 (node_indent n)).
  - rewrite node_indent_set_indent. intros _. split; [done|]. left. lia.
  - destruct canConvert; [done|]. intros _. split; [done|]. right. lia.
Qed.

Lemma node_indent_dec n : node_indent (dec n) = node_indent n - 1.
Proof. done. Qed.

Lemma dedent_single_staircase canConvert doc lo len :
  staircase doc → staircase (dedentFlatListItem canConvert doc [(lo, len)]).1.
Proof.
  intros Hdoc.
  destruct (dedent_single_range canConvert doc lo len)
    as [[_ ->]|(_ & p & nodeP & r & Hp & Hl & Hrange & Hafter & Hrun & Hstop & HF)];
    [done|].
  intros i a b Ha Hb Hla Hlb. rewrite HF in Ha, Hb.
  destruct (doc !! i) as [a0|] eqn:Ea0; [|by repeat case_decide].
  destruct (doc !! S i) as [b0|] eqn:Eb0; [|by repeat case_decide].
  pose proof (Hdoc i a0 b0 Ea0 Eb0) as Hst.
  simpl in Ha, Hb.
  destruct (decide (lo ≤ i ≤ p)%nat) as [Hi1|Hi1];
    [|destruct (decide (p < i ≤ p + r)%nat) as [Hi2|Hi2]];
    (destruct (decide (lo ≤ S i ≤ p)%nat) as [Hs1|Hs1];
      [|destruct (decide (p < S i ≤ p + r)%nat) as [Hs2|Hs2]]);
    simplify_eq; try lia.
  - (* both in the selection *)
    apply dedent1_list in Hla as (Hla & ?), Hlb as (Hlb & ?).
    specialize (Hst Hla Hlb). lia.
  - (* the last dedented item and the first of its descendants *)
    assert (i = p) as -> by lia. simplify_eq.
    apply dedent1_list in Hla as (Hla & ?).
    destruct (Hrun (S p)) as (n & Hn & _ & ?); [lia|]. simplify_eq.
    specialize (Hst Hla Hlb). rewrite node_indent_dec. lia.
  - (* the last dedented item and a sibling that stays *)
    assert (i = p) as -> by lia. simplify_eq.
    assert (r = 0%nat) as -> by lia.
    apply dedent1_list in Hla as (Hla & ?).
    specialize (Hst Hla Hlb).
    assert (¬ node_indent nodeP < node_indent b).
    { intros ?. apply (Hstop b); [|done]. rewrite <- Eb0. f_equal. lia. }
    lia.
  - (* two descendants *)
    specialize (Hst Hla Hlb). rewrite !node_indent_dec. lia.
  - (* the last descendant and the sibling after it *)
    assert (i = (p + r)%nat) as -> by lia.
    destruct (Hrun (p + r)%nat) as (n & Hn & _ & ?); [lia|]. simplify_eq.
    assert (¬ node_indent nodeP < node_indent b).
    { intros ?. apply (Hstop b); [|done]. rewrite <- Eb0. f_equal. lia. }
    rewrite node_indent_dec. lia.
  - (* the first selected item and the sibling before it *)
    apply dedent1_list in Hlb as (Hlb & ?).
    specialize (Hst Hla Hlb). lia.
  - by apply Hst.
Qed.

(** *** indentFlatListItem against the scan of the specification *)

Lemma spec_indent_scan_lookup orig : ∀ selected prev p staged j,
  length orig = length staged →
  spec_indent_scan selected prev p orig staged !! j
  = scan_at (λ i, selected (p + i)%nat) prev orig staged
      (spec_indent_scan selected prev p orig staged) j.
Proof.
  induction orig as [|node orig IH]; intros selected prev p staged j Hlen.
  - by destruct staged.
  - destruct staged as [|current staged]; [done|]. injection Hlen as Hlen.
    cbn [spec_indent_scan]. cbv zeta.
    set (out := if selected p && _ && _ then _ else current).
    destruct j as [|j].
    + unfold scan_at. cbn. rewrite Nat.add_0_r. done.
    + cbn [lookup list_lookup]. rewrite (IH selected _ (S p) staged j Hlen).
      unfold scan_at. cbn [lookup list_lookup take].
      destruct (orig !! j) as [o|]; [|done]. destruct (staged !! j) as [t|]; [|done].
      replace (S p + j)%nat with (p + S j)%nat by lia.
      set (R := spec_indent_scan selected (spec_indent_after out) (S p) orig staged).
      assert (match last (out :: take j R) with
              | Some n => spec_indent_after n
              | None => prev
              end
              = match last (take j R) with
                | Some n => spec_indent_after n
                | None => spec_indent_after out
                end) as ->; [|done].
      rewrite last_cons. by destruct (last (take j R)).
Qed.

Lemma take_S_lookup {A} (l : list A) k :
  take (S k) l = take k l ++ from_option (λ x, [x]) [] (l !! k).
Proof.
  revert k. induction l as [|x l IH]; intros [|k]; cbn; try done.
  by rewrite <- IH.
Qed.

(** The children that come out are determined by what the scan says of
    each one. *)
Lemma scan_at_unique selected prev orig staged R1 R2 :
  (∀ j, R1 !! j = scan_at selected prev orig staged R1 j) →
  (∀ j, R2 !! j = scan_at selected prev orig staged R2 j) →
  R1 = R2.
Proof.
  intros H1 H2.
  assert (∀ k, take k R1 = take k R2) as Htake.
  { induction k as [|k IH]; [done|].
    rewrite !take_S_lookup, IH, H1, H2. unfold scan_at. by rewrite IH. }
  specialize (Htake (length R1 + length R2)%nat).
  by rewrite !take_ge in Htake by lia.
Qed.

Lemma prevSiblingIndent_spec_prev tr pos :
  (pos ≤ length tr)%nat → prevSiblingIndent tr pos = spec_prev (take pos tr).
Proof.
  intros Hpos. unfold prevSiblingIndent, spec_prev. destruct pos as [|q]; [done|].
  rewrite last_lookup, length_take_le by lia. cbn [Nat.pred].
  rewrite lookup_take_lt by lia. destruct (tr !! q) as [n|] eqn:E; [done|].
  apply lookup_ge_None in E. lia.
Qed.

Lemma take_alter_ge {A} (f : A → A) (l : list A) (m i : nat) :
  (m ≤ i)%nat → take m (alter f i l) = take m l.
Proof.
  intros Hn. apply list_eq. intros k.
  destruct (decide (k < m)%nat).
  - rewrite !lookup_take_lt by done. apply list_lookup_alter_ne. lia.
  - rewrite !lookup_take_ge by lia. done.
Qed.

Lemma in_range_S lo len j :
  in_range (lo, S len) j = in_range (lo, len) j || bool_decide (j = (lo + len)%nat).
Proof.
  unfold in_range. cbn [fst snd]. apply eq_true_iff_eq.
  rewrite orb_true_iff, !andb_true_iff, bool_decide_eq_true, !Nat.leb_le, !Nat.ltb_lt.
  lia.
Qed.

(** The calls of the callback for one range, on the children as the earlier
    ranges left them, do what the scan says. *)
Lemma indent_range_scan_at doc lo len : ∀ tr b,
  length tr = length doc →
  let tr' := (foldl indent_visit (tr, b) (nodesBetween doc (lo, len))).1 in
  length tr' = length doc ∧
  ∀ j, tr' !! j = scan_at (in_range (lo, len)) (-1) doc tr tr' j.
Proof.
  induction len as [|len IH]; intros tr b Hlen; cbv zeta.
  - unfold nodesBetween. cbn [fst snd seq omap foldl]. split; [done|].
    intros j. unfold scan_at.
    assert (in_range (lo, 0%nat) j = false) as ->.
    { unfold in_range. cbn [fst snd]. apply eq_true_iff_eq.
      rewrite andb_true_iff, Nat.leb_le, Nat.ltb_lt. split; [lia|done]. }
    cbn [andb].
    destruct (doc !! j) as [o|] eqn:Eo; destruct (tr !! j) as [t|] eqn:Et; try done.
    apply lookup_ge_None in Eo. apply lookup_lt_Some in Et. lia.
  - destruct (IH tr b Hlen) as [Hlen' Hat].
    rewrite nodesBetween_S, foldl_app.
    set (st := foldl indent_visit (tr, b) (nodesBetween doc (lo, len))) in *.
    destruct (doc !! (lo + len)%nat) as [node|] eqn:Enode; last first.
    { cbn [foldl]. split; [done|]. intros j. rewrite Hat. unfold scan_at.
      rewrite in_range_S. destruct (decide (j = (lo + len)%nat)) as [->|Hne].
      - by rewrite Enode.
      - by rewrite (bool_decide_eq_false_2 _ Hne), orb_false_r. }
    cbn [foldl]. unfold indent_visit.
    assert (lo + len < length st.1)%nat as Hlt
      by (rewrite Hlen'; by eapply lookup_lt_Some).
    assert (in_range (lo, len) (lo + len) = false) as Hout.
    { unfold in_range. cbn [fst snd]. apply andb_false_iff. right.
      apply Nat.ltb_ge. lia. }
    assert (∀ tr', length tr' = length doc →
              (∀ j, j ≠ (lo + len)%nat → tr' !! j = st.1 !! j) →
              take (lo + len) tr' = take (lo + len) st.1 →
              tr' !! (lo + len)%nat
              = (λ current,
                   if isFlatListNode node
                      && (node_indent node + 1
                          <=? prevSiblingIndent st.1 (lo + len) + 1)
                   then set_node_attrs
                          (with_indent (attrs current) (node_indent node + 1)) current
                   else current) <$> st.1 !! (lo + len)%nat →
              ∀ j, tr' !! j = scan_at (in_range (lo, S len)) (-1) doc tr tr' j) as Hstep.
    { intros tr' Hl Hother Htake Hhere j.
      assert (∀ k, (k ≤ lo + len)%nat → take k tr' = take k st.1) as Htk.
      { intros k Hk.
        replace k with (k `min` (lo + len))%nat by lia.
        by rewrite <- !take_take, Htake. }
      destruct (decide (j = (lo + len)%nat)) as [->|Hne].
      - rewrite Hhere, Hat. unfold scan_at. rewrite Enode, Hout, in_range_S, Hout.
        rewrite bool_decide_eq_true_2 by done. cbn [orb andb].
        destruct (tr !! (lo + len)%nat) as [t|]; [|done]. cbn [fmap option_fmap option_map].
        rewrite Htake, (prevSiblingIndent_spec_prev st.1) by lia. done.
      - rewrite (Hother j Hne), Hat. unfold scan_at.
        rewrite in_range_S, (bool_decide_eq_false_2 _ Hne), orb_false_r.
        destruct (doc !! j) as [o|]; [|done]. destruct (tr !! j) as [t|]; [|done].
        destruct (decide (j < lo + len)%nat) as [Hj|Hj].
        + by rewrite (Htk j) by lia.
        + assert (in_range (lo, len) j = false) as ->; [|done].
          unfold in_range. cbn [fst snd]. apply andb_false_iff. right.
          apply Nat.ltb_ge. lia. }
    destruct (isFlatListNode node) eqn:El; cbn [andb]; last first.
    { split; [done|]. apply Hstep; try done. by destruct (st.1 !! (lo + len)%nat). }
    destruct (node_indent node + 1 <=? prevSiblingIndent st.1 (lo + len) + 1) eqn:Et;
      cbn [fst]; last first.
    { split; [done|]. apply Hstep; try done. by destruct (st.1 !! (lo + len)%nat). }
    unfold setNodeAttribute_indent. split; [by rewrite length_alter|].
    apply Hstep.
    + by rewrite length_alter.
    + intros j Hne. apply list_lookup_alter_ne. lia.
    + by apply take_alter_ge.
    + by rewrite list_lookup_alter_eq.
Qed.

Lemma indent_range_scan doc range tr b :
  length tr = length doc →
  (foldl indent_visit (tr, b) (nodesBetween doc range)).1
  = spec_indent_scan (in_range range) (-1) 0 doc tr.
Proof.
  intros Hlen. destruct range as [lo len].
  destruct (indent_range_scan_at doc lo len tr b Hlen) as [Hlen' Hat].
  apply (scan_at_unique (in_range (lo, len)) (-1) doc tr); [done|].
  intros j. by rewrite spec_indent_scan_lookup.
Qed.

Lemma spec_indent_scan_length orig : ∀ selected prev p staged,
  length orig = length staged →
  length (spec_indent_scan selected prev p orig staged) = length staged.
Proof.
  induction orig as [|node orig IH]; intros selected prev p [|current staged] Hlen;
    try done.
  cbn [spec_indent_scan length]. cbv zeta. f_equal. apply IH. by injection Hlen.
Qed.

Lemma indent_ranges_scan doc ranges : ∀ tr b,
  length tr = length doc →
  (foldl indent_visit (tr, b) (visited doc ranges)).1
  = foldl (λ staged range, spec_indent_scan (in_range range) (-1) 0 doc staged) tr ranges.
Proof.
  unfold visited. induction ranges as [|range ranges IH]; intros tr b Hlen; [done|].
  rewrite bind_cons, foldl_app. cbn [foldl].
  rewrite <- (indent_range_scan doc range tr b Hlen).
  destruct (foldl indent_visit (tr, b) (nodesBetween doc range)) as [tr1 b1] eqn:E.
  apply IH. cbn [fst].
  assert (tr1 = (foldl indent_visit (tr, b) (nodesBetween doc range)).1) as ->
    by (by rewrite E).
  rewrite indent_range_scan, spec_indent_scan_length by done. done.
Qed.

(** C4. indentFlatListItem dispatches what the scan of the specification
    gives: for each range of the selection in turn, the children are scanned
    from left to right, and a list item in the range gets its indent
    increased by exactly 1 if and only if the new indent is at most
    prevSiblingIndent + 1, where prevSiblingIndent is the indent of the
    sibling just before it as the scan has left it (-1 without a sibling
    before it, or when that sibling is not a list item).  For a selection of
    one range this reads, child by child: the child comes out with its
    indent increased by 1 exactly when it lies in the range, is a list item
    and passes the test against the child before it in the document that
    comes out; every other child is unchanged.  In every case a child is
    unchanged or has its indent increased by exactly 1, and the command
    returns true if and only if some child changed. *)
Theorem C4_indentFlatListItem_spec (doc : Doc) (ranges : list Range) :
  let result := indentFlatListItem doc ranges in
  result.1 = spec_indentFlatListItem doc ranges ∧
  (∀ range, ranges = [range] →
     ∀ pos node, doc !! pos = Some node →
       result.1 !! pos =
         Some (if in_range range pos && isFlatListNode node
                  && (node_indent node + 1 <=? spec_prev (take pos result.1) + 1)
               then bump node else node)) ∧
  (∀ pos node, doc !! pos = Some node →
     result.1 !! pos = Some node ∨
     (isFlatListNode node = true ∧ result.1 !! pos = Some (bump node))) ∧
  (result.2 = true ↔ ∃ pos, result.1 !! pos ≠ doc !! pos).
Proof.
  cbv zeta.
  destruct (indent_run_spec doc (visited doc ranges) (visited_lookup doc ranges))
    as (Hlen & Hnodes & Hflag).
  pose proof (indent_ranges_scan doc ranges doc false eq_refl) as Hscan.
  fold (spec_indentFlatListItem doc ranges) in Hscan.
  assert ((indentFlatListItem doc ranges).1 = spec_indentFlatListItem doc ranges) as Heq.
  { unfold indentFlatListItem. unfold indent_run in *.
    destruct (foldl indent_visit (doc, false) (visited doc ranges)) as [tr [|]] eqn:E;
      cbn [fst snd] in *; [done|].
    rewrite <- Hscan. apply list_eq. intros pos.
    destruct (doc !! pos) as [node|] eqn:Ed.
    - destruct (Hnodes pos node Ed) as [[H|H] Hiff]; [done|].
      apply Hiff in H. destruct Hflag as [_ Hflag]. discriminate Hflag. eauto.
    - apply lookup_ge_None in Ed. symmetry. apply lookup_ge_None. lia. }
  assert (∀ pos node, doc !! pos = Some node →
            (indentFlatListItem doc ranges).1 !! pos = Some node ∨
            (isFlatListNode node = true ∧
             (indentFlatListItem doc ranges).1 !! pos = Some (bump node))) as Hcases.
  { intros pos node Hd. unfold indentFlatListItem. unfold indent_run in *.
    destruct (foldl indent_visit (doc, false) (visited doc ranges)) as [tr [|]];
      cbn [fst snd] in *; [|by left].
    destruct (Hnodes pos node Hd) as [[H|H] Hiff]; [by left|]. right. split; [|done].
    apply Hiff in H as (k & _ & Hl & _). done. }
  split; [exact Heq|]. split; [|split; [exact Hcases|]].
  - intros range -> pos node Hd. rewrite Heq at 1.
    unfold spec_indentFlatListItem. cbn [foldl].
    rewrite spec_indent_scan_lookup by done. unfold scan_at. rewrite Hd. cbn [Nat.add].
    rewrite Heq. unfold spec_indentFlatListItem, spec_prev. cbn [foldl]. done.
  - unfold indentFlatListItem. unfold indent_run in *.
    destruct (foldl indent_visit (doc, false) (visited doc ranges)) as [tr [|]];
      cbn [fst snd] in *.
    + split; [|done]. intros _.
      destruct (proj1 Hflag eq_refl) as (pos & node & Hpass).
      exists pos. destruct Hpass as (k & Hk & Ht).
      pose proof (visited_lookup _ _ _ _ _ Hk) as Hd.
      destruct (Hnodes pos node Hd) as [_ Hiff].
      rewrite (proj2 Hiff), Hd; [|by exists k].
      intros ?. simplify_eq. by destruct (bump_neq node).
    + split; [done|]. intros [pos Hpos]. done.
Qed.

(** On the items [0, 0, 1] with the second and the third selected, the
    second goes to 1 (its sibling before has 0), and the third goes to 2:
    the test reads the second item as the scan has left it, with indent 1. *)
Lemma C4_witness :
  indents (indentFlatListItem (item ordered <$> [0; 0; 1]) [(1, 2)%nat]).1 = [0; 1; 2] ∧
  (indentFlatListItem (item ordered <$> [0; 0; 1]) [(1, 2)%nat]).2 = true ∧
  indents (indentFlatListItem (item ordered <$> [0; 1; 1]) [(1, 2)%nat]).1 = [0; 1; 2] ∧
  (indentFlatListItem (item ordered <$> [0; 2]) [(0, 2)%nat]) = (item ordered <$> [0; 2], false).
Proof.
  rewrite (proj1 (C4_indentFlatListItem_spec (item ordered <$> [0; 0; 1]) [(1, 2)%nat])).
  rewrite (proj1 (C4_indentFlatListItem_spec (item ordered <$> [0; 1; 1]) [(1, 2)%nat])).
  repeat split; reflexivity.
Defined.

End CoreFacts.

(** * Facts on the paste plugin *)
Section PasteFacts.
Import Owned.

Implicit Types (from : ResolvedPos) (st : LoopState) (child : Node).

Lemma clamp_spec last d n :
  -1 ≤ last →
  (clamp last d n).2 = Z.max 0 (Z.min (last + 1) n) ∧
  0 ≤ (clamp last d n).2 ≤ last + 1 ∧
  (clamp last d n).1 = d + ((clamp last d n).2 - n).
Proof.
  intros Hlast. unfold clamp.
  destruct (Z.ltb_spec n 0); simpl; [lia|].
  destruct (Z.ltb_spec (last + 1) n); simpl; lia.
Qed.

Lemma visit_list from st i child :
  isFlatListNode child = true →
  visit from st i child =
    if skipped from i
    then (mkLoop (contextIndent st) (lastIndent st) (Some (shift_of st child)), child)
    else
      let c := clamp (lastIndent st) (shift_of st child)
                 (node_indent child + shift_of st child) in
      (mkLoop (contextIndent st) c.2 (Some c.1),
       set_node_attrs (with_indent (attrs child) c.2) child).
Proof.
  intros Hl. unfold visit, skipped, shift_of. rewrite Hl.
  destruct (delta st); simpl; destruct (_ && _); try done; by destruct (clamp _ _ _).
Qed.

Lemma visit_not_list from st i child :
  isFlatListNode child = false →
  visit from st i child = (mkLoop 0 (lastIndent st) None, child).
Proof. intros Hl. unfold visit. by rewrite Hl. Qed.

Lemma visit_type_name from st i child :
  type_name (visit from st i child).2 = type_name child.
Proof.
  destruct (isFlatListNode child) eqn:Hl.
  - rewrite visit_list by done. by destruct (skipped from i).
  - by rewrite visit_not_list.
Qed.

Lemma visit_isFlatListNode from st i child :
  isFlatListNode (visit from st i child).2 = isFlatListNode child.
Proof. unfold isFlatListNode, getListType. by rewrite visit_type_name. Qed.

Lemma visit_lastIndent from st i child :
  -1 ≤ lastIndent st → -1 ≤ lastIndent (visit from st i child).1.
Proof.
  intros Hlast. destruct (isFlatListNode child) eqn:Hl.
  - rewrite visit_list by done. destruct (skipped from i); simpl; [done|].
    pose proof (clamp_spec (lastIndent st) (shift_of st child)
                  (node_indent child + shift_of st child) Hlast). lia.
  - by rewrite visit_not_list.
Qed.

Lemma loop_cons from st i child rest :
  loop from st i (child :: rest) =
    ((loop from (visit from st i child).1 (S i) rest).1,
     (visit from st i child).2 :: (loop from (visit from st i child).1 (S i) rest).2).
Proof. simpl. destruct (visit from st i child). by destruct (loop _ _ _ _). Qed.

Lemma loop_app from l1 : ∀ st i l2,
  loop from st i (l1 ++ l2) =
    ((loop from (loop from st i l1).1 (i + length l1) l2).1,
     (loop from st i l1).2 ++ (loop from (loop from st i l1).1 (i + length l1) l2).2).
Proof.
  induction l1 as [|c l1 IH]; intros st i l2.
  - simpl. rewrite Nat.add_0_r. by destruct (loop _ _ _ _).
  - rewrite <- app_comm_cons, !loop_cons, IH. simpl.
    rewrite Nat.add_succ_r. done.
Qed.

Lemma loop_length from children : ∀ st i,
  length (loop from st i children).2 = length children.
Proof.
  induction children as [|c cs IH]; intros st i; [done|].
  rewrite loop_cons. simpl. by rewrite IH.
Qed.

Lemma state_at_S from slice i child :
  slice !! i = Some child →
  state_at from slice (S i) = (visit from (state_at from slice i) i child).1.
Proof.
  intros Hi. unfold state_at. rewrite (take_S_r _ _ _ Hi), loop_app.
  rewrite loop_cons. cbn [fst snd loop].
  rewrite length_take_le by (apply lookup_lt_Some in Hi; lia). done.
Qed.

Lemma loop_lookup from slice i child :
  slice !! i = Some child →
  (loop from (initial from) 0 slice).2 !! i =
    Some (visit from (state_at from slice i) i child).2.
Proof.
  intros Hi. pose proof (lookup_lt_Some _ _ _ Hi) as Hlt.
  rewrite <- (take_drop_middle _ _ _ Hi) at 1.
  rewrite loop_app. cbn [fst snd].
  rewrite lookup_app_r; rewrite loop_length, length_take_le by lia; [|lia].
  rewrite Nat.sub_diag, loop_cons. done.
Qed.

Lemma state_at_lastIndent from slice i :
  -1 ≤ lastIndent (initial from) → -1 ≤ lastIndent (state_at from slice i).
Proof.
  intros H0. induction i as [|i IH]; [done|].
  destruct (slice !! i) as [child|] eqn:Hi.
  - rewrite (state_at_S _ _ _ _ Hi). by apply visit_lastIndent.
  - unfold state_at in *. apply lookup_ge_None in Hi.
    rewrite take_ge in IH |- * by lia. done.
Qed.

Lemma initial_lastIndent from :
  0 ≤ contextIndent (initial from) → -1 ≤ lastIndent (initial from).
Proof. unfold initial. destruct (_ && _); simpl; lia. Qed.

Lemma unprop_first_lookup children j x :
  unprop_first children !! j = Some x →
  ∃ y, children !! j = Some y ∧ type_name x = type_name y ∧ node_indent x = node_indent y.
Proof.
  unfold unprop_first. destruct children as [|c cs]; [done|].
  destruct (_ && _); [|by eauto].
  destruct j; simpl; intros ?; simplify_eq; eauto.
Qed.

Lemma transformPasted_lookup from slice i child :
  slice !! i = Some child →
  ∃ out, transformPasted from slice !! i = Some out ∧
    type_name out = type_name child ∧
    node_indent out = node_indent (visit from (state_at from slice i) i child).2.
Proof.
  intros Hi. unfold transformPasted.
  pose proof (loop_lookup from slice i child Hi) as Hl.
  destruct (unprop_first (loop from (initial from) 0 slice).2 !! i) as [x|] eqn:Ex.
  - destruct (unprop_first_lookup _ _ _ Ex) as (y & Hy & Ht & Hn).
    rewrite Hl in Hy. simplify_eq. exists x.
    split; [done|]. split; [|done]. by rewrite Ht, visit_type_name.
  - apply lookup_ge_None in Ex. apply lookup_lt_Some in Hl.
    assert (length (unprop_first (loop from (initial from) 0 slice).2)
            = length (loop from (initial from) 0 slice).2) as Hlen.
    { unfold unprop_first. destruct (loop _ _ _ _).2; [done|]. by destruct (_ && _). }
    lia.
Qed.

Lemma isFlatListNode_type_name (a b : Node) :
  type_name a = type_name b → isFlatListNode a = isFlatListNode b.
Proof. unfold isFlatListNode, getListType. by intros ->. Qed.

(** What the loop writes on a list item that it does not skip. *)
Lemma transformPasted_member from slice i child :
  0 ≤ contextIndent (initial from) →
  slice !! i = Some child → isFlatListNode child = true → skipped from i = false →
  let st := state_at from slice i in
  let st' := state_at from slice (S i) in
  ∃ out, transformPasted from slice !! i = Some out ∧
    node_indent out = Z.max 0 (Z.min (lastIndent st + 1) (node_indent child + shift_of st child)) ∧
    0 ≤ node_indent out ≤ lastIndent st + 1 ∧
    delta st' = Some (shift_of st child + (node_indent out - (node_indent child + shift_of st child))) ∧
    lastIndent st' = node_indent out.
Proof.
  intros Hctx Hi Hl Hs. simpl.
  destruct (transformPasted_lookup from slice i child Hi) as (out & Hout & _ & Hind).
  exists out. split; [done|].
  rewrite (state_at_S _ _ _ _ Hi). rewrite visit_list in Hind |- * by done.
  rewrite Hs in Hind |- *. simpl in *. rewrite node_indent_set_indent in Hind.
  pose proof (state_at_lastIndent from slice i (initial_lastIndent from Hctx)) as Hlast.
  destruct (clamp_spec (lastIndent (state_at from slice i))
              (shift_of (state_at from slice i) child)
              (node_indent child + shift_of (state_at from slice i) child) Hlast)
    as (H1 & H2 & H3).
  rewrite Hind. repeat split; try lia. by rewrite H3.
Qed.

Lemma transformPasted_staircase from slice j a b :
  0 ≤ contextIndent (initial from) →
  transformPasted from slice !! j = Some a →
  transformPasted from slice !! S j = Some b →
  isFlatListNode a = true → isFlatListNode b = true →
  if skipped from j
  then node_indent b ≤ lastIndent (initial from) + 1
  else node_indent b ≤ node_indent a + 1.
Proof.
  intros Hctx Ha Hb Hla Hlb.
  destruct (slice !! j) as [ca|] eqn:Eca; last first.
  { apply lookup_ge_None in Eca. apply lookup_lt_Some in Ha.
    unfold transformPasted in Ha.
    assert (length (unprop_first (loop from (initial from) 0 slice).2) = length slice).
    { rewrite <- (loop_length from slice (initial from) 0).
      unfold unprop_first. destruct (loop _ _ _ _).2; [done|]. by destruct (_ && _). }
    lia. }
  destruct (slice !! S j) as [cb|] eqn:Ecb; last first.
  { apply lookup_ge_None in Ecb. apply lookup_lt_Some in Hb.
    unfold transformPasted in Hb.
    assert (length (unprop_first (loop from (initial from) 0 slice).2) = length slice).
    { rewrite <- (loop_length from slice (initial from) 0).
      unfold unprop_first. destruct (loop _ _ _ _).2; [done|]. by destruct (_ && _). }
    lia. }
  destruct (transformPasted_lookup from slice j ca Eca) as (a' & Ha' & Hta & Hia).
  assert (isFlatListNode ca = true) as Hlca.
  { rewrite <- Hla. simplify_eq. symmetry. by apply isFlatListNode_type_name. }
  destruct (transformPasted_lookup from slice (S j) cb Ecb) as (b' & Hb' & Htb & _).
  assert (isFlatListNode cb = true) as Hlcb.
  { rewrite <- Hlb. simplify_eq. symmetry. by apply isFlatListNode_type_name. }
  destruct (transformPasted_member from slice (S j) cb Hctx Ecb Hlcb)
    as (b'' & Hb'' & _ & Hbound & _); [done|].
  simplify_eq. rewrite (state_at_S _ _ _ _ Eca) in Hbound.
  rewrite visit_list in Hbound, Hia by done.
  destruct (skipped from j) eqn:Hs; simpl in *.
  - unfold skipped in Hs. apply andb_true_iff in Hs as [Hj _].
    apply bool_decide_eq_true in Hj. subst j. unfold state_at in Hbound.
    simpl in Hbound. lia.
  - rewrite node_indent_set_indent in Hia. lia.
Qed.

(** The paste at a position gets the first child skipped. *)
Lemma skipped_0 from : skipped from 0 = negb (at_node_start from).
Proof. done. Qed.

End PasteFacts.

(** * The paste plugin on shared attribute objects *)
Section PasteHeapFacts.

Implicit Types (from : ResolvedPos) (st : LoopState) (h : Heap) (child c : SliceNode)
  (slice : list SliceNode).

Lemma attrs_of_insert h r a c :
  attrs_of (<[r := a]> h) c = if decide (s_attrs c = r) then a else attrs_of h c.
Proof.
  unfold attrs_of. case_decide as H.
  - subst r. by rewrite lookup_insert_eq.
  - by rewrite lookup_insert_ne.
Qed.

Lemma with_indent_indent (a : Attrs) : with_indent a (indent a) = a.
Proof. by destruct a. Qed.

Lemma with_indent_twice (a : Attrs) v w : with_indent (with_indent a v) w = with_indent a w.
Proof. done. Qed.

(** One turn of the loop: against the turn by value, and what it leaves of
    the objects. *)
Lemma visit_owned from st h i child :
  (visit from st h i child).1 = (Owned.visit from st i (node_of h child)).1 ∧
  node_of (visit from st h i child).2 child = (Owned.visit from st i (node_of h child)).2 ∧
  (∀ c, (isFlatListNode (node_of h child) = true → s_attrs c ≠ s_attrs child) →
        attrs_of (visit from st h i child).2 c = attrs_of h c) ∧
  (∀ c, attrs_of (visit from st h i child).2 c
        = with_indent (attrs_of h c) (indent (attrs_of (visit from st h i child).2 c))).
Proof.
  unfold visit, Owned.visit.
  change (node_indent (node_of h child)) with (indent (attrs_of h child)).
  destruct (isFlatListNode (node_of h child)) eqn:El.
  - destruct (bool_decide (i = 0%nat) && negb (at_node_start from)).
    + cbn [fst snd]. split; [done|]. split; [done|]. split; [done|].
      intros c. by rewrite with_indent_indent.
    + destruct (clamp _ _ _) as [d n]. cbn [fst snd].
      split; [done|]. split; [|split].
      * unfold node_of, set_node_attrs. cbn [type_name attrs content].
        by rewrite attrs_of_insert, decide_True.
      * intros c Hc. by rewrite attrs_of_insert, decide_False by by apply Hc.
      * intros c. rewrite attrs_of_insert. case_decide as E.
        -- assert (attrs_of h c = attrs_of h child) as ->
             by (unfold attrs_of; by rewrite E).
           done.
        -- by rewrite with_indent_indent.
  - cbn [fst snd]. split; [done|]. split; [done|]. split; [done|].
    intros c. by rewrite with_indent_indent.
Qed.

Lemma visit_list_heap from st h i child :
  isFlatListNode (node_of h child) = true →
  visit from st h i child =
    if skipped from i
    then (mkLoop (contextIndent st) (lastIndent st)
            (Some (shift_of st (node_of h child))), h)
    else
      let c := clamp (lastIndent st) (shift_of st (node_of h child))
                 (indent (attrs_of h child) + shift_of st (node_of h child)) in
      (mkLoop (contextIndent st) c.2 (Some c.1),
       <[s_attrs child := with_indent (attrs_of h child) c.2]> h).
Proof.
  intros Hl. unfold visit, skipped, shift_of. rewrite Hl.
  change (node_indent (node_of h child)) with (indent (attrs_of h child)).
  destruct (delta st); simpl; destruct (_ && _); try done; by destruct (clamp _ _ _).
Qed.

Lemma loop_cons_heap from st h i child rest :
  loop from st h i (child :: rest) =
    loop from (visit from st h i child).1 (visit from st h i child).2 (S i) rest.
Proof. cbn [loop]. by destruct (visit from st h i child). Qed.

(** The loop changes nothing but the indent of an object. *)
Lemma loop_keeps from slice : ∀ st h i c,
  attrs_of (loop from st h i slice).2 c
  = with_indent (attrs_of h c) (indent (attrs_of (loop from st h i slice).2 c)).
Proof.
  induction slice as [|child rest IH]; intros st h i c.
  - cbn [loop snd]. by rewrite with_indent_indent.
  - rewrite loop_cons_heap.
    destruct (visit_owned from st h i child) as (_ & _ & _ & Hv).
    rewrite IH at 1. rewrite (Hv c). done.
Qed.

(** The loop leaves an object alone that no list item of the slice holds. *)
Lemma loop_frame from slice : ∀ st h i c,
  (∀ b, b ∈ slice → isFlatListNode (node_of h b) = true → s_attrs c ≠ s_attrs b) →
  attrs_of (loop from st h i slice).2 c = attrs_of h c.
Proof.
  induction slice as [|child rest IH]; intros st h i c Hc; [done|].
  rewrite loop_cons_heap.
  destruct (visit_owned from st h i child) as (_ & _ & Hv & _).
  rewrite IH.
  - apply Hv. intros Hl. apply Hc; [by left|done].
  - intros b Hb Hl. apply Hc; [by right|done].
Qed.

Lemma unshared_cons h h' child rest :
  unshared h (child :: rest) →
  unshared h' rest ∧
  (isFlatListNode (node_of h child) = true → ∀ b, b ∈ rest → s_attrs b ≠ s_attrs child) ∧
  (∀ b, b ∈ rest → isFlatListNode (node_of h b) = true → s_attrs child ≠ s_attrs b).
Proof.
  intros H. split; [|split].
  - intros i j a b Ha Hb Hij Hl. apply (H (S i) (S j) a b); [done|done|lia|done].
  - intros Hl b [j Hj]%list_elem_of_lookup Heq.
    by apply (H 0%nat (S j) child b eq_refl Hj ltac:(lia) Hl).
  - intros b [j Hj]%list_elem_of_lookup Hl Heq.
    by apply (H (S j) 0%nat b child Hj eq_refl ltac:(lia) Hl).
Qed.

Lemma unshared_take h slice n : unshared h slice → unshared h (take n slice).
Proof.
  intros H i j a b Ha Hb. apply lookup_take_Some in Ha as [Ha _].
  apply lookup_take_Some in Hb as [Hb _]. by apply (H i j).
Qed.

(** On a slice without shared objects the loop is the loop by value. *)
Lemma loop_unshared from slice : ∀ st h i,
  unshared h slice →
  (loop from st h i slice).1 = (Owned.loop from st i (node_of h <$> slice)).1 ∧
  node_of (loop from st h i slice).2 <$> slice
  = (Owned.loop from st i (node_of h <$> slice)).2.
Proof.
  induction slice as [|child rest IH]; intros st h i Hun; [done|].
  rewrite loop_cons_heap, fmap_cons, loop_cons. cbn [fst snd].
  destruct (visit_owned from st h i child) as (V1 & V2 & V3 & _).
  destruct (unshared_cons h (visit from st h i child).2 child rest Hun)
    as (Hrest & Hhead & Hothers).
  assert (node_of (visit from st h i child).2 <$> rest = node_of h <$> rest) as Hsame.
  { apply list_fmap_ext. intros j b Hb. unfold node_of. f_equal.
    apply V3. intros Hl. apply (Hhead Hl). by eapply list_elem_of_lookup_2. }
  destruct (IH (visit from st h i child).1 (visit from st h i child).2 (S i) Hrest)
    as [IH1 IH2].
  rewrite Hsame in IH1, IH2. rewrite <- V1. split; [done|].
  rewrite fmap_cons. f_equal; [|done].
  rewrite <- V2. unfold node_of. f_equal. apply loop_frame.
  intros b Hb Hl. by apply Hothers.
Qed.

Lemma transformPasted_unshared from h slice :
  unshared h slice →
  transformPasted from h slice = Owned.transformPasted from (node_of h <$> slice).
Proof.
  intros Hun. unfold transformPasted, Owned.transformPasted.
  by rewrite (proj2 (loop_unshared from slice (initial from) h 0 Hun)).
Qed.

Lemma state_at_unshared from h slice i :
  unshared h slice →
  state_at from h slice i = Owned.state_at from (node_of h <$> slice) i.
Proof.
  intros Hun. unfold state_at, Owned.state_at. rewrite <- fmap_take.
  apply loop_unshared. by apply unshared_take.
Qed.

Lemma own_nodes_lookup (nodes : list Node) i a :
  own_nodes nodes !! i = Some a →
  s_attrs a = i ∧ ∃ node, nodes !! i = Some node ∧ node_of (own_heap nodes) a = node.
Proof.
  unfold own_nodes. rewrite list_lookup_imap.
  destruct (nodes !! i) as [node|] eqn:E; [|done]. intros [= <-].
  split; [done|]. exists node. split; [done|].
  unfold node_of, attrs_of, own_heap. cbn [s_type s_attrs s_content].
  rewrite lookup_map_seq_0, list_lookup_fmap, E. by destruct node.
Qed.

(** The nodes of [own_nodes] share nothing, and read as the nodes given. *)
Lemma unshared_own (nodes : list Node) : unshared (own_heap nodes) (own_nodes nodes).
Proof.
  intros i j a b Ha Hb Hij _.
  apply own_nodes_lookup in Ha as [-> _]. apply own_nodes_lookup in Hb as [-> _]. done.
Qed.

Lemma node_of_own (nodes : list Node) :
  node_of (own_heap nodes) <$> own_nodes nodes = nodes.
Proof.
  apply list_eq. intros i. rewrite list_lookup_fmap.
  destruct (own_nodes nodes !! i) as [a|] eqn:E.
  - apply own_nodes_lookup in E as [_ (node & Hn & Heq)]. simpl. by rewrite Heq.
  - simpl. unfold own_nodes in E. rewrite list_lookup_imap in E.
    by destruct (nodes !! i).
Qed.

End PasteHeapFacts.

(** * Facts on the postprocessor *)
Section PostprocessorFacts.

Implicit Types (st : State) (node : Node) (lc : JsArray.t Z).

Lemma with_counter_id a : with_counter a (counter a) = a.
Proof. by destruct a. Qed.

Lemma with_isTempPropped_id a : _isTempPropped a = false → with_isTempPropped a false = a.
Proof. destruct a. simpl. by intros ->. Qed.

Lemma set_node_attrs_id node : set_node_attrs (attrs node) node = node.
Proof. by destruct node. Qed.

Lemma alter_const_app (before rest : list Node) node node' :
  alter (λ _, node') (length before) (before ++ node :: rest) = before ++ node' :: rest.
Proof. by rewrite alter_app_r_alt, Nat.sub_diag by lia. Qed.

Lemma setNodeMarkup_app (before rest : list Node) node a :
  setNodeMarkup (length before) a (before ++ node :: rest) =
    before ++ set_node_attrs a node :: rest.
Proof.
  unfold setNodeMarkup. by rewrite alter_app_r_alt, Nat.sub_diag by lia.
Qed.

Lemma visit_spec st node (before rest : list Node) :
  tr st = before ++ node :: rest →
  Postprocessor.visit st (length before) node =
    let* r := counter_step (lastCounters st) node in
    JsArray.ret (mkState (before ++ post r.2 node :: rest)
           (updated st || bool_decide (post r.2 node ≠ node))
           r.1
           (toDelete st ++ if is_propped node then [length before] else [])).
Proof.
  intros Htr.
  unfold Postprocessor.visit, counter_step, post, is_propped, visit_counter, node_indent.
  destruct node as [ty [i cnt chk p] c].
  cbn [attrs indent counter _isTempPropped type_name content] in *.
  destruct (isFlatListNode _) eqn:Hl; cbn [andb]; last first.
  { cbn. rewrite bool_decide_eq_false_2 by naive_solver.
    rewrite orb_false_r, app_nil_r, Htr. done. }
  destruct (decide (ty = orderedNodeName)) as [->|Hty].
  - remember (default 0 (JsArray.get (lastCounters st) i) + 1) as cv eqn:Hcv.
    destruct (JsArray.set_length _ _) as [e|lc']; [by repeat case_bool_decide|].
    cbn [JsArray.bind JsArray.ret fst snd].
    case_bool_decide as Hc; destruct p;
      cbn [with_counter with_isTempPropped _isTempPropped indent counter checked
           JsArray.bind JsArray.ret fst snd];
      rewrite ?Htr, ?setNodeMarkup_app; unfold set_node_attrs;
      cbn [attrs indent counter _isTempPropped type_name content checked].
    + rewrite bool_decide_eq_true_2 by (intros ?; simplify_eq). by rewrite orb_true_r.
    + rewrite bool_decide_eq_true_2 by (intros ?; simplify_eq).
      by rewrite orb_true_r, app_nil_r.
    + rewrite bool_decide_eq_true_2 by (intros ?; simplify_eq).
      subst cnt. by rewrite orb_true_r.
    + subst cnt. rewrite bool_decide_eq_false_2 by naive_solver.
      by rewrite orb_false_r, app_nil_r.
  - destruct (JsArray.set_length _ _) as [e|lc']; [done|].
    cbn [JsArray.bind JsArray.ret fst snd].
    destruct p;
      cbn [with_counter with_isTempPropped _isTempPropped indent counter checked
           JsArray.bind JsArray.ret fst snd];
      rewrite ?Htr, ?setNodeMarkup_app; unfold set_node_attrs;
      cbn [attrs indent counter _isTempPropped type_name content checked].
    + rewrite bool_decide_eq_true_2 by (intros ?; simplify_eq). by rewrite orb_true_r.
    + rewrite bool_decide_eq_false_2 by naive_solver.
      by rewrite orb_false_r, app_nil_r.
Qed.

Lemma bool_decide_cons_ne (x y : Node) (l k : list Node) :
  bool_decide (x :: l ≠ y :: k) = bool_decide (x ≠ y) || bool_decide (l ≠ k).
Proof.
  repeat case_bool_decide; simpl; try done; by simplify_eq.
Qed.

Lemma descendants_spec nodes : ∀ st (before : list Node),
  tr st = before ++ nodes →
  descendants st (length before) nodes =
    let* rs := counter_scan (lastCounters st) nodes in
    JsArray.ret (mkState (before ++ zip_with post rs.1 nodes)
           (updated st || bool_decide (zip_with post rs.1 nodes ≠ nodes))
           rs.2
           (toDelete st ++ propped_positions (length before) nodes)).
Proof.
  induction nodes as [|node rest IH]; intros st before Htr.
  - cbn [descendants counter_scan JsArray.bind JsArray.ret fst snd zip_with
         propped_positions].
    rewrite bool_decide_eq_false_2 by naive_solver.
    rewrite orb_false_r, !app_nil_r. rewrite app_nil_r in Htr. rewrite <- Htr.
    by destruct st.
  - cbn [descendants counter_scan]. rewrite (visit_spec _ _ _ _ Htr).
    destruct (counter_step (lastCounters st) node) as [e|[lc1 cv]]; [done|].
    cbn [JsArray.bind JsArray.ret fst snd].
    specialize (IH (mkState (before ++ post cv node :: rest)
                      (updated st || bool_decide (post cv node ≠ node)) lc1
                      (toDelete st ++ (if is_propped node then [length before] else [])))
                   (before ++ [post cv node])).
    rewrite length_app, Nat.add_1_r in IH. rewrite IH; [|by rewrite <- app_assoc].
    cbn [lastCounters Postprocessor.tr updated toDelete].
    destruct (counter_scan lc1 rest) as [e|[cvs lc2]]; [done|].
    cbn [JsArray.bind JsArray.ret fst snd zip_with propped_positions].
    rewrite bool_decide_cons_ne, <- !app_assoc, orb_assoc. done.
Qed.

(** The pass as a function of the document. *)
Lemma appendTransaction_eq (doc : list Node) :
  appendTransaction doc =
    let* rs := counter_scan JsArray.empty doc in
    JsArray.ret
      (if bool_decide (zip_with post rs.1 doc ≠ doc)
          || bool_decide (propped_positions 0 doc ≠ [])
       then Some (foldl delete_first_inline (zip_with post rs.1 doc)
                    (reverse (propped_positions 0 doc)))
       else None).
Proof.
  unfold appendTransaction.
  pose proof (descendants_spec doc (mkState doc false JsArray.empty []) [] eq_refl) as H.
  cbn [length app] in H. rewrite H. clear H.
  cbn [lastCounters Postprocessor.tr updated toDelete].
  destruct (counter_scan JsArray.empty doc) as [e|[cvs lc]]; [done|].
  cbn [JsArray.bind JsArray.ret fst snd Postprocessor.tr updated toDelete app orb length].
  done.
Qed.

Lemma foldl_delete_first_inline_meta (positions : list nat) : ∀ tr : list Node,
  meta <$> foldl delete_first_inline tr positions = meta <$> tr.
Proof.
  induction positions as [|p ps IH]; intros tr; [done|].
  simpl. rewrite IH. unfold delete_first_inline.
  apply list_eq. intros j. rewrite !list_lookup_fmap.
  destruct (decide (p = j)) as [->|].
  - rewrite list_lookup_alter_eq. by destruct (tr !! j).
  - by rewrite list_lookup_alter_ne.
Qed.

Lemma after_meta (doc : list Node) result :
  appendTransaction doc = inr result →
  ∃ rs, counter_scan JsArray.empty doc = inr rs ∧
        meta <$> after doc result = meta <$> zip_with post rs.1 doc.
Proof.
  rewrite appendTransaction_eq.
  destruct (counter_scan JsArray.empty doc) as [e|rs]; [done|].
  cbn [JsArray.bind JsArray.ret]. intros H. exists rs. split; [done|].
  unfold after, JsArray.ret in *.
  destruct (_ || _) eqn:E; simplify_eq; simpl.
  - apply foldl_delete_first_inline_meta.
  - apply orb_false_iff in E as [E _]. apply bool_decide_eq_false in E.
    apply dec_stable in E. by rewrite E.
Qed.

Lemma counter_step_ext lc (n1 n2 : Node) :
  type_name n1 = type_name n2 → node_indent n1 = node_indent n2 →
  counter_step lc n1 = counter_step lc n2.
Proof.
  intros Ht Hi. unfold counter_step.
  rewrite (isFlatListNode_type_name n1 n2 Ht), Ht, Hi. done.
Qed.

Lemma post_type_name cv node : type_name (post cv node) = type_name node.
Proof. unfold post. by destruct (isFlatListNode node). Qed.

Lemma post_node_indent cv node : node_indent (post cv node) = node_indent node.
Proof. unfold post. destruct (isFlatListNode node); [|done]. by destruct cv. Qed.

Lemma post_content cv node : content (post cv node) = content node.
Proof. unfold post. by destruct (isFlatListNode node). Qed.

Lemma post_fixed cv node x :
  meta x = meta (post cv node) → post cv x = x ∧ is_propped x = false.
Proof.
  unfold meta. intros [= Ht Ha]. rewrite post_type_name in Ht.
  unfold post, is_propped in *.
  rewrite (isFlatListNode_type_name x node Ht).
  destruct (isFlatListNode node); [|done].
  destruct x as [tx ax cx]. simpl in *. subst ax. unfold set_node_attrs. simpl.
  split; [|done]. f_equal. destruct cv; by destruct (attrs node).
Qed.

(** A second pass over the result of a pass computes the same counters and
    finds nothing to rewrite and nothing to delete. *)
Lemma second_pass nodes : ∀ lc rs (doc' : list Node) pos,
  counter_scan lc nodes = inr rs →
  meta <$> doc' = meta <$> zip_with post rs.1 nodes →
  counter_scan lc doc' = inr rs ∧
  zip_with post rs.1 doc' = doc' ∧
  propped_positions pos doc' = [] ∧
  Forall (λ n, is_propped n = false) doc'.
Proof.
  induction nodes as [|node rest IH]; intros lc rs doc' pos Hscan Hmeta.
  - cbn in Hscan. unfold JsArray.ret in Hscan. simplify_eq.
    destruct doc'; [|done]. done.
  - cbn [counter_scan] in Hscan.
    destruct (counter_step lc node) as [e|[lc1 cv]] eqn:Hstep; [done|].
    cbn [JsArray.bind fst snd] in Hscan.
    destruct (counter_scan lc1 rest) as [e|[cvs lc2]] eqn:Hrest; [done|].
    cbn [JsArray.bind JsArray.ret fst snd] in Hscan. unfold JsArray.ret in Hscan.
    simplify_eq. cbn [fst snd zip_with] in *.
    destruct doc' as [|x doc']; [done|]. rewrite !fmap_cons in Hmeta.
    injection Hmeta as Ht Ha Hmeta.
    destruct (IH lc1 (cvs, lc2) doc' (S pos) Hrest Hmeta) as (H1 & H2 & H3 & H4).
    assert (meta x = meta (post cv node)) as Hx by (unfold meta; by rewrite Ht, Ha).
    destruct (post_fixed cv node x Hx) as [Hp1 Hp2].
    assert (counter_step lc x = inr (lc1, cv)) as Hstepx.
    { rewrite <- Hstep. apply counter_step_ext.
      - by rewrite Ht, post_type_name.
      - unfold node_indent. rewrite Ha. apply (post_node_indent cv node). }
    cbn [counter_scan propped_positions]. rewrite Hstepx.
    cbn [JsArray.bind fst snd]. cbn [fst snd] in H1, H2. rewrite H1.
    cbn [JsArray.bind JsArray.ret fst snd]. rewrite Hp1, Hp2, H2, H3.
    repeat split; try done. by constructor.
Qed.

(** *** The counters against the scan of the specification *)

Lemma holds_empty : holds JsArray.empty ∅.
Proof. split; [done|]. intros k v H. by rewrite lookup_empty in H. Qed.

Lemma set_length_holds lc records n (P : Z * Z → Prop) `{!∀ kv, Decision (P kv)} :
  holds lc records → 0 ≤ n ≤ JsArray.max_length →
  (∀ k v, JsArray.is_index k = true → (P (k, v) ↔ k < n)) →
  ∃ lc', JsArray.set_length lc n = inr lc' ∧ holds lc' (filter P records).
Proof.
  intros [Hprops Hkeys] Hn HP. unfold JsArray.set_length.
  destruct (Z.leb_spec 0 n); [|lia]. destruct (Z.leb_spec n JsArray.max_length); [|lia].
  simpl. eexists. split; [done|]. split; simpl.
  - rewrite Hprops. apply map_filter_ext. intros k v Hk.
    pose proof (Hkeys k v Hk) as Hidx. simpl. rewrite Hidx. simpl.
    rewrite (HP k v Hidx). destruct (Z.leb_spec n k); simpl; split; (done || lia).
  - intros k v [Hk _]%map_lookup_filter_Some. by apply (Hkeys k v).
Qed.

Lemma counter_step_spec lc records node :
  holds lc records →
  (isFlatListNode node = true → 0 ≤ node_indent node ≤ 4294967294) →
  ∃ lc', counter_step lc node = inr (lc', (spec_visit records node).2) ∧
         holds lc' (spec_visit records node).1.
Proof.
  intros Hh Hb. unfold counter_step, spec_visit, isFlatListNode in *.
  destruct node as [ty a c]. unfold getListType, node_indent in *. simpl in *.
  destruct ty; simpl in *.
  - specialize (Hb eq_refl). destruct Hh as [Hprops Hkeys].
    unfold JsArray.get. rewrite Hprops.
    set (cv := default 0 (records !! indent a) + 1).
    destruct (set_length_holds (JsArray.set lc (indent a) cv) (<[indent a := cv]> records)
                (indent a + 1) (λ kv, kv.1 ≤ indent a)) as (lc' & Hlc' & Hh').
    + split; [simpl; by rewrite Hprops|].
      intros k v [[<- _]|[_ Hk]]%lookup_insert_Some; [|by apply (Hkeys k v)].
      unfold JsArray.is_index, JsArray.max_length.
      apply andb_true_iff. split; [apply Z.leb_le|apply Z.ltb_lt]; lia.
    + unfold JsArray.max_length. lia.
    + intros k v _. simpl. lia.
    + rewrite Hlc'. simpl. by exists lc'.
  - specialize (Hb eq_refl).
    destruct (set_length_holds lc records (indent a) (λ kv, kv.1 < indent a))
      as (lc' & Hlc' & Hh'); [done|unfold JsArray.max_length; lia|done|].
    rewrite Hlc'. simpl. by exists lc'.
  - specialize (Hb eq_refl).
    destruct (set_length_holds lc records (indent a) (λ kv, kv.1 < indent a))
      as (lc' & Hlc' & Hh'); [done|unfold JsArray.max_length; lia|done|].
    rewrite Hlc'. simpl. by exists lc'.
  - exists JsArray.empty. split; [done|]. apply holds_empty.
Qed.

Lemma counter_scan_spec nodes : ∀ lc records,
  holds lc records →
  Forall (λ node, isFlatListNode node = true → 0 ≤ node_indent node ≤ 4294967294) nodes →
  ∃ lc', counter_scan lc nodes = inr (spec_counters records nodes, lc').
Proof.
  induction nodes as [|node rest IH]; intros lc records Hh Hb.
  - by exists lc.
  - apply Forall_cons in Hb as [Hb1 Hb2].
    destruct (counter_step_spec lc records node Hh Hb1) as (lc1 & Hstep & Hh1).
    cbn [counter_scan spec_counters]. rewrite Hstep.
    destruct (spec_visit records node) as [records1 cv]. simpl in *.
    destruct (IH lc1 records1 Hh1 Hb2) as (lc2 & Hrest). rewrite Hrest.
    by exists lc2.
Qed.

Lemma spec_counters_length nodes : ∀ records,
  length (spec_counters records nodes) = length nodes.
Proof.
  induction nodes as [|node rest IH]; intros records; [done|].
  simpl. destruct (spec_visit records node). simpl. by rewrite IH.
Qed.

Lemma spec_counters_ordered nodes : ∀ records pos node,
  nodes !! pos = Some node → type_name node = orderedNodeName →
  ∃ c, spec_counters records nodes !! pos = Some (Some c).
Proof.
  induction nodes as [|n rest IH]; intros records pos node Hpos Ht; [done|].
  simpl. destruct (spec_visit records n) as [records1 cv] eqn:E.
  destruct pos as [|pos]; simpl in *.
  - simplify_eq. unfold spec_visit, getListType in E. rewrite Ht in E.
    simplify_eq. eauto.
  - by eapply IH.
Qed.

End PostprocessorFacts.

(** * Facts on the live DOM *)
Section DomFacts.
Import Dom.

Implicit Types (dom : Dom) (x p c id : nat).

Lemma isElement_static dom dom' x :
  static dom' x = static dom x → isElement dom' x = isElement dom x.
Proof.
  unfold static, isElement. destruct (dom' !! x), (dom !! x); simpl; try done.
  by intros [= -> _ _].
Qed.

Lemma tagNameOf_static dom dom' x :
  static dom' x = static dom x → tagNameOf dom' x = tagNameOf dom x.
Proof.
  unfold static, tagNameOf. destruct (dom' !! x), (dom !! x); simpl; try done.
  by intros [= _ -> _].
Qed.

Lemma getAttribute_static dom dom' x :
  static dom' x = static dom x →
  getAttribute dom' x "data-task-list" = getAttribute dom x "data-task-list".
Proof.
  unfold static, getAttribute. destruct (dom' !! x), (dom !! x); simpl; try done.
  by intros [= _ _ ->].
Qed.

Lemma getElementListType_static dom dom' x :
  static dom' x = static dom x →
  getElementListType dom' x = getElementListType dom x.
Proof.
  intros H. unfold getElementListType.
  by rewrite (tagNameOf_static _ _ _ H), (getAttribute_static _ _ _ H).
Qed.

Lemma filter_id {A} (P : A → Prop) `{!∀ a, Decision (P a)} (l : list A) :
  (∀ a, a ∈ l → P a) → filter P l = l.
Proof.
  induction l as [|a l IH]; intros Hall; [done|].
  rewrite filter_cons_True by (apply Hall; left). f_equal. apply IH.
  intros b Hb. apply Hall. by right.
Qed.

Lemma lookup_attr_filter_ne name other (attributes : list (string * string)) :
  name ≠ other →
  lookup_attr name (filter (λ kv, kv.1 ≠ other) attributes) = lookup_attr name attributes.
Proof.
  intros Hne. induction attributes as [|[k v] rest IH]; [done|].
  rewrite filter_cons. simpl. case_decide as Hk; simpl.
  - by rewrite IH.
  - subst k. rewrite bool_decide_eq_false_2 by done. done.
Qed.

Lemma lookup_attr_filter_eq name (attributes : list (string * string)) :
  lookup_attr name (filter (λ kv, kv.1 ≠ name) attributes) = None.
Proof.
  induction attributes as [|[k v] rest IH]; [done|].
  rewrite filter_cons. simpl. case_decide as Hk; simpl; [|done].
  by rewrite bool_decide_eq_false_2.
Qed.

Lemma lookup_attr_filter_None name other (attributes : list (string * string)) :
  lookup_attr name attributes = None →
  lookup_attr name (filter (λ kv, kv.1 ≠ other) attributes) = None.
Proof.
  destruct (decide (name = other)) as [->|Hne].
  - intros _. apply lookup_attr_filter_eq.
  - by rewrite lookup_attr_filter_ne.
Qed.

(** *** removeAttribute *)

Lemma childNodesOf_removeAttribute name id dom x :
  childNodesOf (removeAttribute name id dom) x = childNodesOf dom x.
Proof.
  unfold childNodesOf, removeAttribute. destruct (decide (id = x)) as [->|].
  - rewrite lookup_alter_eq. destruct (dom !! x); [|done]. simpl. by case_bool_decide.
  - by rewrite lookup_alter_ne.
Qed.

Lemma static_removeAttribute name id dom x :
  name ≠ "data-task-list" →
  static (removeAttribute name id dom) x = static dom x.
Proof.
  intros Hne. unfold static, removeAttribute. destruct (decide (id = x)) as [->|].
  - rewrite lookup_alter_eq. destruct (dom !! x); [|done]. simpl.
    case_bool_decide; simpl; [done|].
    by rewrite lookup_attr_filter_ne.
  - by rewrite lookup_alter_ne.
Qed.

Lemma getAttribute_removeAttribute_eq name id dom :
  name ≠ "style" → getAttribute (removeAttribute name id dom) id name = None.
Proof.
  intros Hne. unfold getAttribute, removeAttribute. rewrite lookup_alter_eq.
  destruct (dom !! id); [|done]. simpl.
  rewrite bool_decide_eq_false_2 by done. simpl. apply lookup_attr_filter_eq.
Qed.

Lemma getAttribute_removeAttribute_ne name other id dom x :
  name ≠ other →
  getAttribute (removeAttribute other id dom) x name = getAttribute dom x name.
Proof.
  intros Hne. unfold getAttribute, removeAttribute. destruct (decide (id = x)) as [->|].
  - rewrite lookup_alter_eq. destruct (dom !! x); [|done]. simpl.
    case_bool_decide; simpl; [done|]. by rewrite lookup_attr_filter_ne.
  - by rewrite lookup_alter_ne.
Qed.

Lemma getAttribute_removeAttribute_None name other id dom x :
  getAttribute dom x name = None →
  getAttribute (removeAttribute other id dom) x name = None.
Proof.
  unfold getAttribute, removeAttribute. destruct (decide (id = x)) as [->|].
  - rewrite lookup_alter_eq. destruct (dom !! x); [|done]. simpl.
    case_bool_decide; simpl; [done|]. apply lookup_attr_filter_None.
  - by rewrite lookup_alter_ne.
Qed.

Lemma styleOf_removeAttribute_style id dom :
  styleOf (removeAttribute "style" id dom) id = None.
Proof.
  unfold styleOf, removeAttribute. rewrite lookup_alter_eq.
  by destruct (dom !! id).
Qed.

Lemma styleOf_removeAttribute_None name id dom x :
  styleOf dom x = None → styleOf (removeAttribute name id dom) x = None.
Proof.
  unfold styleOf, removeAttribute. destruct (decide (id = x)) as [->|].
  - rewrite lookup_alter_eq. destruct (dom !! x); [|done]. simpl. by case_bool_decide.
  - by rewrite lookup_alter_ne.
Qed.

(** *** style.removeProperty *)

Lemma childNodesOf_style_removeProperty property id dom x :
  childNodesOf (style_removeProperty property id dom) x = childNodesOf dom x.
Proof.
  unfold childNodesOf, style_removeProperty. destruct (decide (id = x)) as [->|].
  - rewrite lookup_alter_eq. by destruct (dom !! x).
  - by rewrite lookup_alter_ne.
Qed.

Lemma static_style_removeProperty property id dom x :
  static (style_removeProperty property id dom) x = static dom x.
Proof.
  unfold static, style_removeProperty. destruct (decide (id = x)) as [->|].
  - rewrite lookup_alter_eq. by destruct (dom !! x).
  - by rewrite lookup_alter_ne.
Qed.

Lemma getAttribute_style_removeProperty property id dom x name :
  getAttribute (style_removeProperty property id dom) x name = getAttribute dom x name.
Proof.
  unfold getAttribute, style_removeProperty. destruct (decide (id = x)) as [->|].
  - rewrite lookup_alter_eq. by destruct (dom !! x).
  - by rewrite lookup_alter_ne.
Qed.

Lemma styleOf_style_removeProperty_None property id dom x :
  styleOf dom x = None → styleOf (style_removeProperty property id dom) x = None.
Proof.
  unfold styleOf, style_removeProperty. destruct (decide (id = x)) as [->|].
  - rewrite lookup_alter_eq. destruct (dom !! x); [|done]. simpl. by intros ->.
  - by rewrite lookup_alter_ne.
Qed.

(** *** detach, append, remove, replaceChildren *)

Lemma childNodesOf_detach c dom x :
  childNodesOf (detach c dom) x = filter (λ y, y ≠ c) (childNodesOf dom x).
Proof.
  unfold childNodesOf, detach. rewrite lookup_fmap. by destruct (dom !! x).
Qed.

Lemma static_detach c dom x : static (detach c dom) x = static dom x.
Proof. unfold static, detach. rewrite lookup_fmap. by destruct (dom !! x). Qed.

Lemma getAttribute_detach c dom x name :
  getAttribute (detach c dom) x name = getAttribute dom x name.
Proof. unfold getAttribute, detach. rewrite lookup_fmap. by destruct (dom !! x). Qed.

Lemma styleOf_detach c dom x : styleOf (detach c dom) x = styleOf dom x.
Proof. unfold styleOf, detach. rewrite lookup_fmap. by destruct (dom !! x). Qed.

Lemma childNodesOf_append parent c dom x :
  is_Some (dom !! parent) →
  childNodesOf (append parent c dom) x =
    if decide (x = parent)
    then filter (λ y, y ≠ c) (childNodesOf dom x) ++ [c]
    else filter (λ y, y ≠ c) (childNodesOf dom x).
Proof.
  intros [n Hn]. unfold append. case_decide as Hx.
  - subst x. unfold childNodesOf at 1. rewrite lookup_alter_eq.
    rewrite <- childNodesOf_detach. unfold childNodesOf, detach.
    rewrite lookup_fmap, Hn. done.
  - unfold childNodesOf at 1. rewrite lookup_alter_ne by done.
    apply childNodesOf_detach.
Qed.

Lemma static_append parent c dom x : static (append parent c dom) x = static dom x.
Proof.
  unfold append. rewrite <- (static_detach c dom x). unfold static.
  destruct (decide (parent = x)) as [->|].
  - rewrite lookup_alter_eq. by destruct (detach c dom !! x).
  - by rewrite lookup_alter_ne.
Qed.

Lemma getAttribute_append parent c dom x name :
  getAttribute (append parent c dom) x name = getAttribute dom x name.
Proof.
  unfold append. rewrite <- (getAttribute_detach c dom x). unfold getAttribute.
  destruct (decide (parent = x)) as [->|].
  - rewrite lookup_alter_eq. by destruct (detach c dom !! x).
  - by rewrite lookup_alter_ne.
Qed.

Lemma styleOf_append parent c dom x : styleOf (append parent c dom) x = styleOf dom x.
Proof.
  unfold append. rewrite <- (styleOf_detach c dom x). unfold styleOf.
  destruct (decide (parent = x)) as [->|].
  - rewrite lookup_alter_eq. by destruct (detach c dom !! x).
  - by rewrite lookup_alter_ne.
Qed.

Lemma childNodesOf_foldr_detach cs dom x :
  childNodesOf (foldr detach dom cs) x = filter (λ y, y ∉ cs) (childNodesOf dom x).
Proof.
  induction cs as [|c cs IH]; simpl.
  - symmetry. apply filter_id. intros y _. apply not_elem_of_nil.
  - rewrite childNodesOf_detach, IH, list_filter_filter.
    apply list_filter_iff. intros y. rewrite not_elem_of_cons. naive_solver.
Qed.

Lemma static_foldr_detach cs dom x : static (foldr detach dom cs) x = static dom x.
Proof. induction cs as [|c cs IH]; simpl; [done|]. by rewrite static_detach. Qed.

Lemma getAttribute_foldr_detach cs dom x name :
  getAttribute (foldr detach dom cs) x name = getAttribute dom x name.
Proof. induction cs as [|c cs IH]; simpl; [done|]. by rewrite getAttribute_detach. Qed.

Lemma styleOf_foldr_detach cs dom x : styleOf (foldr detach dom cs) x = styleOf dom x.
Proof. induction cs as [|c cs IH]; simpl; [done|]. by rewrite styleOf_detach. Qed.

Lemma lookup_foldr_detach_is_Some cs dom x :
  is_Some (foldr detach dom cs !! x) ↔ is_Some (dom !! x).
Proof.
  induction cs as [|c cs IH]; simpl; [done|].
  unfold detach at 1. rewrite lookup_fmap, fmap_is_Some. done.
Qed.

Lemma childNodesOf_replaceChildren parent cs dom x :
  is_Some (dom !! parent) →
  childNodesOf (replaceChildren parent cs dom) x =
    if decide (x = parent) then cs
    else filter (λ y, y ∉ cs) (childNodesOf dom x).
Proof.
  intros Hp. unfold replaceChildren. case_decide as Hx.
  - subst x. unfold childNodesOf. rewrite lookup_alter_eq.
    apply (lookup_foldr_detach_is_Some cs) in Hp as [n ->]. done.
  - unfold childNodesOf at 1. rewrite lookup_alter_ne by done.
    apply childNodesOf_foldr_detach.
Qed.

Lemma static_replaceChildren parent cs dom x :
  static (replaceChildren parent cs dom) x = static dom x.
Proof.
  unfold replaceChildren. rewrite <- (static_foldr_detach cs dom x). unfold static.
  destruct (decide (parent = x)) as [->|].
  - rewrite lookup_alter_eq. by destruct (foldr detach dom cs !! x).
  - by rewrite lookup_alter_ne.
Qed.

Lemma getAttribute_replaceChildren parent cs dom x name :
  getAttribute (replaceChildren parent cs dom) x name = getAttribute dom x name.
Proof.
  unfold replaceChildren. rewrite <- (getAttribute_foldr_detach cs dom x). unfold getAttribute.
  destruct (decide (parent = x)) as [->|].
  - rewrite lookup_alter_eq. by destruct (foldr detach dom cs !! x).
  - by rewrite lookup_alter_ne.
Qed.

Lemma styleOf_replaceChildren parent cs dom x :
  styleOf (replaceChildren parent cs dom) x = styleOf dom x.
Proof.
  unfold replaceChildren. rewrite <- (styleOf_foldr_detach cs dom x). unfold styleOf.
  destruct (decide (parent = x)) as [->|].
  - rewrite lookup_alter_eq. by destruct (foldr detach dom cs !! x).
  - by rewrite lookup_alter_ne.
Qed.

End DomFacts.

(** * joinListElements on a tree *)
Section TreeFacts.
Import Dom.

Implicit Types (dom : Dom) (x p c id doc : nat).

Lemma tree_same dom dom' doc :
  (∀ x, childNodesOf dom' x = childNodesOf dom x) → tree dom doc → tree dom' doc.
Proof.
  intros Hsame (H1 & H2 & H3). split; [|split].
  - intros p. rewrite Hsame. apply H1.
  - intros p1 p2 c. rewrite !Hsame. apply H2.
  - intros p. rewrite Hsame. apply H3.
Qed.

Lemma tree_detach dom doc c : tree dom doc → tree (detach c dom) doc.
Proof.
  intros (H1 & H2 & H3). split; [|split].
  - intros p. rewrite childNodesOf_detach. apply NoDup_filter, H1.
  - intros p1 p2 y. rewrite !childNodesOf_detach, !list_elem_of_filter.
    intros [_ ?] [_ ?]. by apply (H2 p1 p2 y).
  - intros p. rewrite childNodesOf_detach, list_elem_of_filter. intros [_ ?].
    by apply (H3 p).
Qed.

Lemma elem_of_childNodesOf_append dom parent c x y :
  is_Some (dom !! parent) →
  y ∈ childNodesOf (append parent c dom) x ↔
    (y ≠ c ∧ y ∈ childNodesOf dom x) ∨ (y = c ∧ x = parent).
Proof.
  intros Hp. rewrite childNodesOf_append by done.
  case_decide as Hx; rewrite ?elem_of_app, list_elem_of_filter, ?list_elem_of_singleton.
  - subst x. split; intros [?|?]; auto. destruct H; auto.
  - split; [auto|]. intros [?|[_ ?]]; [done|]. by subst.
Qed.

Lemma tree_append dom doc parent c :
  tree dom doc → is_Some (dom !! parent) → c ≠ doc → tree (append parent c dom) doc.
Proof.
  intros (H1 & H2 & H3) Hp Hc. split; [|split].
  - intros p. rewrite childNodesOf_append by done. case_decide.
    + apply NoDup_app. split; [apply NoDup_filter, H1|]. split; [|apply NoDup_singleton].
      intros y [Hy _]%list_elem_of_filter ->%list_elem_of_singleton. done.
    + apply NoDup_filter, H1.
  - intros p1 p2 y. rewrite !elem_of_childNodesOf_append by done.
    intros [[Hy1 Hin1]|[Hy1 Hx1]] [[Hy2 Hin2]|[Hy2 Hx2]]; try done.
    + by apply (H2 p1 p2 y).
    + by subst.
  - intros p. rewrite elem_of_childNodesOf_append by done.
    intros [[_ Hin]|[Hy _]]; [by apply (H3 p)|done].
Qed.

Lemma tree_replaceChildren dom doc parent cs :
  tree dom doc → is_Some (dom !! parent) → NoDup cs → doc ∉ cs →
  tree (replaceChildren parent cs dom) doc.
Proof.
  intros (H1 & H2 & H3) Hp Hnd Hdoc. split; [|split].
  - intros p. rewrite childNodesOf_replaceChildren by done. case_decide; [done|].
    apply NoDup_filter, H1.
  - intros p1 p2 y. rewrite !childNodesOf_replaceChildren by done.
    destruct (decide (p1 = parent)) as [->|Hp1];
      destruct (decide (p2 = parent)) as [->|Hp2]; rewrite ?list_elem_of_filter.
    + done.
    + by intros Hy [Hn _].
    + by intros [Hn _] Hy.
    + intros [_ Hy1] [_ Hy2]. by apply (H2 p1 p2 y).
  - intros p. rewrite childNodesOf_replaceChildren by done.
    case_decide; [done|]. rewrite list_elem_of_filter. intros [_ Hd]. by apply (H3 p).
Qed.

Lemma static_is_Some dom dom' x :
  static dom' x = static dom x → is_Some (dom !! x) → is_Some (dom' !! x).
Proof.
  unfold static. intros H [n Hn]. rewrite Hn in H. simpl in H.
  destruct (dom' !! x); [done|]. done.
Qed.

Lemma isElement_is_Some dom x : isElement dom x = true → is_Some (dom !! x).
Proof. unfold isElement. destruct (dom !! x); [done|]. done. Qed.

Lemma children_subseteq dom x y : y ∈ children dom x → y ∈ childNodesOf dom x.
Proof. unfold children. by intros [_ ?]%list_elem_of_filter. Qed.

Lemma children_isElement dom x y : y ∈ children dom x → isElement dom y = true.
Proof. unfold children. by intros [? _]%list_elem_of_filter. Qed.

Lemma children_same dom dom' x :
  (∀ y, static dom' y = static dom y) →
  childNodesOf dom' x = childNodesOf dom x →
  children dom' x = children dom x.
Proof.
  intros Hs Hc. unfold children. rewrite Hc. apply list_filter_iff.
  intros y. by rewrite (isElement_static _ _ _ (Hs y)).
Qed.

Lemma children_filter dom dom' x (Q : nat → Prop) `{!∀ y, Decision (Q y)} :
  (∀ y, static dom' y = static dom y) →
  childNodesOf dom' x = filter Q (childNodesOf dom x) →
  children dom' x = filter Q (children dom x).
Proof.
  intros Hs Hc. unfold children. rewrite Hc, !list_filter_filter.
  apply list_filter_iff. intros y. rewrite (isElement_static _ _ _ (Hs y)). tauto.
Qed.

Lemma firstChild_same dom dom' x :
  childNodesOf dom' x = childNodesOf dom x → firstChild dom' x = firstChild dom x.
Proof. unfold firstChild. by intros ->. Qed.

Lemma lastChild_elem dom x y : lastChild dom x = Some y → y ∈ childNodesOf dom x.
Proof.
  unfold lastChild. intros H. apply last_Some in H as [l ->].
  apply elem_of_app. right. by left.
Qed.

Lemma firstChild_elem dom x y : firstChild dom x = Some y → y ∈ childNodesOf dom x.
Proof.
  unfold firstChild. destruct (childNodesOf dom x); [done|]. simpl.
  intros ?; simplify_eq. by left.
Qed.

Lemma lastElementChild_elem dom x y :
  lastElementChild dom x = Some y → y ∈ childNodesOf dom x ∧ isElement dom y = true.
Proof.
  unfold lastElementChild. intros H. apply last_Some in H as [l Hl].
  assert (y ∈ children dom x) as Hy by (rewrite Hl; apply elem_of_app; right; by left).
  split; [by apply children_subseteq|by eapply children_isElement].
Qed.

(** The content element of a list item is the item or one of its children
    that are elements. *)
Lemma getContentElement_cases dom listType li :
  getContentElement dom listType li = li ∨
  (getContentElement dom listType li ∈ childNodesOf dom li ∧
   isElement dom (getContentElement dom listType li) = true).
Proof.
  unfold getContentElement.
  destruct listType as [[| |]|]; try by left.
  destruct (firstElementChild dom li); [|by left].
  destruct (lastElementChild dom li) as [l|] eqn:El; [|by left].
  case_bool_decide; [|by left]. right. by apply lastElementChild_elem.
Qed.

End TreeFacts.

Section JoinFacts.
Import Dom.

Implicit Types (dom : Dom) (x p c id block liChild doc : nat) (st : JoinState)
  (usedFor : UsedFor).

Lemma attrs_le_refl usedFor dom : attrs_le usedFor dom dom.
Proof. by repeat split. Qed.

Lemma attrs_le_trans usedFor dom1 dom2 dom3 :
  attrs_le usedFor dom1 dom2 → attrs_le usedFor dom2 dom3 → attrs_le usedFor dom1 dom3.
Proof.
  intros (A1 & A2 & A3) (B1 & B2 & B3). split; [|split].
  - intros x name H. by apply B1, A1.
  - intros x H. by apply B2, A2.
  - intros Hc x. by rewrite (B3 Hc), (A3 Hc).
Qed.

Lemma attrs_le_same usedFor dom1 dom2 :
  (∀ x name, getAttribute dom2 x name = getAttribute dom1 x name) →
  (∀ x, styleOf dom2 x = styleOf dom1 x) →
  attrs_le usedFor dom1 dom2.
Proof.
  intros Ha Hs. split; [|split].
  - intros x name. by rewrite Ha.
  - intros x. by rewrite Hs.
  - intros _ x. apply Ha.
Qed.

Lemma attrs_le_removeAttribute usedFor name id dom :
  (usedFor = clipboard → name ≠ dli) →
  attrs_le usedFor dom (removeAttribute name id dom).
Proof.
  intros Hn. split; [|split].
  - intros x n. apply getAttribute_removeAttribute_None.
  - intros x. apply styleOf_removeAttribute_None.
  - intros Hc x. apply getAttribute_removeAttribute_ne. intros ?. by apply Hn.
Qed.

Lemma attrs_le_style_removeProperty usedFor property id dom :
  attrs_le usedFor dom (style_removeProperty property id dom).
Proof.
  split; [|split].
  - intros x n. by rewrite getAttribute_style_removeProperty.
  - intros x. apply styleOf_style_removeProperty_None.
  - intros _ x. apply getAttribute_style_removeProperty.
Qed.

Lemma cleaned_le usedFor dom1 dom2 liChild :
  attrs_le usedFor dom1 dom2 → cleaned usedFor dom1 liChild → cleaned usedFor dom2 liChild.
Proof.
  intros (A1 & A2 & _). unfold cleaned. destruct usedFor; [apply A1|apply A2].
Qed.

(** *** clean_list *)

Lemma clean_list_spec usedFor block dom :
  (∀ x, childNodesOf (clean_list usedFor block dom) x = childNodesOf dom x) ∧
  (∀ x, static (clean_list usedFor block dom) x = static dom x) ∧
  attrs_le usedFor dom (clean_list usedFor block dom).
Proof.
  unfold clean_list. split; [|split].
  - intros x. case_decide;
      by rewrite ?childNodesOf_removeAttribute, childNodesOf_style_removeProperty,
           childNodesOf_removeAttribute.
  - intros x. case_decide;
      by rewrite ?static_removeAttribute, static_style_removeProperty,
           static_removeAttribute by done.
  - eapply attrs_le_trans; [apply (attrs_le_removeAttribute _ "start"); by intros _|].
    eapply attrs_le_trans; [apply attrs_le_style_removeProperty|].
    case_decide; [|apply attrs_le_refl].
    apply attrs_le_removeAttribute. by intros _.
Qed.

(** *** clean_li *)

Lemma clean_li_spec usedFor doc listType block liChild dom :
  tree dom doc →
  block ∈ childNodesOf dom doc →
  liChild ∈ childNodesOf dom block →
  isElement dom liChild = true →
  tree (clean_li usedFor listType liChild dom) doc ∧
  (∀ x, static (clean_li usedFor listType liChild dom) x = static dom x) ∧
  (∀ u, u = doc ∨ u ∈ childNodesOf dom doc →
        childNodesOf (clean_li usedFor listType liChild dom) u = childNodesOf dom u) ∧
  attrs_le usedFor dom (clean_li usedFor listType liChild dom) ∧
  cleaned usedFor (clean_li usedFor listType liChild dom) liChild.
Proof.
  intros Htree Hblock Hli Hel. pose proof Htree as (T1 & T2 & T3).
  assert (block ≠ doc) as Hbd by (intros ->; by apply (T3 doc)).
  assert (liChild ≠ doc) as Hld by (intros ->; by apply (T3 block)).
  unfold clean_li, cleaned.
  destruct usedFor.
  - (* getHTML *)
    rewrite (decide_True (P := getHTML = getHTML)) by done.
    rewrite (decide_False (P := getHTML = clipboard)) by done.
    split; [|split; [|split; [|split]]].
    + eapply tree_same; [|done]. intros x. apply childNodesOf_removeAttribute.
    + intros x. by apply static_removeAttribute.
    + intros u _. apply childNodesOf_removeAttribute.
    + apply attrs_le_removeAttribute. by intros ?.
    + by apply getAttribute_removeAttribute_eq.
  - (* clipboard *)
    rewrite (decide_False (P := clipboard = getHTML)) by done.
    rewrite (decide_True (P := clipboard = clipboard)) by done.
    set (ce := getContentElement dom (Some listType) liChild).
    assert (tree (if decide (ce ≠ liChild)
                  then replaceChildren liChild (childNodesOf dom ce) dom else dom) doc
            ∧ (∀ u, u = doc ∨ u ∈ childNodesOf dom doc →
                 childNodesOf (if decide (ce ≠ liChild)
                               then replaceChildren liChild (childNodesOf dom ce) dom
                               else dom) u = childNodesOf dom u)) as [Ht Hu].
    { case_decide as Hce; [|done].
      destruct (getContentElement_cases dom (Some listType) liChild) as [?|[Hin _]];
        [done|]. fold ce in Hin.
      split.
      - apply tree_replaceChildren; [done|by apply isElement_is_Some|apply T1|apply T3].
      - intros u Hu. rewrite childNodesOf_replaceChildren by by apply isElement_is_Some.
        assert (u ≠ liChild) as Hul.
        { destruct Hu as [->|Hu]; [done|]. intros ->. by apply Hbd, (T2 block doc liChild). }
        rewrite decide_False by done. apply filter_id. intros y Hy Hycs.
        pose proof (T2 _ _ _ Hy Hycs) as ->.
        destruct Hu as [->|Hu]; [by apply (T3 liChild)|].
        by apply Hld, (T2 liChild doc ce). }
    split; [|split; [|split; [|split]]].
    + eapply tree_same; [|exact Ht]. intros x. apply childNodesOf_removeAttribute.
    + intros x. rewrite static_removeAttribute by done.
      case_decide; [apply static_replaceChildren|done].
    + intros u Hu'. rewrite childNodesOf_removeAttribute. by apply Hu.
    + eapply attrs_le_trans; [|apply attrs_le_removeAttribute; by intros _].
      case_decide; [|apply attrs_le_refl]. apply attrs_le_same.
      * intros x name. apply getAttribute_replaceChildren.
      * intros x. apply styleOf_replaceChildren.
    + apply styleOf_removeAttribute_style.
Qed.

(** *** lastLists *)

Lemma get_set_length {A} (a a' : JsArray.t A) n k v :
  JsArray.set_length a n = inr a' → JsArray.get a' k = Some v → JsArray.get a k = Some v.
Proof.
  unfold JsArray.set_length, JsArray.get. destruct (_ && _); [|done].
  intros [= <-]. simpl. by intros [? _]%map_lookup_filter_Some.
Qed.

Lemma get_set {A} (a : JsArray.t A) k v k' w :
  JsArray.get (JsArray.set a k v) k' = Some w → w = v ∨ JsArray.get a k' = Some w.
Proof.
  unfold JsArray.get, JsArray.set. simpl.
  intros [[_ ->]|[_ ?]]%lookup_insert_Some; [by left|by right].
Qed.

(** *** join_list *)

Lemma join_list_spec usedFor doc st st' block liChild lastList indent :
  tree (dom st) doc →
  block ∈ childNodesOf (dom st) doc →
  liChild ∈ childNodesOf (dom st) block →
  is_Some (dom st !! lastList) → lastList ≠ doc →
  join_list st block liChild lastList indent = inr st' →
  tree (dom st') doc ∧
  (∀ x, static (dom st') x = static (dom st) x) ∧
  (∀ u, u ∈ childNodesOf (dom st) doc → u ≠ block → u ≠ lastList →
        childNodesOf (dom st') u = childNodesOf (dom st) u) ∧
  childNodesOf (dom st') doc = filter (λ y, y ≠ block) (childNodesOf (dom st) doc) ∧
  i st' = i st - 1 ∧
  attrs_le usedFor (dom st) (dom st') ∧
  (∀ key v, JsArray.get (lastLists st') key = Some v →
            JsArray.get (lastLists st) key = Some v).
Proof.
  intros Htree Hblock Hli Hlast Hld. pose proof Htree as (T1 & T2 & T3).
  assert (block ≠ doc) as Hbd by (intros ->; by apply (T3 doc)).
  assert (liChild ≠ doc) as Hlid by (intros ->; by apply (T3 block)).
  unfold join_list.
  destruct (JsArray.set_length (lastLists st) (indent + 1)) as [e|ll] eqn:Ell; [done|].
  cbn [JsArray.bind JsArray.ret]. intros [= <-]. cbn [dom i lastLists]. unfold remove.
  assert (∀ u, u ≠ block → liChild ∉ childNodesOf (dom st) u) as Hnoli.
  { intros u Hu Hin. by apply Hu, (T2 u block liChild). }
  assert (∀ u, u ≠ doc → block ∉ childNodesOf (dom st) u) as Hnoblock.
  { intros u Hu Hin. by apply Hu, (T2 u doc block). }
  split; [|split; [|split; [|split; [|split; [|split]]]]].
  - by apply tree_detach, tree_append.
  - intros x. by rewrite static_detach, static_append.
  - intros u Hu Hub Hul. rewrite childNodesOf_detach, childNodesOf_append by done.
    rewrite decide_False by done.
    assert (u ≠ doc) as Hud by (intros ->; by apply (T3 doc)).
    rewrite (filter_id (λ y, y ≠ liChild)); [|intros y Hy ->; by apply (Hnoli u)].
    apply filter_id. intros y Hy ->. by apply (Hnoblock u).
  - rewrite childNodesOf_detach, childNodesOf_append by done.
    rewrite decide_False by done.
    rewrite (filter_id (λ y, y ≠ liChild)); [done|]. intros y Hy ->. by apply (Hnoli doc).
  - done.
  - apply attrs_le_same.
    + intros x name. by rewrite getAttribute_detach, getAttribute_append.
    + intros x. by rewrite styleOf_detach, styleOf_append.
  - intros key v. by apply (get_set_length _ _ _ _ _ Ell).
Qed.

(** *** start_list *)

Lemma start_list_spec usedFor doc st st' block indent :
  tree (dom st) doc →
  block ∈ childNodesOf (dom st) doc →
  (∀ key v, JsArray.get (lastLists st) key = Some v → v ≠ doc) →
  start_list usedFor st block indent = inr st' →
  tree (dom st') doc ∧
  (∀ x, static (dom st') x = static (dom st) x) ∧
  (∀ u, u ∈ childNodesOf (dom st) doc → u ≠ block →
        childNodesOf (dom st') u = childNodesOf (dom st) u) ∧
  ((childNodesOf (dom st') doc = childNodesOf (dom st) doc ∧ i st' = i st) ∨
   (childNodesOf (dom st') doc = filter (λ y, y ≠ block) (childNodesOf (dom st) doc) ∧
    i st' = i st - 1)) ∧
  attrs_le usedFor (dom st) (dom st') ∧
  (∀ key v, JsArray.get (lastLists st') key = Some v →
            v = block ∨ JsArray.get (lastLists st) key = Some v).
Proof.
  intros Htree Hblock Hlast.
  destruct (clean_list_spec usedFor block (dom st)) as (Hcn & Hstatic & Hattrs).
  assert (tree (clean_list usedFor block (dom st)) doc) as Htree2
    by (by eapply tree_same).
  pose proof Htree2 as (T1 & T2 & T3).
  assert (block ∈ childNodesOf (clean_list usedFor block (dom st)) doc) as Hblock2
    by (by rewrite Hcn).
  assert (block ≠ doc) as Hbd by (intros ->; by apply (T3 doc)).
  unfold start_list. set (dom2 := clean_list usedFor block (dom st)) in *.
  destruct (if 0 <? indent then JsArray.get (lastLists st) (indent - 1) else None)
    as [parentList|] eqn:Eparent.
  - assert (parentList ≠ doc) as Hpd.
    { destruct (0 <? indent); [|done]. by eapply Hlast. }
    destruct (as_element dom2 (lastChild dom2 parentList)) as [e|parentLi] eqn:Eli; [done|].
    cbn [JsArray.bind JsArray.ret fst snd].
    destruct (JsArray.set_length _ _) as [e|ll] eqn:Ell; [done|].
    cbn [JsArray.bind JsArray.ret]. intros [= <-]. cbn [dom i lastLists].
    unfold as_element in Eli.
    destruct (lastChild dom2 parentList) as [pl|] eqn:Elast; [|done].
    destruct (isElement dom2 pl) eqn:Epl; [|done]. injection Eli as ->.
    apply lastChild_elem in Elast.
    set (ce := getContentElement dom2 (getElementListType dom2 parentList) parentLi).
    assert (parentLi ≠ doc) as Hlid by (intros ->; by apply (T3 parentList)).
    assert (ce ≠ doc ∧ is_Some (dom2 !! ce) ∧ ∀ u, u ∈ childNodesOf dom2 doc → u ≠ ce)
      as (Hced & Hce & Hceu).
    { destruct (getContentElement_cases dom2 (getElementListType dom2 parentList) parentLi)
        as [Heq|[Hin Hel]].
      - fold ce in Heq. rewrite Heq. split; [done|]. split; [by apply isElement_is_Some|].
        intros u Hu ->. by apply Hpd, (T2 parentList doc parentLi).
      - fold ce in Hin, Hel.
        split; [intros Heq; rewrite Heq in Hin; by apply (T3 parentLi)|].
        split; [by apply isElement_is_Some|].
        intros u Hu ->. by apply Hlid, (T2 parentLi doc ce). }
    assert (∀ u, u ≠ doc → block ∉ childNodesOf dom2 u) as Hnoblock.
    { intros u Hu Hin. by apply Hu, (T2 u doc block). }
    split; [|split; [|split; [|split; [|split]]]].
    + by apply tree_append.
    + intros x. by rewrite static_append.
    + intros u Hu Hub. rewrite childNodesOf_append by done.
      rewrite <- Hcn in Hu. rewrite decide_False by by apply Hceu.
      rewrite <- Hcn. apply filter_id. intros y Hy ->.
      apply (Hnoblock u); [|done]. intros ->. by apply (T3 doc).
    + right. split; [|done]. rewrite childNodesOf_append by done.
      rewrite decide_False by done. by rewrite Hcn.
    + eapply attrs_le_trans; [exact Hattrs|]. apply attrs_le_same.
      * intros x name. apply getAttribute_append.
      * intros x. apply styleOf_append.
    + intros key v Hv. apply (get_set_length _ _ _ _ _ Ell) in Hv. by apply get_set in Hv.
  - cbn [JsArray.bind JsArray.ret fst snd].
    destruct (JsArray.set_length _ _) as [e|ll] eqn:Ell; [done|].
    cbn [JsArray.bind JsArray.ret]. intros [= <-]. cbn [dom i lastLists].
    split; [done|]. split; [done|]. split; [by intros u _ _|].
    split; [left; by split|]. split; [done|].
    intros key v Hv. apply (get_set_length _ _ _ _ _ Ell) in Hv. by apply get_set in Hv.
Qed.

End JoinFacts.

Section Invariant.
Import Dom.

Variables (usedFor : UsedFor) (doc : nat) (dom0 : Dom).
Hypothesis Htree0 : tree dom0 doc.

Implicit Types (dom : Dom) (x p c id block liChild : nat) (st : JoinState) (k : nat).

Local Abbreviation Inv := (Inv usedFor doc dom0).

Lemma NoDup_top : NoDup (children dom0 doc).
Proof. destruct Htree0 as (T1 & _ & _). apply NoDup_filter, T1. Qed.

Lemma doc_not_top : doc ∉ children dom0 doc.
Proof.
  destruct Htree0 as (_ & _ & T3). intros H%children_subseteq. by apply (T3 doc).
Qed.

Lemma take_drop_disjoint k x :
  x ∈ take k (children dom0 doc) → x ∈ drop k (children dom0 doc) → False.
Proof.
  intros H1 H2. pose proof NoDup_top as Hnd.
  rewrite <- (take_drop k (children dom0 doc)) in Hnd.
  apply NoDup_app in Hnd as (_ & Hd & _). by apply (Hd x).
Qed.

Lemma elem_of_take_S k block x :
  children dom0 doc !! k = Some block →
  x ∈ take (S k) (children dom0 doc) ↔ x ∈ take k (children dom0 doc) ∨ x = block.
Proof.
  intros Hk. rewrite (take_S_r _ _ _ Hk), elem_of_app, list_elem_of_singleton. done.
Qed.

Lemma inv_init : Inv 0 (mkJoin dom0 JsArray.empty 0).
Proof.
  split; cbn [dom lastLists i].
  - done.
  - done.
  - done.
  - exists []. by rewrite drop_0.
  - done.
  - done.
  - apply attrs_le_refl.
  - intros; lia.
Qed.

Lemma inv_assemble k st block dom' ll' i' :
  Inv k st → children dom0 doc !! k = Some block →
  tree dom' doc →
  (∀ x, static dom' x = static (dom st) x) →
  (∀ u, u ∈ drop (S k) (children dom0 doc) →
        childNodesOf dom' u = childNodesOf (dom st) u) →
  ((childNodesOf dom' doc = childNodesOf (dom st) doc ∧ i' = i st) ∨
   (childNodesOf dom' doc = filter (λ y, y ≠ block) (childNodesOf (dom st) doc) ∧
    i' = i st - 1)) →
  attrs_le usedFor (dom st) dom' →
  (∀ key v, JsArray.get ll' key = Some v →
            v = block ∨ JsArray.get (lastLists st) key = Some v) →
  (∀ liChild, getElementListType dom0 block ≠ None → firstChild dom0 block = Some liChild →
              cleaned usedFor dom' liChild) →
  Inv (S k) (mkJoin dom' ll' (i' + 1)).
Proof.
  intros [Ht Hs Hi (P & Hch & HlenP & HP) Hrest Hll Hattrs Hcl] Hk
    Ht' Hs' Hrest' Hdoc' Hattrs' Hll' Hcl'.
  pose proof (drop_S _ _ _ Hk) as Hdrop.
  assert (block ∉ P) as HbP.
  { intros Hin%HP. apply (take_drop_disjoint k block); [done|].
    rewrite Hdrop. by left. }
  assert (block ∉ drop (S k) (children dom0 doc)) as Hbd.
  { intros Hin. apply (take_drop_disjoint (S k) block); [|done].
    apply (elem_of_take_S _ _ _ Hk). by right. }
  split; cbn [dom lastLists i].
  - done.
  - intros x. by rewrite Hs', Hs.
  - destruct Hdoc' as [[_ ->]|[_ ->]]; lia.
  - destruct Hdoc' as [[Hcn ->]|[Hcn ->]].
    + exists (P ++ [block]). split; [|split].
      * rewrite (children_same _ _ _ Hs' Hcn), Hch, Hdrop, <- app_assoc. done.
      * rewrite length_app. simpl. lia.
      * intros x [Hx|Hx%list_elem_of_singleton]%elem_of_app;
          apply (elem_of_take_S _ _ _ Hk); [left; by apply HP|by right].
    + exists P. split; [|split].
      * rewrite (children_filter _ _ _ (λ y, y ≠ block) Hs' Hcn), Hch, Hdrop.
        rewrite filter_app, filter_cons_False by (intros H; by apply H).
        rewrite !filter_id; [done| |].
        -- intros y Hy ->. done.
        -- intros y Hy ->. done.
      * rewrite HlenP. f_equal. lia.
      * intros x Hx. apply (elem_of_take_S _ _ _ Hk). left. by apply HP.
  - intros u Hu. rewrite Hrest' by done. apply Hrest. rewrite Hdrop. by right.
  - intros key v Hv. apply (elem_of_take_S _ _ _ Hk).
    destruct (Hll' key v Hv) as [->|Hv']; [by right|]. left. by eapply Hll.
  - by eapply attrs_le_trans.
  - intros j b li Hj Hb Hty Hfirst.
    destruct (decide (j = k)) as [->|Hjk].
    + rewrite Hk in Hb. injection Hb as <-. by apply Hcl'.
    + eapply cleaned_le; [exact Hattrs'|]. apply (Hcl j b li); [lia|done..].
Qed.

Lemma inv_block k st block :
  Inv k st → children dom0 doc !! k = Some block →
  children (dom st) doc !! Z.to_nat (i st) = Some block ∧
  block ∈ childNodesOf (dom st) doc ∧
  (∀ u, u ∈ drop (S k) (children dom0 doc) →
        u ∈ childNodesOf (dom st) doc ∧ u ≠ block) ∧
  (∀ key v, JsArray.get (lastLists st) key = Some v →
            is_Some (dom st !! v) ∧ v ≠ doc ∧ v ≠ block ∧
            v ∉ drop (S k) (children dom0 doc)).
Proof.
  intros [Ht Hs Hi (P & Hch & HlenP & HP) Hrest Hll Hattrs Hcl] Hk.
  pose proof (drop_S _ _ _ Hk) as Hdrop.
  assert (children (dom st) doc !! Z.to_nat (i st) = Some block) as Hlook.
  { rewrite Hch, lookup_app_r by lia. rewrite HlenP, Nat.sub_diag, Hdrop. done. }
  split; [done|]. split; [|split].
  - eapply children_subseteq, list_elem_of_lookup_2, Hlook.
  - intros u Hu. split.
    + apply children_subseteq. rewrite Hch, Hdrop. apply elem_of_app. right. by right.
    + intros ->. apply (take_drop_disjoint (S k) block); [|done].
      apply (elem_of_take_S _ _ _ Hk). by right.
  - intros key v Hv. apply Hll in Hv.
    assert (v ∈ children dom0 doc) as Hv0.
    { rewrite <- (take_drop k (children dom0 doc)). apply elem_of_app. by left. }
    split; [|split; [|split]].
    + eapply static_is_Some; [apply Hs|].
      by eapply isElement_is_Some, children_isElement.
    + intros ->. by apply doc_not_top.
    + intros ->. apply (take_drop_disjoint k block); [done|]. rewrite Hdrop. by left.
    + intros Hd. apply (take_drop_disjoint k v); [done|]. rewrite Hdrop. by right.
Qed.

(** One turn of the loop keeps the invariant. *)
Lemma join_step_inv k st st' block :
  Inv k st → children dom0 doc !! k = Some block →
  join_step usedFor doc st = inr st' →
  Inv (S k) (mkJoin (dom st') (lastLists st') (i st' + 1)).
Proof.
  intros HInv Hk. pose proof HInv as [Ht Hs Hi _ Hrest Hll Hattrs Hcl].
  destruct (inv_block k st block HInv Hk) as (Hlook & Hblock & Hothers & Hlists).
  pose proof (drop_S _ _ _ Hk) as Hdrop.
  unfold join_step. rewrite Hlook.
  rewrite (getElementListType_static _ _ _ (Hs block)).
  destruct (getElementListType dom0 block) as [listType|] eqn:Ety; last first.
  { intros [= <-]. cbn [dom lastLists i].
    apply (inv_assemble k st block); try done; [by left|apply attrs_le_refl..]. }
  assert (childNodesOf (dom st) block = childNodesOf dom0 block) as Hcnb.
  { apply Hrest. rewrite Hdrop. by left. }
  rewrite (firstChild_same _ _ _ Hcnb).
  destruct (firstChild dom0 block) as [liChild|] eqn:Efirst; [|done].
  unfold as_element at 1. destruct (isElement (dom st) liChild) eqn:Eel; [|done].
  cbn [JsArray.bind JsArray.ret].
  assert (liChild ∈ childNodesOf (dom st) block) as Hli.
  { rewrite Hcnb. by apply firstChild_elem. }
  destruct (clean_li_spec usedFor doc listType block liChild (dom st) Ht Hblock Hli Eel)
    as (Ht1 & Hs1 & Hcn1 & Hattrs1 & Hcl1).
  set (dom1 := clean_li usedFor listType liChild (dom st)) in *.
  set (indent := default 0 (parseIntegerAttr (getAttribute (dom st) liChild _))).
  assert (block ∈ childNodesOf dom1 doc) as Hblock1.
  { rewrite Hcn1 by by left. done. }
  assert (∀ key v, JsArray.get (lastLists st) key = Some v → v ≠ doc) as Hnd.
  { intros key v Hv. by destruct (Hlists key v Hv) as (_ & ? & _). }
  assert (∀ st2, start_list usedFor (mkJoin dom1 (lastLists st) (i st)) block indent
                 = inr st2 →
                 Inv (S k) (mkJoin (dom st2) (lastLists st2) (i st2 + 1))) as Hstart.
  { intros st2 Hst2.
    destruct (start_list_spec usedFor doc (mkJoin dom1 (lastLists st) (i st)) st2 block
                indent Ht1 Hblock1 Hnd Hst2)
      as (Ht2 & Hs2 & Hcn2 & Hdoc2 & Hattrs2 & Hll2). cbn [dom lastLists i] in *.
    apply (inv_assemble k st block); try done.
    - intros x. by rewrite Hs2, Hs1.
    - intros u Hu. destruct (Hothers u Hu) as [Hu1 Hu2].
      rewrite Hcn2; [by apply Hcn1; right| |done]. rewrite Hcn1 by by left. done.
    - rewrite <- (Hcn1 doc) by by left. done.
    - by eapply attrs_le_trans.
    - intros li _ Hli'. rewrite Efirst in Hli'. injection Hli' as <-.
      by eapply cleaned_le. }
  cbn [lastLists dom i].
  destruct (JsArray.get (lastLists st) indent) as [lastList|] eqn:Elast; [|apply Hstart].
  case_decide as Hsame; [|apply Hstart].
  intros Hst2.
  destruct (Hlists indent lastList Elast) as (Hsome & Hld & Hlb & Hlo).
  assert (liChild ∈ childNodesOf dom1 block) as Hli1.
  { rewrite Hcn1 by (by right). done. }
  assert (is_Some (dom1 !! lastList)) as Hsome1.
  { eapply static_is_Some; [apply Hs1|done]. }
  destruct (join_list_spec usedFor doc (mkJoin dom1 (lastLists st) (i st)) st' block
              liChild lastList indent Ht1 Hblock1 Hli1 Hsome1 Hld Hst2)
    as (Ht2 & Hs2 & Hcn2 & Hdoc2 & Hi2 & Hattrs2 & Hll2). cbn [dom lastLists i] in *.
  apply (inv_assemble k st block); try done.
  - intros x. by rewrite Hs2, Hs1.
  - intros u Hu. destruct (Hothers u Hu) as [Hu1 Hu2].
    rewrite Hcn2; [by apply Hcn1; right| |done|].
    + rewrite Hcn1 by by left. done.
    + intros ->. done.
  - right. rewrite <- (Hcn1 doc) by by left. done.
  - by eapply attrs_le_trans.
  - intros key v Hv. right. by apply Hll2.
  - intros li _ Hli'. rewrite Efirst in Hli'. injection Hli' as <-.
    by eapply cleaned_le.
Qed.

(** The loop ends within the turns that it is given, and what it returns
    satisfies the invariant for all the children. *)
Lemma join_loop_inv turns : ∀ k st,
  Inv k st → (k + turns = length (children dom0 doc))%nat →
  ∃ r, join_loop turns usedFor doc st = Some r ∧
       ∀ dom', r = inr dom' →
         ∃ st', Inv (length (children dom0 doc)) st' ∧ dom st' = dom'.
Proof.
  induction turns as [|turns IH]; intros k st HInv Hturns.
  - pose proof HInv as [_ _ Hi (P & Hch & HlenP & _) _ _ _ _].
    rewrite drop_ge, app_nil_r in Hch by lia.
    exists (inr (dom st)). split.
    + simpl. rewrite Hch.
      destruct (Z.ltb_spec (i st) (Z.of_nat (length P))); [lia|done].
    + intros dom' [= <-]. exists st. split; [|done].
      by replace (length (children dom0 doc)) with k by lia.
  - destruct (lookup_lt_is_Some_2 (children dom0 doc) k) as [block Hk]; [lia|].
    pose proof HInv as [_ _ Hi (P & Hch & HlenP & _) _ _ _ _].
    pose proof (drop_S _ _ _ Hk) as Hdrop.
    cbn [join_loop]. rewrite Hch, length_app, Hdrop. cbn [length].
    destruct (Z.ltb_spec (i st) (Z.of_nat (length P + S (length (drop (S k) (children dom0 doc))))));
      [|lia].
    destruct (join_step usedFor doc st) as [e|st1] eqn:Estep.
    + exists (inl e). split; [done|]. intros dom' [=].
    + apply (IH (S k)); [|lia]. by eapply join_step_inv.
Qed.

End Invariant.

Section JoinSpec.
Import Dom.

(** What joinListElements does, for a tree: it ends, and when it returns
    without an exception it has kept the kind and the tag of every node, has
    only taken attributes away, and has cleaned the LI of every list wrapper
    that it was given. *)
Lemma joinListElements_spec (usedFor : UsedFor) (doc : nat) (dom0 : Dom) :
  tree dom0 doc →
  ∃ result, joinListElements usedFor doc dom0 = Some result ∧
    ∀ dom', result = inr dom' →
      (∀ x, static dom' x = static dom0 x) ∧
      attrs_le usedFor dom0 dom' ∧
      ∀ block liChild,
        block ∈ children dom0 doc →
        getElementListType dom0 block ≠ None →
        firstChild dom0 block = Some liChild →
        cleaned usedFor dom' liChild.
Proof.
  intros Htree.
  destruct (join_loop_inv usedFor doc dom0 Htree (length (children dom0 doc)) 0
              (mkJoin dom0 JsArray.empty 0) (inv_init usedFor doc dom0 Htree) eq_refl)
    as (r & Hr & Hinv).
  exists r. split; [exact Hr|].
  intros dom' ->.
  destruct (Hinv dom' eq_refl) as (st' & [_ Hstatic _ _ _ _ Hattrs Hcl] & <-).
  split; [done|]. split; [done|].
  intros block liChild Hblock Hty Hfirst.
  apply list_elem_of_lookup in Hblock as [j Hj].
  by apply (Hcl j block liChild (lookup_lt_Some _ _ _ Hj) Hj).
Qed.

End JoinSpec.

(** * The store of a fragment *)
Section BuildFacts.
Import Dom.

Implicit Types (h : Dom) (lo hi k c : nat) (t : HtmlNode).

Lemma build_HElement tag a s cs (st : nat * Dom) :
  build (HElement tag a s cs) st =
    let r := build_all cs (S st.1, st.2) in
    (st.1, (r.2.1, <[st.1 := mkDomNode ElementNode tag "" a s r.1]> r.2.2)).
Proof. reflexivity. Qed.

Lemma childNodesOf_old lo h h' k :
  (∀ k, (k < lo)%nat → h' !! k = h !! k) → (k < lo)%nat →
  childNodesOf h' k = childNodesOf h k.
Proof. intros H Hk. unfold childNodesOf. by rewrite H. Qed.

Lemma region_trans lo mid hi h h1 h2 :
  fresh lo h → region lo mid h h1 → region mid hi h1 h2 → region lo hi h h2.
Proof.
  intros Hf [L1 O1 F1 C1 N1 P1] [L2 O2 F2 C2 N2 P2].
  assert (∀ k c, (lo ≤ k)%nat → c ∈ childNodesOf h2 k → (k < c < hi)%nat) as HC.
  { intros k c Hk Hc. destruct (decide (k < mid)%nat) as [Hlt|Hge].
    - rewrite (childNodesOf_old mid h1 h2) in Hc by done.
      specialize (C1 k c Hk Hc). lia.
    - apply C2; [lia|done]. }
  split.
  - lia.
  - intros k Hk. rewrite O2 by lia. by apply O1.
  - done.
  - done.
  - intros k Hk. destruct (decide (k < mid)%nat) as [Hlt|Hge].
    + rewrite (childNodesOf_old mid h1 h2) by done. by apply N1.
    + apply N2. lia.
  - intros k1 k2 c Hk1 Hk2 Hc1 Hc2.
    destruct (decide (k1 < mid)%nat) as [Hlt1|Hge1];
      destruct (decide (k2 < mid)%nat) as [Hlt2|Hge2].
    + rewrite (childNodesOf_old mid h1 h2) in Hc1, Hc2 by done. by apply (P1 k1 k2 c).
    + rewrite (childNodesOf_old mid h1 h2) in Hc1 by done.
      specialize (C1 k1 c Hk1 Hc1). specialize (C2 k2 c ltac:(lia) Hc2). lia.
    + rewrite (childNodesOf_old mid h1 h2) in Hc2 by done.
      specialize (C1 k2 c Hk2 Hc2). specialize (C2 k1 c ltac:(lia) Hc1). lia.
    + apply (P2 k1 k2 c); [lia|lia|done..].
Qed.

Lemma build_all_region cs :
  Forall (λ t, ∀ lo h, fresh lo h →
            (build t (lo, h)).1 = lo ∧ (lo < (build t (lo, h)).2.1)%nat ∧
            region lo (build t (lo, h)).2.1 h (build t (lo, h)).2.2) cs →
  ∀ lo h, fresh lo h →
    region lo (build_all cs (lo, h)).2.1 h (build_all cs (lo, h)).2.2 ∧
    roots lo (build_all cs (lo, h)).2.1 (build_all cs (lo, h)).2.2 (build_all cs (lo, h)).1.
Proof.
  induction 1 as [|t cs Ht _ IH]; intros lo h Hf.
  - simpl. split.
    + split; try done.
      * intros k c Hk Hc. unfold childNodesOf in Hc. rewrite (Hf k Hk) in Hc.
        by apply elem_of_nil in Hc.
      * intros k Hk. unfold childNodesOf. rewrite (Hf k Hk). constructor.
      * intros k1 k2 c Hk1 _ Hc. unfold childNodesOf in Hc. rewrite (Hf k1 Hk1) in Hc.
        by apply elem_of_nil in Hc.
    + split; [constructor|]. split; [by intros r ?%elem_of_nil|by intros r k ?%elem_of_nil].
  - cbn [build_all]. cbv zeta.
    destruct (Ht lo h Hf) as (Hroot & Hlt & Hreg1).
    destruct (build t (lo, h)) as [root [mid h1]] eqn:Eb. cbn [fst snd] in *. subst root.
    destruct (IH mid h1 (reg_fresh _ _ _ _ Hreg1)) as [Hreg2 (Hnd & Hin & Hnc)].
    destruct (build_all cs (mid, h1)) as [rs [hi h2]] eqn:Ea. cbn [fst snd] in *.
    pose proof (region_trans lo mid hi h h1 h2 Hf Hreg1 Hreg2) as Hreg.
    split; [done|]. split; [|split].
    + constructor; [|done]. intros Hr%Hin. lia.
    + intros r [->|Hr%Hin]%elem_of_cons; [|lia].
      pose proof (reg_le _ _ _ _ Hreg2). lia.
    + intros r k [->|Hr]%elem_of_cons Hk Hc.
      * pose proof (reg_children _ _ _ _ Hreg k lo Hk Hc). lia.
      * destruct (decide (k < mid)%nat) as [Hlt'|Hge].
        -- rewrite (childNodesOf_old mid h1 h2) in Hc
             by first [exact (reg_old _ _ _ _ Hreg2)|done].
           pose proof (reg_children _ _ _ _ Hreg1 k r Hk Hc). apply Hin in Hr. lia.
        -- apply (Hnc r k Hr); [lia|done].
Qed.

Lemma build_region t : ∀ lo h, fresh lo h →
  (build t (lo, h)).1 = lo ∧ (lo < (build t (lo, h)).2.1)%nat ∧
  region lo (build t (lo, h)).2.1 h (build t (lo, h)).2.2.
Proof.
  induction t as [d|tag a s cs IH] using HtmlNode_ind'; intros lo h Hf.
  - cbn [build fst snd]. split; [done|]. split; [lia|]. split.
    + lia.
    + intros k Hk. apply lookup_insert_ne. lia.
    + intros k Hk. rewrite lookup_insert_ne by lia. apply Hf. lia.
    + intros k c Hk Hc. unfold childNodesOf in Hc.
      destruct (decide (k = lo)) as [->|Hne].
      * rewrite lookup_insert_eq in Hc. by apply elem_of_nil in Hc.
      * rewrite lookup_insert_ne, (Hf k Hk) in Hc by done. by apply elem_of_nil in Hc.
    + intros k Hk. unfold childNodesOf. destruct (decide (k = lo)) as [->|Hne].
      * rewrite lookup_insert_eq. constructor.
      * rewrite lookup_insert_ne, (Hf k Hk) by done. constructor.
    + intros k1 k2 c Hk1 _ Hc. unfold childNodesOf in Hc.
      destruct (decide (k1 = lo)) as [->|Hne].
      * rewrite lookup_insert_eq in Hc. by apply elem_of_nil in Hc.
      * rewrite lookup_insert_ne, (Hf k1 Hk1) in Hc by done. by apply elem_of_nil in Hc.
  - rewrite build_HElement. cbn [fst snd]. cbv zeta.
    assert (fresh (S lo) h) as Hf' by (intros k Hk; apply Hf; lia).
    destruct (build_all_region cs IH (S lo) h Hf') as [Hreg (Hnd & Hin & Hnc)].
    destruct (build_all cs (S lo, h)) as [rs [hi h1]] eqn:Ea. cbn [fst snd] in *.
    pose proof (reg_le _ _ _ _ Hreg) as Hle.
    split; [done|]. split; [lia|].
    assert (∀ k, k ≠ lo →
              childNodesOf (<[lo := mkDomNode ElementNode tag "" a s rs]> h1) k
              = childNodesOf h1 k) as Hother.
    { intros k Hk. unfold childNodesOf. by rewrite lookup_insert_ne. }
    assert (childNodesOf (<[lo := mkDomNode ElementNode tag "" a s rs]> h1) lo = rs) as Hlo.
    { unfold childNodesOf. by rewrite lookup_insert_eq. }
    split.
    + lia.
    + intros k Hk. rewrite lookup_insert_ne by lia. apply (reg_old _ _ _ _ Hreg). lia.
    + intros k Hk. rewrite lookup_insert_ne by lia. by apply (reg_fresh _ _ _ _ Hreg).
    + intros k c Hk Hc. destruct (decide (k = lo)) as [->|Hne].
      * rewrite Hlo in Hc. apply Hin in Hc. lia.
      * rewrite Hother in Hc by done.
        pose proof (reg_children _ _ _ _ Hreg k c ltac:(lia) Hc). lia.
    + intros k Hk. destruct (decide (k = lo)) as [->|Hne].
      * by rewrite Hlo.
      * rewrite Hother by done. apply (reg_NoDup _ _ _ _ Hreg). lia.
    + intros k1 k2 c Hk1 Hk2 Hc1 Hc2.
      destruct (decide (k1 = lo)) as [->|Hne1]; destruct (decide (k2 = lo)) as [->|Hne2];
        try done.
      * rewrite Hlo in Hc1. rewrite Hother in Hc2 by done.
        destruct (Hnc c k2 Hc1 ltac:(lia) Hc2).
      * rewrite Hlo in Hc2. rewrite Hother in Hc1 by done.
        destruct (Hnc c k1 Hc2 ltac:(lia) Hc1).
      * rewrite Hother in Hc1, Hc2 by done.
        apply (reg_parent _ _ _ _ Hreg k1 k2 c); [lia|lia|done..].
Qed.

Lemma fresh_empty n : fresh n ∅.
Proof. intros k _. apply lookup_empty. Qed.

(** The store of a fragment is a tree under the key 0. *)
Lemma tree_fragment (nodes : list HtmlNode) : tree (fragment nodes) 0%nat.
Proof.
  unfold fragment. cbv zeta.
  assert (Forall (λ t, ∀ lo h, fresh lo h →
            (build t (lo, h)).1 = lo ∧ (lo < (build t (lo, h)).2.1)%nat ∧
            region lo (build t (lo, h)).2.1 h (build t (lo, h)).2.2) nodes) as Hall.
  { apply Forall_forall. intros t _. apply build_region. }
  destruct (build_all_region nodes Hall 1%nat ∅ (fresh_empty 1)) as [Hreg (Hnd & Hin & Hnc)].
  destruct (build_all nodes (1%nat, ∅)) as [rs [hi h1]]. cbn [fst snd] in *.
  set (top := mkDomNode FragmentNode "#document-fragment" "" [] None rs).
  assert (∀ k, k ≠ 0%nat → childNodesOf (<[0%nat := top]> h1) k = childNodesOf h1 k) as Hother.
  { intros k Hk. unfold childNodesOf. by rewrite lookup_insert_ne. }
  assert (childNodesOf (<[0%nat := top]> h1) 0%nat = rs) as Hlo.
  { unfold childNodesOf. by rewrite lookup_insert_eq. }
  split; [|split].
  - intros p. destruct (decide (p = 0%nat)) as [->|Hne].
    + by rewrite Hlo.
    + rewrite Hother by done. apply (reg_NoDup _ _ _ _ Hreg). lia.
  - intros p1 p2 c Hc1 Hc2.
    destruct (decide (p1 = 0%nat)) as [->|Hne1]; destruct (decide (p2 = 0%nat)) as [->|Hne2];
      try done.
    + rewrite Hlo in Hc1. rewrite Hother in Hc2 by done.
      destruct (Hnc c p2 Hc1 ltac:(lia) Hc2).
    + rewrite Hlo in Hc2. rewrite Hother in Hc1 by done.
      destruct (Hnc c p1 Hc2 ltac:(lia) Hc1).
    + rewrite Hother in Hc1, Hc2 by done.
      apply (reg_parent _ _ _ _ Hreg p1 p2 c); [lia|lia|done..].
  - intros p Hc. destruct (decide (p = 0%nat)) as [->|Hne].
    + rewrite Hlo in Hc. apply Hin in Hc. lia.
    + rewrite Hother in Hc by done.
      pose proof (reg_children _ _ _ _ Hreg p 0%nat ltac:(lia) Hc). lia.
Qed.

End BuildFacts.

(** * The store of the rendered nodes *)
Section RenderFacts.
Import Dom.

Implicit Types (h : Dom) (lo hi k c x : nat) (node : Node).

(** What is read at a key depends on the node under the key only. *)
Lemma getElementListType_lookup h h' k :
  h' !! k = h !! k → getElementListType h' k = getElementListType h k.
Proof.
  intros H. unfold getElementListType, tagNameOf, getAttribute. by rewrite H.
Qed.

Lemma firstChild_lookup h h' k : h' !! k = h !! k → firstChild h' k = firstChild h k.
Proof. intros H. unfold firstChild, childNodesOf. by rewrite H. Qed.

Lemma getAttribute_lookup h h' k name :
  h' !! k = h !! k → getAttribute h' k name = getAttribute h k name.
Proof. intros H. unfold getAttribute. by rewrite H. Qed.

Lemma isElement_lookup h h' k : h' !! k = h !! k → isElement h' k = isElement h k.
Proof. intros H. unfold isElement. by rewrite H. Qed.

Lemma li_of_lookup h h' block node x :
  h' !! block = h !! block → h' !! x = h !! x →
  li_of h block node x → li_of h' block node x.
Proof.
  intros Hb Hx (H1 & H2 & H3). split; [|split].
  - by rewrite (getElementListType_lookup h h').
  - by rewrite (firstChild_lookup h h').
  - by rewrite (getAttribute_lookup h h').
Qed.

Ltac lookup_cases H :=
  repeat (apply lookup_insert_Some in H as [[<- <-]|[? H]]).

Lemma build_renderHTML node lo h :
  fresh lo h →
  isElement (build (renderHTML node) (lo, h)).2.2 lo = true ∧
  ∀ x n, (lo ≤ x)%nat → (build (renderHTML node) (lo, h)).2.2 !! x = Some n →
    tagName n = "LI" → li_of (build (renderHTML node) (lo, h)).2.2 lo node x.
Proof.
  intros Hf.
  unfold renderHTML, renderHTML_ordered, renderHTML_unordered, renderHTML_task,
    renderHTML_other, content_nodes.
  destruct (getListType node) as [[| |]|]; destruct (content node) as [|c0 cs];
    cbn [build build_all fst snd]; cbv zeta; cbn [fst snd].
  all: split; [unfold isElement; by rewrite lookup_insert_eq|].
  all: intros x n Hx Hn Htag; lookup_cases Hn; try discriminate Htag.
  all: try (rewrite (Hf x Hx) in Hn; discriminate Hn).
  all: unfold li_of, getElementListType, tagNameOf, getAttribute, firstChild, childNodesOf;
    rewrite lookup_insert_eq; rewrite lookup_insert_ne by lia; rewrite lookup_insert_eq;
    done.
Qed.

Lemma build_all_renderHTML (nodes : list Node) : ∀ lo h,
  fresh lo h →
  Forall (λ b, isElement (build_all (renderHTML <$> nodes) (lo, h)).2.2 b = true)
    (build_all (renderHTML <$> nodes) (lo, h)).1 ∧
  ∀ x n, (lo ≤ x)%nat → (build_all (renderHTML <$> nodes) (lo, h)).2.2 !! x = Some n →
    tagName n = "LI" →
    ∃ block node, block ∈ (build_all (renderHTML <$> nodes) (lo, h)).1 ∧ node ∈ nodes ∧
      li_of (build_all (renderHTML <$> nodes) (lo, h)).2.2 block node x.
Proof.
  induction nodes as [|node nodes IH]; intros lo h Hf.
  - simpl. split; [constructor|]. intros x n Hx Hn. by rewrite (Hf x Hx) in Hn.
  - cbn [fmap list_fmap build_all]. cbv zeta.
    destruct (build_renderHTML node lo h Hf) as [Hel Hli].
    destruct (build_region (renderHTML node) lo h Hf) as (Hroot & Hlt & Hreg1).
    destruct (build (renderHTML node) (lo, h)) as [root [mid h1]] eqn:Eb.
    cbn [fst snd] in *. subst root.
    pose proof (reg_fresh _ _ _ _ Hreg1) as Hf1.
    destruct (IH mid h1 Hf1) as [Hels Hlis].
    assert (Forall (λ t, ∀ lo h, fresh lo h →
              (build t (lo, h)).1 = lo ∧ (lo < (build t (lo, h)).2.1)%nat ∧
              region lo (build t (lo, h)).2.1 h (build t (lo, h)).2.2)
              (renderHTML <$> nodes)) as Hall.
    { apply Forall_forall. intros t _. apply build_region. }
    destruct (build_all_region (renderHTML <$> nodes) Hall mid h1 Hf1) as [Hreg2 _].
    change (list_fmap Node HtmlNode renderHTML nodes) with (renderHTML <$> nodes).
    destruct (build_all (renderHTML <$> nodes) (mid, h1)) as [rs [hi h2]] eqn:Ea.
    cbn [fst snd] in *.
    pose proof (reg_old _ _ _ _ Hreg2) as Hold.
    split.
    + constructor; [|done]. by rewrite (isElement_lookup h1 h2) by (apply Hold; lia).
    + intros x n Hx Hn Htag. destruct (decide (x < mid)%nat) as [Hlt'|Hge].
      * rewrite Hold in Hn by done. exists lo, node.
        split; [by left|]. split; [by left|].
        apply (li_of_lookup h1 h2); [apply Hold; lia|by apply Hold|].
        by apply (Hli x n).
      * destruct (Hlis x n ltac:(lia) Hn Htag) as (block & node' & Hb & Hn' & Hl).
        exists block, node'. split; [by right|]. split; [by right|done].
Qed.

(** In the fragment of the rendered nodes, an LI is the first child of a
    list wrapper that is a child of the fragment. *)
Lemma fragment_renderHTML (nodes : list Node) x n :
  fragment (renderHTML <$> nodes) !! x = Some n → tagName n = "LI" →
  ∃ block node, block ∈ children (fragment (renderHTML <$> nodes)) 0%nat ∧ node ∈ nodes ∧
    li_of (fragment (renderHTML <$> nodes)) block node x.
Proof.
  unfold fragment. cbv zeta. intros Hn Htag.
  destruct (build_all_renderHTML nodes 1%nat ∅ (fresh_empty 1)) as [Hels Hlis].
  assert (Forall (λ t, ∀ lo h, fresh lo h →
            (build t (lo, h)).1 = lo ∧ (lo < (build t (lo, h)).2.1)%nat ∧
            region lo (build t (lo, h)).2.1 h (build t (lo, h)).2.2)
            (renderHTML <$> nodes)) as Hall.
  { apply Forall_forall. intros t _. apply build_region. }
  destruct (build_all_region (renderHTML <$> nodes) Hall 1%nat ∅ (fresh_empty 1))
    as [Hreg (Hnd & Hin & Hnc)].
  destruct (build_all (renderHTML <$> nodes) (1%nat, ∅)) as [rs [hi h1]].
  cbn [fst snd] in *.
  apply lookup_insert_Some in Hn as [[<- <-]|[Hx Hn]]; [discriminate Htag|].
  destruct (Hlis x n ltac:(lia) Hn Htag) as (block & node & Hb & Hnode & Hl).
  pose proof (Hin block Hb) as Hblock.
  exists block, node. split; [|split; [done|]].
  - unfold children, childNodesOf. rewrite lookup_insert_eq. cbn [childNodes].
    apply list_elem_of_filter. split; [|done].
    rewrite (isElement_lookup h1) by (apply lookup_insert_ne; lia).
    by apply (proj1 (Forall_forall _ _) Hels).
  - apply (li_of_lookup h1); [apply lookup_insert_ne; lia|by apply lookup_insert_ne|done].
Qed.

End RenderFacts.

(** * The claims on the commands, the paste plugin and the postprocessor *)

Lemma staircaseb_correct (doc : Doc) : staircaseb doc = true → staircase doc.
Proof.
  induction doc as [|a doc IH]; [by intros _ [|?] ? ? ?|].
  destruct doc as [|b doc]; [by intros _ [|[|?]] ? ? ? ?|].
  cbn [staircaseb]. intros [H1 H2]%andb_true_iff i x y Hx Hy Hlx Hly.
  destruct i as [|i].
  - simpl in Hx, Hy. simplify_eq. rewrite Hlx, Hly in H1. simpl in H1. lia.
  - by apply (IH H2 i x y).
Qed.

(** C1 (amended). Starting from a document that satisfies the staircase
    invariant, the document that indentFlatListItem dispatches satisfies it,
    and so does the one that dedentFlatListItem dispatches for a selection of
    one range.  In the fragment that transformPasted returns for a paste
    target of non-negative indent and a slice in which no list item shares
    its attributes object, two adjacent list items a, b satisfy
    b.indent <= a.indent + 1 whenever the loop did not skip a; when a is the
    skipped first node of the fragment, b.indent is at most lastIndent + 1
    for the initial lastIndent (the indent of the target list item, or -1). *)
Theorem C1_staircase_preserved (doc : Doc) (ranges : list Range) (range : Range)
    (canConvert : bool) (from : ResolvedPos) (h : Heap) (slice : list SliceNode) :
  staircase doc →
  0 ≤ contextIndent (initial from) →
  staircase (indentFlatListItem doc ranges).1 ∧
  staircase (dedentFlatListItem canConvert doc [range]).1 ∧
  (unshared h slice →
   ∀ j a b,
     transformPasted from h slice !! j = Some a →
     transformPasted from h slice !! S j = Some b →
     isFlatListNode a = true → isFlatListNode b = true →
     if skipped from j
     then node_indent b ≤ lastIndent (initial from) + 1
     else node_indent b ≤ node_indent a + 1).
Proof.
  intros Hdoc Hctx. split; [|split].
  - by apply indentFlatListItem_staircase.
  - destruct range as [lo len]. by apply dedent_single_staircase.
  - intros Hun j a b. rewrite (transformPasted_unshared from h slice Hun).
    by apply transformPasted_staircase.
Qed.

Lemma C1_witness :
  staircase (item ordered <$> [0; 1; 2; 2]) ∧
  0 ≤ contextIndent (initial (mkPos 1 (item unordered 1) 11 10)) ∧
  unshared (own_heap (item ordered <$> [0; 2; 3])) (own_nodes (item ordered <$> [0; 2; 3])) ∧
  (staircase (indentFlatListItem (item ordered <$> [0; 1; 2; 2]) [(1, 2)%nat]).1 ∧
   staircase (dedentFlatListItem false (item ordered <$> [0; 1; 2; 2]) [(1, 1)%nat]).1 ∧
   (∀ j a b,
      transformPasted (mkPos 1 (item unordered 1) 11 10)
        (own_heap (item ordered <$> [0; 2; 3])) (own_nodes (item ordered <$> [0; 2; 3])) !! j
        = Some a →
      transformPasted (mkPos 1 (item unordered 1) 11 10)
        (own_heap (item ordered <$> [0; 2; 3])) (own_nodes (item ordered <$> [0; 2; 3])) !! S j
        = Some b →
      isFlatListNode a = true → isFlatListNode b = true →
      if skipped (mkPos 1 (item unordered 1) 11 10) j
      then node_indent b ≤ lastIndent (initial (mkPos 1 (item unordered 1) 11 10)) + 1
      else node_indent b ≤ node_indent a + 1)).
Proof.
  assert (staircase (item ordered <$> [0; 1; 2; 2])) as H1
    by (apply staircaseb_correct; reflexivity).
  assert (0 ≤ contextIndent (initial (mkPos 1 (item unordered 1) 11 10))) as H2
    by (vm_compute; discriminate).
  pose proof (unshared_own (item ordered <$> [0; 2; 3])) as H3.
  split; [exact H1|]. split; [exact H2|]. split; [exact H3|].
  destruct (C1_staircase_preserved _ [(1, 2)%nat] (1, 1)%nat false
              (mkPos 1 (item unordered 1) 11 10)
              (own_heap (item ordered <$> [0; 2; 3]))
              (own_nodes (item ordered <$> [0; 2; 3])) H1 H2) as (A & B & C).
  split; [exact A|]. split; [exact B|]. exact (C H3).
Defined.

(** The claim C1 as stated fails on the fragment [0, 5] (every node with
    attributes of its own) pasted inside a list item of indent 3, away from
    its start: the first node is skipped and keeps indent 0, the second gets
    indent 4.  It also fails for dedentFlatListItem on the items
    [0, 1, 2, 1] with a selection of two ranges, one on the second item and
    one on the fourth: only the last range is followed by the loop over the
    later siblings, and the third item stays at 2 behind an item at 0. *)
Lemma C1_counterexample :
  (indents (transformPasted paste_in_item (own_heap (item unordered <$> [0; 5]))
              (own_nodes (item unordered <$> [0; 5]))) = [0; 4] ∧
   ¬ staircase (transformPasted paste_in_item (own_heap (item unordered <$> [0; 5]))
                  (own_nodes (item unordered <$> [0; 5])))) ∧
  (staircase (item ordered <$> [0; 1; 2; 1]) ∧
   indents (dedentFlatListItem false (item ordered <$> [0; 1; 2; 1])
              [(1, 1)%nat; (3, 1)%nat]).1 = [0; 0; 2; 0] ∧
   ¬ staircase (dedentFlatListItem false (item ordered <$> [0; 1; 2; 1])
                  [(1, 1)%nat; (3, 1)%nat]).1).
Proof.
  split; [split; [by vm_compute|]|split; [|split; [reflexivity|]]].
  - intros H.
    assert (transformPasted paste_in_item (own_heap (item unordered <$> [0; 5]))
              (own_nodes (item unordered <$> [0; 5]))
            = [item unordered 0; item unordered 4]) as E by (by vm_compute).
    rewrite E in H.
    specialize (H 0%nat (item unordered 0) (item unordered 4)
                  eq_refl eq_refl eq_refl eq_refl).
    vm_compute in H. by apply H.
  - apply staircaseb_correct. reflexivity.
  - intros H.
    specialize (H 1%nat (item ordered 0) (item ordered 2)
                  eq_refl eq_refl eq_refl eq_refl).
    vm_compute in H. by apply H.
Qed.

(** C3. dedentFlatListItem on ordered items with indents [0, 1, 2, 2],
    dedenting the second item only, gives [0, 0, 1, 1].  On [0, 1, 0, 1]
    with the second and third items selected and canConvert false, the second
    item is the last one changed, yet the loop over the later siblings starts
    from the third item, which stays at 0, and dedents the fourth:
    the result is [0, 0, 0, 0]. *)
Theorem C3_dedent_cascade_examples :
  indents (dedentFlatListItem false (item ordered <$> [0; 1; 2; 2]) [(1, 1)%nat]).1
    = [0; 0; 1; 1] ∧
  indents (dedentFlatListItem false (item ordered <$> [0; 1; 0; 1]) [(1, 2)%nat]).1
    = [0; 0; 0; 0].
Proof. split; reflexivity. Qed.

Lemma indents_unprop_first (children : list Node) :
  indents (unprop_first children) = indents children.
Proof.
  unfold unprop_first. destruct children as [|c cs]; [done|]. by destruct (_ && _).
Qed.

Lemma initial_cases (from : ResolvedPos) :
  (initial from = mkLoop (contextIndent (initial from)) (contextIndent (initial from)) None) ∨
  (initial from = mkLoop 0 (-1) None).
Proof. unfold initial. destruct (_ && _); [by left|by right]. Qed.

Section OwnedClaims.
Import Owned.

(** The clamp of the loop by value, and its two worked examples. *)
Lemma paste_clamp_owned (from : ResolvedPos) (slice : list Node) :
  0 ≤ contextIndent (initial from) →
  (∀ i child,
     slice !! i = Some child → isFlatListNode child = true → skipped from i = false →
     ∃ out, transformPasted from slice !! i = Some out ∧
       node_indent out =
         Z.max 0 (Z.min (lastIndent (state_at from slice i) + 1)
                    (node_indent child + shift_of (state_at from slice i) child)) ∧
       0 ≤ node_indent out ≤ lastIndent (state_at from slice i) + 1 ∧
       delta (state_at from slice (S i)) =
         Some (shift_of (state_at from slice i) child
               + (node_indent out
                  - (node_indent child + shift_of (state_at from slice i) child))) ∧
       lastIndent (state_at from slice (S i)) = node_indent out) ∧
  (Forall (λ n, isFlatListNode n = true) slice → indents slice = [0; 2; 3] →
   lastIndent (initial from) = 1 →
   indents (transformPasted from slice) = [if at_node_start from then 1 else 0; 2; 3]) ∧
  (Forall (λ n, isFlatListNode n = true) slice → indents slice = [0; 5] →
   contextIndent (initial from) = 0 →
   indents (transformPasted from slice) =
     [0; if at_node_start from || bool_decide (lastIndent (initial from) = 0) then 1 else 0]).
Proof.
  intros Hctx. split; [|split].
  - intros i child Hi Hl Hs. by apply transformPasted_member.
  - intros Hl Hi Hlast.
    destruct slice as [|a [|b [|c [|? ?]]]]; try done.
    apply Forall_cons in Hl as [Hla Hl]. apply Forall_cons in Hl as [Hlb Hl].
    apply Forall_cons in Hl as [Hlc _]. injection Hi as Hia Hib Hic.
    unfold transformPasted. rewrite indents_unprop_first.
    rewrite !loop_cons. cbn [fst snd loop indents fmap list_fmap].
    destruct (initial_cases from) as [Hinit|Hinit]; rewrite Hinit in Hlast |- *;
      simpl in Hlast; [|lia]. rewrite Hlast.
    rewrite !visit_list by done. unfold skipped, shift_of. simpl.
    destruct (at_node_start from); simpl; rewrite ?node_indent_set_indent, Hia, Hib, Hic;
      reflexivity.
  - intros Hl Hi Hc.
    destruct slice as [|a [|b [|? ?]]]; try done.
    apply Forall_cons in Hl as [Hla Hl]. apply Forall_cons in Hl as [Hlb _].
    injection Hi as Hia Hib.
    unfold transformPasted. rewrite indents_unprop_first.
    rewrite !loop_cons. cbn [fst snd loop indents fmap list_fmap].
    destruct (initial_cases from) as [Hinit|Hinit]; rewrite Hinit in Hc |- *;
      simpl in Hc; rewrite ?Hc;
      rewrite !visit_list by done; unfold skipped, shift_of; simpl;
      destruct (at_node_start from); simpl; rewrite ?node_indent_set_indent, Hia, Hib;
      reflexivity.
Qed.

(** A list item after a list item, and after another node, in the loop by
    value. *)
Lemma relative_owned (from : ResolvedPos) (slice : list Node) (j : nat) (a b a' : Node) :
  0 ≤ contextIndent (initial from) →
  slice !! j = Some a → slice !! S j = Some b →
  isFlatListNode a = true → isFlatListNode b = true →
  skipped from j = false →
  transformPasted from slice !! j = Some a' →
  ∃ b', transformPasted from slice !! S j = Some b' ∧
    node_indent b' =
      Z.max 0 (Z.min (node_indent a' + 1)
                 (node_indent a' + (node_indent b - node_indent a))).
Proof.
  intros Hctx Ha Hb Hla Hlb Hskip Ha'.
  destruct (transformPasted_member from slice j a Hctx Ha Hla Hskip)
    as (out & Hout & _ & _ & Hdelta & Hlast).
  assert (out = a') as -> by congruence.
  destruct (transformPasted_member from slice (S j) b Hctx Hb Hlb eq_refl)
    as (b' & Hb' & Hind & _).
  exists b'. split; [done|]. rewrite Hind, Hlast. unfold shift_of at 1.
  rewrite Hdelta. simpl. f_equal. f_equal. lia.
Qed.

Lemma after_block_owned (from : ResolvedPos) (slice : list Node) (j : nat) (a b : Node) :
  0 ≤ contextIndent (initial from) →
  slice !! j = Some a → slice !! S j = Some b →
  isFlatListNode a = false → isFlatListNode b = true →
  ∃ b', transformPasted from slice !! S j = Some b' ∧ node_indent b' = 0.
Proof.
  intros Hctx Ha Hb Hla Hlb.
  destruct (transformPasted_member from slice (S j) b Hctx Hb Hlb eq_refl)
    as (b' & Hb' & Hind & _).
  exists b'. split; [done|]. rewrite Hind.
  rewrite (state_at_S from slice j a Ha), visit_not_list by done.
  unfold shift_of. simpl.
  pose proof (state_at_lastIndent from slice j (initial_lastIndent from Hctx)). lia.
Qed.

End OwnedClaims.

(** C5 (amended). In transformPasted, on a slice in which no list item shares
    its attributes object, every list item that the loop does not skip gets
    its shifted indent clamped into [0, lastIndent + 1]; the amount of the
    clamping is added to delta, the shift of the later items of the run, and
    lastIndent becomes the clamped value (for a paste target of non-negative
    indent).  The raw indents [0, 2, 3] pasted into a list item of indent 1
    give [1, 2, 3] at the start of its content, and [0, 2, 3] elsewhere,
    where the first node is skipped.  The raw indents [0, 5] pasted with
    context indent 0 give [0, 1], except when the target is not a list item
    and the first node is skipped: then lastIndent starts at -1 and the
    result is [0, 0]. *)
Theorem C5_paste_clamp (from : ResolvedPos) (h : Heap) (slice : list SliceNode) :
  0 ≤ contextIndent (initial from) →
  unshared h slice →
  (∀ i child,
     slice !! i = Some child → isFlatListNode (node_of h child) = true →
     skipped from i = false →
     ∃ out, transformPasted from h slice !! i = Some out ∧
       node_indent out =
         Z.max 0 (Z.min (lastIndent (state_at from h slice i) + 1)
                    (indent (attrs_of h child)
                     + shift_of (state_at from h slice i) (node_of h child))) ∧
       0 ≤ node_indent out ≤ lastIndent (state_at from h slice i) + 1 ∧
       delta (state_at from h slice (S i)) =
         Some (shift_of (state_at from h slice i) (node_of h child)
               + (node_indent out
                  - (indent (attrs_of h child)
                     + shift_of (state_at from h slice i) (node_of h child)))) ∧
       lastIndent (state_at from h slice (S i)) = node_indent out) ∧
  (Forall (λ n, isFlatListNode n = true) (node_of h <$> slice) →
   indents (node_of h <$> slice) = [0; 2; 3] →
   lastIndent (initial from) = 1 →
   indents (transformPasted from h slice) = [if at_node_start from then 1 else 0; 2; 3]) ∧
  (Forall (λ n, isFlatListNode n = true) (node_of h <$> slice) →
   indents (node_of h <$> slice) = [0; 5] →
   contextIndent (initial from) = 0 →
   indents (transformPasted from h slice) =
     [0; if at_node_start from || bool_decide (lastIndent (initial from) = 0) then 1 else 0]).
Proof.
  intros Hctx Hun.
  destruct (paste_clamp_owned from (node_of h <$> slice) Hctx) as (H1 & H2 & H3).
  rewrite (transformPasted_unshared from h slice Hun).
  split; [|by split].
  intros i child Hi Hl Hs. rewrite !(state_at_unshared from h slice _ Hun).
  apply (H1 i (node_of h child)); [|done..].
  by rewrite list_lookup_fmap, Hi.
Qed.

Lemma C5_witness :
  0 ≤ contextIndent (initial (mkPos 1 (item unordered 1) 11 10)) ∧
  unshared (own_heap (item ordered <$> [0; 2; 3])) (own_nodes (item ordered <$> [0; 2; 3])) ∧
  (Forall (λ n, isFlatListNode n = true)
     (node_of (own_heap (item ordered <$> [0; 2; 3]))
        <$> own_nodes (item ordered <$> [0; 2; 3])) →
   indents (node_of (own_heap (item ordered <$> [0; 2; 3]))
              <$> own_nodes (item ordered <$> [0; 2; 3])) = [0; 2; 3] →
   lastIndent (initial (mkPos 1 (item unordered 1) 11 10)) = 1 →
   indents (transformPasted (mkPos 1 (item unordered 1) 11 10)
              (own_heap (item ordered <$> [0; 2; 3]))
              (own_nodes (item ordered <$> [0; 2; 3])))
     = [if at_node_start (mkPos 1 (item unordered 1) 11 10) then 1 else 0; 2; 3]).
Proof.
  assert (0 ≤ contextIndent (initial (mkPos 1 (item unordered 1) 11 10))) as H
    by (vm_compute; discriminate).
  pose proof (unshared_own (item ordered <$> [0; 2; 3])) as Hun.
  split; [exact H|]. split; [exact Hun|].
  exact (proj1 (proj2 (C5_paste_clamp (mkPos 1 (item unordered 1) 11 10)
                         (own_heap (item ordered <$> [0; 2; 3]))
                         (own_nodes (item ordered <$> [0; 2; 3])) H Hun))).
Defined.

(** The claim C5 as stated fails for the raw indents [0, 5] (every node with
    attributes of its own) pasted with context indent 0 inside a paragraph,
    away from its start: the result is [0, 0], not [0, 1]. *)
Lemma C5_counterexample :
  contextIndent (initial paste_in_paragraph) = 0 ∧
  indents (transformPasted paste_in_paragraph (own_heap (item ordered <$> [0; 5]))
             (own_nodes (item ordered <$> [0; 5]))) = [0; 0] ∧
  indents (transformPasted paste_in_paragraph (own_heap (item ordered <$> [0; 5]))
             (own_nodes (item ordered <$> [0; 5]))) ≠ [0; 1].
Proof. split; [reflexivity|]. split; by vm_compute. Qed.

(** C8.  The loop skips the first node of the fragment when it is a list
    item and the paste is not at the very start of the content of the node
    around it, and does not assign to its indent.  The indent changes all
    the same when a later list item holds the same attributes object: of two
    list items created with the default attributes (indent 0), pasted
    inside a list item of indent 3 away from its start, the second gets the
    indent 3, written into the object that the first node holds too, and
    the first node comes out with indent 3. *)
Theorem C8_first_node_shared :
  at_node_start paste_in_item = false ∧
  (visit paste_in_item (initial paste_in_item) default_heap 0
     (mkSliceNode unorderedNodeName 0 [])).2 = default_heap ∧
  indents (node_of default_heap <$> default_nodes [unorderedNodeName; unorderedNodeName])
  = [0; 0] ∧
  indents (transformPasted paste_in_item default_heap
             (default_nodes [unorderedNodeName; unorderedNodeName]))
  = [3; 3].
Proof. repeat split; by vm_compute. Qed.





(** * The claims on parsing and on the serializer *)

(** C7. Folding three consecutive unordered items at indents [0, 1, 1] gives
    one outer ul with one li, which holds, after its own content, a nested ul
    with two li; parsing these lists again gives three unordered items with
    indents [0, 1, 1]. *)
Theorem C7_fold_roundtrip (usedFor : UsedFor) (a b c : list Inline) :
  let items := [unordered_item 0 a; unordered_item 1 b; unordered_item 1 c] in
  let lists := joined_0_1_1 usedFor (content_nodes (unordered_item 0 a))
                 (content_nodes (unordered_item 1 b)) (content_nodes (unordered_item 1 c)) in
  serializeFragment usedFor items = Some (inr lists) ∧
  (λ r : ListType * Attrs, (r.1, indent r.2)) <$> parse_fragment lists
    = [(unordered, 0); (unordered, 1); (unordered, 1)].
Proof.
  destruct usedFor, a, b, c; split; vm_compute; reflexivity.
Qed.

(** *** A test for trees *)

Lemma NoDup_bind_inv {A B} (f : A → list B) (l : list A) :
  NoDup l → NoDup (l ≫= f) →
  (∀ a, a ∈ l → NoDup (f a)) ∧
  (∀ a b c, a ∈ l → b ∈ l → c ∈ f a → c ∈ f b → a = b).
Proof.
  induction l as [|a0 l IH]; intros Hl Hnd.
  - split; intros; by decompose_list_elem_of.
  - apply NoDup_cons in Hl as [Ha0 Hl].
    change ((a0 :: l) ≫= f) with (f a0 ++ (l ≫= f)) in Hnd.
    apply NoDup_app in Hnd as (Hfa & Hdis & Hrest).
    destruct (IH Hl Hrest) as [IH1 IH2]. split.
    + intros a [->|Ha]%elem_of_cons; [done|by apply IH1].
    + intros a b c [->|Ha]%elem_of_cons [->|Hb]%elem_of_cons Hca Hcb; try done.
      * destruct (Hdis c Hca). apply list_elem_of_bind. by exists b.
      * destruct (Hdis c Hcb). apply list_elem_of_bind. by exists a.
      * by apply (IH2 a b c).
Qed.

Lemma treeb_tree (dom : Dom.Dom) (doc : nat) : treeb dom doc = true → tree dom doc.
Proof.
  unfold treeb. intros [Hnd Hdoc]%andb_true_iff.
  apply bool_decide_eq_true in Hnd, Hdoc.
  destruct (NoDup_bind_inv (λ kv : nat * Dom.DomNode, Dom.childNodes kv.2)
              (map_to_list dom) (NoDup_map_to_list dom) Hnd) as [H1 H2].
  assert (∀ p c, c ∈ Dom.childNodesOf dom p →
            ∃ n, (p, n) ∈ map_to_list dom ∧ c ∈ Dom.childNodes n) as Hin.
  { intros p c. unfold Dom.childNodesOf. destruct (dom !! p) as [n|] eqn:E.
    - intros Hc. exists n. split; [by apply elem_of_map_to_list|done].
    - by intros ?%elem_of_nil. }
  split; [|split].
  - intros p. unfold Dom.childNodesOf. destruct (dom !! p) as [n|] eqn:E.
    + apply (H1 (p, n)). by apply elem_of_map_to_list.
    + constructor.
  - intros p1 p2 c (n1 & Hn1 & Hc1)%Hin (n2 & Hn2 & Hc2)%Hin.
    by injection (H2 (p1, n1) (p2, n2) c Hn1 Hn2 Hc1 Hc2).
  - intros p (n & Hn & Hc)%Hin. apply Hdoc. apply list_elem_of_bind. by exists (p, n).
Qed.

(** C9. joinListElements ends, and when it returns without an exception the
    LI of every list wrapper that it was given has lost the data-list-indent
    attribute for getHTML, and for the clipboard has kept that attribute as
    it was and has lost its style attribute. *)
Theorem C9_indent_attribute (usedFor : UsedFor) (doc : nat) (dom0 : Dom.Dom) :
  tree dom0 doc →
  ∃ result, joinListElements usedFor doc dom0 = Some result ∧
    ∀ dom', result = inr dom' →
      ∀ block liChild,
        block ∈ Dom.children dom0 doc →
        getElementListType dom0 block ≠ None →
        Dom.firstChild dom0 block = Some liChild →
        match usedFor with
        | getHTML => Dom.getAttribute dom' liChild "data-list-indent" = None
        | clipboard =>
            Dom.getAttribute dom' liChild "data-list-indent"
              = Dom.getAttribute dom0 liChild "data-list-indent" ∧
            Dom.styleOf dom' liChild = None
        end.
Proof.
  intros Htree.
  destruct (joinListElements_spec usedFor doc dom0 Htree) as (r & Hr & Hspec).
  exists r. split; [exact Hr|].
  intros dom' -> block liChild Hblock Hty Hfirst.
  destruct (Hspec dom' eq_refl) as (_ & Hattrs & Hclean).
  pose proof (Hclean block liChild Hblock Hty Hfirst) as Hc.
  unfold cleaned in Hc. destruct usedFor; [done|].
  split; [|done]. destruct Hattrs as (_ & _ & Hdli). by apply Hdli.
Qed.

Lemma C9_witness :
  tree one_list 0%nat ∧
  ∃ result, joinListElements clipboard 0%nat one_list = Some result ∧
    ∀ dom', result = inr dom' →
      ∀ block liChild,
        block ∈ Dom.children one_list 0%nat →
        getElementListType one_list block ≠ None →
        Dom.firstChild one_list block = Some liChild →
        Dom.getAttribute dom' liChild "data-list-indent"
          = Dom.getAttribute one_list liChild "data-list-indent" ∧
        Dom.styleOf dom' liChild = None.
Proof.
  assert (tree one_list 0%nat) as H by (apply treeb_tree; vm_compute; reflexivity).
  split; [exact H|]. exact (C9_indent_attribute clipboard 0%nat one_list H).
Defined.

(** C10. computeIndent returns the data-list-indent attribute as parsed
    whenever it parses as an integer, negative ones included; the floor at 0
    is for the count of the list ancestors only.  So an LI with
    data-list-indent="-3" inside an OL is parsed as an ordered item of
    indent -3. *)
Theorem C10_computeIndent_stored_verbatim (ancestors : list HtmlNode) (element : HtmlNode) :
  (∀ storedIndent,
     parseIntegerAttr (Html.getAttribute element "data-list-indent") = Some storedIndent →
     computeIndent ancestors element = storedIndent) ∧
  (parseIntegerAttr (Html.getAttribute element "data-list-indent") = None →
     computeIndent ancestors element = Z.max (countListAncestors (-1) ancestors) 0 ∧
     0 ≤ computeIndent ancestors element) ∧
  parseIntegerAttr (Some "-3") = Some (-3) ∧
  computeIndent [HElement "OL" [] None []]
    (HElement "LI" [("data-list-indent", "-3")] None [HText "x"]) = -3 ∧
  (λ r : ListType * Attrs, (r.1, indent r.2))
    (parse_li [HElement "OL" [] None []]
       (HElement "LI" [("data-list-indent", "-3")] None [HText "x"]))
  = (ordered, -3).
Proof.
  split; [|split; [|split; [|split]]].
  - intros storedIndent H. unfold computeIndent. by rewrite H.
  - intros H. unfold computeIndent. rewrite H. split; [done|lia].
  - reflexivity.
  - reflexivity.
  - reflexivity.
Qed.

(** * From the store back to trees *)

Section ToHtmlFacts.
Import Dom.

Lemma to_html_subnode depth : ∀ (dom : Dom) id t tag a s cs,
  to_html depth dom id = Some t → subnode (HElement tag a s cs) t →
  ∃ x n, dom !! x = Some n ∧ nodeType n ≠ TextNode ∧
         tagName n = tag ∧ attributes n = a ∧ style n = s.
Proof.
  induction depth as [|depth IH]; intros dom id t tag a s cs Ht Hsub; [done|].
  cbn [to_html] in Ht.
  destruct (dom !! id) as [n|] eqn:En; [|done]. cbn [mbind option_bind] in Ht.
  assert (nodeType n ≠ TextNode →
          ∃ ks, mapM (to_html depth dom) (childNodes n) = Some ks ∧
                t = HElement (tagName n) (attributes n) (style n) ks) as Hel.
  { intros Hty. destruct (nodeType n); [|done|];
      (destruct (mapM (to_html depth dom) (childNodes n)) as [ks|]; [|done]);
      cbn [mbind option_bind] in Ht; injection Ht as <-; by exists ks. }
  destruct (decide (nodeType n = TextNode)) as [Hty|Hty].
  { rewrite Hty in Ht. injection Ht as <-. inversion Hsub. }
  destruct (Hel Hty) as (ks & Hks & ->).
  inversion Hsub as [Heq|c tag' a' s' cs' Hc Hsub' Heq]; subst.
  - exists id, n. done.
  - apply mapM_Some in Hks.
    apply list_elem_of_lookup in Hc as [j Hj].
    destruct (Forall2_lookup_r _ _ _ _ _ Hks Hj) as (cid & _ & Hcid).
    by apply (IH dom cid c tag a s cs).
Qed.

(** In what serializeFragment returns, an LI at any depth has no
    data-list-indent attribute for getHTML; for the clipboard it has the
    indent of a node of the fragment as its data-list-indent attribute, and
    no style attribute. *)
Theorem serializeFragment_list_items (usedFor : UsedFor) (fragment : list Node)
    (nodes : list HtmlNode) :
  serializeFragment usedFor fragment = Some (inr nodes) →
  ∀ t a s cs, t ∈ nodes → subnode (HElement "LI" a s cs) t →
    match usedFor with
    | getHTML => lookup_attr "data-list-indent" a = None
    | clipboard =>
        (∃ node, node ∈ fragment ∧
           lookup_attr "data-list-indent" a = Some (pretty (node_indent node))) ∧
        s = None
    end.
Proof.
  unfold serializeFragment. intros Hser t a s cs Ht Hsub.
  destruct (joinListElements_spec usedFor 0%nat (Dom.fragment (renderHTML <$> fragment))
              (tree_fragment _)) as (result & Hjoin & Hspec).
  rewrite Hjoin in Hser. destruct result as [e|dom']; [done|].
  destruct (Hspec dom' eq_refl) as (Hstatic & Hattrs & Hclean).
  destruct (innerHTML dom' 0%nat) as [nodes'|] eqn:Einner; [|done].
  injection Hser as ->.
  unfold innerHTML in Einner. apply mapM_Some in Einner.
  apply list_elem_of_lookup in Ht as [j Hj].
  destruct (Forall2_lookup_r _ _ _ _ _ Einner Hj) as (id & _ & Hid).
  destruct (to_html_subnode _ dom' id t "LI" a s cs Hid Hsub)
    as (x & n & Hx & Hty & Htag & Ha & Hs).
  pose proof (Hstatic x) as Hsx. unfold static in Hsx. rewrite Hx in Hsx.
  destruct (Dom.fragment (renderHTML <$> fragment) !! x) as [n0|] eqn:Ex0; [|done].
  cbn [fmap option_fmap option_map] in Hsx. injection Hsx as _ Htag0 _.
  destruct (fragment_renderHTML fragment x n0 Ex0 ltac:(congruence))
    as (block & node & Hblock & Hnode & Hty0 & Hfirst & Hdli).
  pose proof (Hclean block x Hblock Hty0 Hfirst) as Hc.
  unfold cleaned, getAttribute, styleOf in Hc. rewrite Hx in Hc.
  cbn [mbind option_bind] in Hc. destruct usedFor.
  - by rewrite <- Ha.
  - split; [|congruence]. exists node. split; [done|].
    destruct Hattrs as (_ & _ & Hkeep). specialize (Hkeep eq_refl x).
    rewrite Hdli in Hkeep. unfold getAttribute in Hkeep. rewrite Hx in Hkeep.
    cbn [mbind option_bind] in Hkeep. by rewrite <- Ha.
Qed.

End ToHtmlFacts.

(** * More on the postprocessor *)

Section PostprocessorMore.

Implicit Types (node : Node) (lc : JsArray.t Z) (doc : list Node).

Lemma counter_step_error lc node :
  (bad_indent node = true → counter_step lc node = inl JsArray.RangeError) ∧
  (bad_indent node = false → ∃ r, counter_step lc node = inr r).
Proof.
  unfold bad_indent, counter_step, JsArray.set_length, JsArray.max_length.
  destruct (isFlatListNode node); simpl; [|split; [done|eauto]].
  destruct (decide (type_name node = orderedNodeName)).
  - replace (0 <=? node_indent node + 1) with (-1 <=? node_indent node)
      by (apply eq_true_iff_eq; rewrite !Z.leb_le; lia).
    replace (node_indent node + 1 <=? 4294967295) with (node_indent node <=? 4294967294)
      by (apply eq_true_iff_eq; rewrite !Z.leb_le; lia).
    destruct (_ && _); simpl; split; try done; eauto.
  - destruct (_ && _); simpl; split; try done; eauto.
Qed.

Lemma counter_scan_error nodes : ∀ lc,
  (Exists (λ node, bad_indent node = true) nodes →
     counter_scan lc nodes = inl JsArray.RangeError) ∧
  (Forall (λ node, bad_indent node = false) nodes → ∃ rs, counter_scan lc nodes = inr rs).
Proof.
  induction nodes as [|node rest IH]; intros lc.
  - split; [by intros ?%Exists_nil|]. intros _. simpl. eauto.
  - cbn [counter_scan]. destruct (counter_step_error lc node) as [Hbad Hgood].
    destruct (bad_indent node) eqn:Eb.
    + split; [|intros [? _]%Forall_cons; congruence]. intros _. by rewrite Hbad.
    + destruct (Hgood eq_refl) as [r Hr]. rewrite Hr. cbn [JsArray.bind].
      destruct (IH r.1) as [IH1 IH2]. split.
      * intros [?|Hex]%Exists_cons; [congruence|]. by rewrite (IH1 Hex).
      * intros [_ Hall]%Forall_cons. destruct (IH2 Hall) as [rs Hrs].
        rewrite Hrs. simpl. eauto.
Qed.

Lemma counter_scan_length nodes : ∀ lc rs,
  counter_scan lc nodes = inr rs → length rs.1 = length nodes.
Proof.
  induction nodes as [|node rest IH]; intros lc rs H.
  - cbn in H. unfold JsArray.ret in H. by simplify_eq.
  - cbn [counter_scan] in H.
    destruct (counter_step lc node) as [e|r]; [done|]. cbn [JsArray.bind] in H.
    destruct (counter_scan r.1 rest) as [e|rs'] eqn:E; [done|].
    cbn [JsArray.bind JsArray.ret] in H. unfold JsArray.ret in H. simplify_eq.
    simpl. f_equal. by apply (IH r.1).
Qed.

Lemma counter_scan_not_ordered nodes : ∀ lc rs pos node,
  counter_scan lc nodes = inr rs → nodes !! pos = Some node →
  type_name node ≠ orderedNodeName → rs.1 !! pos = Some None.
Proof.
  induction nodes as [|n rest IH]; intros lc rs pos node H Hpos Hty; [done|].
  cbn [counter_scan] in H.
  destruct (counter_step lc n) as [e|r] eqn:Er; [done|]. cbn [JsArray.bind] in H.
  destruct (counter_scan r.1 rest) as [e|rs'] eqn:E; [done|].
  cbn [JsArray.bind JsArray.ret] in H. unfold JsArray.ret in H. simplify_eq.
  destruct pos as [|pos]; simpl in *.
  - simplify_eq. unfold counter_step in Er.
    destruct (isFlatListNode node); [|by unfold JsArray.ret in Er; simplify_eq].
    destruct (decide (type_name node = orderedNodeName)); [done|].
    destruct (JsArray.set_length _ _); [done|].
    cbn [JsArray.bind] in Er. unfold JsArray.ret in Er. by simplify_eq.
  - by apply (IH r.1 rs' pos node).
Qed.

Lemma propped_positions_elem nodes : ∀ pos j,
  j ∈ propped_positions pos nodes ↔
    (pos ≤ j)%nat ∧ ∃ node, nodes !! (j - pos)%nat = Some node ∧ is_propped node = true.
Proof.
  induction nodes as [|n rest IH]; intros pos j.
  - simpl. split; [by intros ?%elem_of_nil|]. by intros (_ & ? & ? & _).
  - cbn [propped_positions]. rewrite elem_of_app, IH. split.
    + intros [Hj|(Hle & node & Hn & Hp)].
      * destruct (is_propped n) eqn:Ep; [|by apply elem_of_nil in Hj].
        apply list_elem_of_singleton in Hj as ->. split; [lia|].
        exists n. by rewrite Nat.sub_diag.
      * split; [lia|]. exists node. split; [|done].
        replace (j - pos)%nat with (S (j - S pos)) by lia. done.
    + intros (Hle & node & Hn & Hp). destruct (decide (j = pos)) as [->|Hne].
      * left. rewrite Nat.sub_diag in Hn. simpl in Hn. simplify_eq.
        rewrite Hp. by apply list_elem_of_singleton.
      * right. split; [lia|]. exists node. split; [|done].
        replace (j - pos)%nat with (S (j - S pos)) in Hn by lia. done.
Qed.

Lemma propped_positions_NoDup nodes : ∀ pos, NoDup (propped_positions pos nodes).
Proof.
  induction nodes as [|n rest IH]; intros pos; [constructor|].
  cbn [propped_positions]. apply NoDup_app. split; [|split; [|apply IH]].
  - destruct (is_propped n); [apply NoDup_singleton|constructor].
  - intros j Hj. destruct (is_propped n); [|by apply elem_of_nil in Hj].
    apply list_elem_of_singleton in Hj as ->.
    rewrite propped_positions_elem. lia.
Qed.

Lemma propped_positions_nil nodes pos :
  propped_positions pos nodes = [] ↔ Forall (λ node, is_propped node = false) nodes.
Proof.
  revert pos. induction nodes as [|n rest IH]; intros pos.
  - split; [constructor|done].
  - cbn [propped_positions]. rewrite Forall_cons, <- (IH (S pos)).
    destruct (is_propped n); simpl; [split; [done|by intros [? _]]|].
    split; [done|by intros [_ ?]].
Qed.

Lemma foldl_delete_first_inline_lookup (positions : list nat) : ∀ (tr : list Node) j,
  NoDup positions →
  foldl delete_first_inline tr positions !! j =
    (if decide (j ∈ positions) then cut_first else id) <$> tr !! j.
Proof.
  induction positions as [|p ps IH]; intros tr j Hnd.
  - cbn [foldl]. destruct (decide (j ∈ [])) as [H%elem_of_nil|_]; [done|].
    by destruct (tr !! j).
  - apply NoDup_cons in Hnd as [Hp Hnd]. cbn [foldl]. rewrite IH by done.
    unfold delete_first_inline. destruct (decide (p = j)) as [->|Hne].
    + rewrite list_lookup_alter_eq, decide_False by done.
      rewrite decide_True by apply list_elem_of_here. by destruct (tr !! j).
    + rewrite list_lookup_alter_ne by done.
      destruct (decide (j ∈ ps)) as [Hin|Hnin].
      * by rewrite decide_True by (by apply list_elem_of_further).
      * rewrite decide_False; [done|]. intros [?|?]%elem_of_cons; by simplify_eq.
Qed.

(** The document after a pass, node by node. *)
Lemma after_lookup doc result pos node :
  appendTransaction doc = inr result → doc !! pos = Some node →
  ∃ rs cv, counter_scan JsArray.empty doc = inr rs ∧ rs.1 !! pos = Some cv ∧
    after doc result !! pos =
      Some ((if is_propped node then cut_first else id) (post cv node)).
Proof.
  rewrite appendTransaction_eq. intros Hrun Hpos.
  destruct (counter_scan JsArray.empty doc) as [e|rs] eqn:Escan; [done|].
  cbn [JsArray.bind JsArray.ret] in Hrun. unfold JsArray.ret in Hrun.
  pose proof (counter_scan_length _ _ _ Escan) as Hlen.
  destruct (lookup_lt_is_Some_2 rs.1 pos) as [cv Hcv].
  { rewrite Hlen. by apply lookup_lt_Some in Hpos. }
  exists rs, cv. split; [done|]. split; [done|].
  assert (foldl delete_first_inline (zip_with post rs.1 doc)
            (reverse (propped_positions 0 doc)) !! pos
          = Some ((if is_propped node then cut_first else id) (post cv node))) as Hfold.
  { rewrite foldl_delete_first_inline_lookup
      by (rewrite reverse_Permutation; apply propped_positions_NoDup).
    rewrite lookup_zip_with, Hcv, Hpos. simpl.
    destruct (is_propped node) eqn:Ep.
    - rewrite decide_True; [done|]. rewrite elem_of_reverse, propped_positions_elem.
      split; [lia|]. exists node. by rewrite Nat.sub_0_r.
    - rewrite decide_False; [done|]. rewrite elem_of_reverse, propped_positions_elem.
      intros (_ & n & Hn & Hp). rewrite Nat.sub_0_r in Hn. congruence. }
  unfold after. destruct (_ || _) eqn:E; simplify_eq; simpl; [done|].
  apply orb_false_iff in E as [E1 E2].
  apply bool_decide_eq_false in E1, E2. apply dec_stable in E1, E2.
  rewrite E1, E2 in Hfold. simpl in Hfold. done.
Qed.

(** X1. The pass of the postprocessor keeps the number of nodes and, for
    every node, its type, its indent, its checked attribute and, unless the
    node is an ordered item, its counter.  The content of a node is kept too,
    except that a propped list item loses its first inline.  A node that is
    not a list item is not touched at all. *)
Theorem appendTransaction_keeps_structure (doc : Doc) (result : option Doc) :
  appendTransaction doc = inr result →
  length (after doc result) = length doc ∧
  ∀ pos node, doc !! pos = Some node →
    ∃ node', after doc result !! pos = Some node' ∧
      type_name node' = type_name node ∧
      node_indent node' = node_indent node ∧
      checked (attrs node') = checked (attrs node) ∧
      content node' = (if is_propped node then drop 1 (content node) else content node) ∧
      (type_name node ≠ orderedNodeName → counter (attrs node') = counter (attrs node)) ∧
      (isFlatListNode node = false → node' = node).
Proof.
  intros Hrun. split.
  - destruct (after_meta doc result Hrun) as (rs & Hscan & Hmeta).
    apply (f_equal length) in Hmeta.
    rewrite !length_fmap, length_zip_with, (counter_scan_length _ _ _ Hscan) in Hmeta. lia.
  - intros pos node Hpos.
    destruct (after_lookup doc result pos node Hrun Hpos) as (rs & cv & Hscan & Hcv & Hafter).
    eexists. split; [exact Hafter|].
    assert (type_name node ≠ orderedNodeName → cv = None) as Hnone.
    { intros Hty. pose proof (counter_scan_not_ordered _ _ _ _ _ Hscan Hpos Hty). congruence. }
    unfold is_propped, post, cut_first, node_indent, set_node_attrs.
    destruct (isFlatListNode node) eqn:El; simpl.
    + destruct (_isTempPropped (attrs node)); simpl;
        (repeat split; try done; [by destruct cv|by destruct cv|]);
        intros Hty; by rewrite (Hnone Hty).
    + done.
Qed.

Lemma appendTransaction_keeps_structure_witness :
  appendTransaction
    [mkNode orderedNodeName (mkAttrs 0 5 false true) ["x"%char; "y"%char];
     mkNode (otherNodeName "paragraph") defaultAttrs ["z"%char]]
  = inr (Some [mkNode orderedNodeName (mkAttrs 0 1 false false) ["y"%char];
               mkNode (otherNodeName "paragraph") defaultAttrs ["z"%char]]) ∧
  length (after
            [mkNode orderedNodeName (mkAttrs 0 5 false true) ["x"%char; "y"%char];
             mkNode (otherNodeName "paragraph") defaultAttrs ["z"%char]]
            (Some [mkNode orderedNodeName (mkAttrs 0 1 false false) ["y"%char];
                   mkNode (otherNodeName "paragraph") defaultAttrs ["z"%char]])) = 2%nat.
Proof.
  assert (appendTransaction
    [mkNode orderedNodeName (mkAttrs 0 5 false true) ["x"%char; "y"%char];
     mkNode (otherNodeName "paragraph") defaultAttrs ["z"%char]]
  = inr (Some [mkNode orderedNodeName (mkAttrs 0 1 false false) ["y"%char];
               mkNode (otherNodeName "paragraph") defaultAttrs ["z"%char]])) as H
    by (vm_compute; reflexivity).
  split; [exact H|].
  exact (proj1 (appendTransaction_keeps_structure _ _ H)).
Defined.


Lemma post_id_iff cv node :
  post cv node = node ↔
    (isFlatListNode node = true →
       _isTempPropped (attrs node) = false ∧ ∀ c, cv = Some c → counter (attrs node) = c).
Proof.
  unfold post. destruct (isFlatListNode node); [|by split].
  destruct node as [ty [i c chk p] cs]. unfold set_node_attrs. simpl. split.
  - intros H _. destruct cv; simpl in H; simplify_eq; split; try done; by intros ? [= <-].
  - intros H. destruct (H eq_refl) as [-> Hc]. destruct cv as [c'|]; simpl; [|done].
    by rewrite (Hc c' eq_refl).
Qed.

Lemma zip_with_post_id cvs : ∀ doc,
  length cvs = length doc →
  zip_with post cvs doc = doc ↔
    ∀ pos cv node, cvs !! pos = Some cv → doc !! pos = Some node → post cv node = node.
Proof.
  induction cvs as [|cv cvs IH]; intros [|node doc] Hlen; try done.
  simpl in Hlen. injection Hlen as Hlen. simpl. split.
  - intros [= H1 H2] [|pos] cv' node' Hcv Hnode; simpl in *; simplify_eq; [done|].
    by apply (proj1 (IH doc Hlen) H2 pos).
  - intros H. f_equal; [by apply (H 0%nat)|].
    apply IH; [done|]. intros pos. apply (H (S pos)).
Qed.



Lemma spec_counters_lookup doc : ∀ records p a,
  doc !! p = Some a →
  spec_counters records doc !! p
    = Some (spec_visit (records_after records (take p doc)) a).2 ∧
  records_after records (take (S p) doc)
    = (spec_visit (records_after records (take p doc)) a).1.
Proof.
  induction doc as [|n rest IH]; intros records p a Hp; [done|].
  cbn [spec_counters]. destruct (spec_visit records n) as [records1 cv] eqn:E.
  destruct p as [|p]; simpl in Hp.
  - simplify_eq. cbn. rewrite take_0. cbn. by rewrite E.
  - destruct (IH records1 p a Hp) as [H1 H2]. cbn [take]. unfold records_after in *.
    cbn [foldl lookup list_lookup]. rewrite E. cbn [fst]. split; [exact H1|exact H2].
Qed.

(** The counter that the pass leaves on an ordered item is the one of the
    scan. *)
Lemma after_counter doc result pos node node' :
  Forall (λ node, isFlatListNode node = true → 0 ≤ node_indent node ≤ 4294967294) doc →
  appendTransaction doc = inr result →
  doc !! pos = Some node → type_name node = orderedNodeName →
  after doc result !! pos = Some node' →
  spec_counters ∅ doc !! pos = Some (Some (counter (attrs node'))).
Proof.
  intros Hb Hrun Hpos Hty Hafter.
  destruct (counter_scan_spec doc JsArray.empty ∅ holds_empty Hb) as (lc' & Hscan).
  destruct (after_lookup doc result pos node Hrun Hpos) as (rs & cv & Hscan' & Hcv & Ha).
  rewrite Hscan in Hscan'. simplify_eq. cbn [fst] in Hcv.
  destruct (spec_counters_ordered doc ∅ pos node Hpos Hty) as [c Hc].
  rewrite Hc in Hcv. simplify_eq. rewrite Hc. do 2 f_equal.
  unfold post, isFlatListNode, getListType. rewrite Hty. simpl.
  by destruct (is_propped node).
Qed.



End PostprocessorMore.


(** * More on the commands *)
Section CommandsMore.

Implicit Types (doc tr : Doc) (node n : Node) (pos : nat).

Lemma visited_elem doc ranges pos node :
  (pos, node) ∈ visited doc ranges ↔
    doc !! pos = Some node ∧
    ∃ range, range ∈ ranges ∧ (range.1 ≤ pos < range.1 + range.2)%nat.
Proof.
  unfold visited, nodesBetween. rewrite list_elem_of_bind. split.
  - intros (range & Hin & Hrange). apply list_elem_of_omap in Hin as (k & Hk & Hlook).
    apply elem_of_seq in Hk. destruct (doc !! k) as [n|] eqn:E; [|done].
    simpl in Hlook. simplify_eq. split; [done|]. exists range. split; [done|lia].
  - intros (Hpos & range & Hrange & Hle). exists range. split; [|done].
    apply list_elem_of_omap. exists pos. split; [apply elem_of_seq; lia|].
    by rewrite Hpos.
Qed.

Lemma dedent_visit_applicable canConvert st v :
  d_applicable (dedent_visit canConvert st v)
    = dedent_applies canConvert v.2 || d_applicable st.
Proof.
  destruct v as [pos node]. unfold dedent_visit, dedent_applies. simpl.
  destruct (isFlatListNode node); [|done]. simpl.
  destruct (0 <? node_indent node); [done|]. by destruct canConvert.
Qed.

Lemma dedent_fold_applicable canConvert vs : ∀ st,
  d_applicable (foldl (dedent_visit canConvert) st vs)
    = d_applicable st || existsb (λ v, dedent_applies canConvert v.2) vs.
Proof.
  induction vs as [|v vs IH]; intros st; simpl; [by rewrite orb_false_r|].
  rewrite IH, dedent_visit_applicable.
  destruct (dedent_applies canConvert v.2), (d_applicable st); done.
Qed.

(** X5. dedentFlatListItem is applicable exactly when a selection range
    meets a list item that has a positive indent, or any list item at all
    when canConvert is set.  When it is not applicable the document is as it
    was. *)
Theorem dedentFlatListItem_applicable (canConvert : bool) (doc : Doc)
    (ranges : list Range) :
  ((dedentFlatListItem canConvert doc ranges).2 = true ↔
     ∃ pos node range, doc !! pos = Some node ∧ range ∈ ranges ∧
       (range.1 ≤ pos < range.1 + range.2)%nat ∧
       isFlatListNode node = true ∧ (0 < node_indent node ∨ canConvert = true)) ∧
  ((dedentFlatListItem canConvert doc ranges).2 = false →
     (dedentFlatListItem canConvert doc ranges).1 = doc).
Proof.
  unfold dedentFlatListItem.
  pose proof (dedent_fold_applicable canConvert (visited doc ranges)
                (mkDedent doc false None)) as Happ.
  cbn [d_applicable orb] in Happ.
  destruct (d_applicable _) eqn:Ea.
  - split; [|by destruct (d_lastDedented _)].
    assert (∃ pos node range, doc !! pos = Some node ∧ range ∈ ranges ∧
              (range.1 ≤ pos < range.1 + range.2)%nat ∧
              isFlatListNode node = true ∧ (0 < node_indent node ∨ canConvert = true)) as H.
    { symmetry in Happ. apply existsb_exists in Happ as ([pos node] & Hin & Hv).
      apply list_elem_of_In, visited_elem in Hin as (Hpos & range & Hr & Hle).
      unfold dedent_applies in Hv. simpl in Hv.
      apply andb_true_iff in Hv as [Hl Hv]. apply orb_true_iff in Hv.
      exists pos, node, range. repeat split; try done; try lia.
      destruct Hv as [Hv%Z.ltb_lt|Hv]; [by left|by right]. }
    by destruct (d_lastDedented _).
  - split; [|done]. split; [done|].
    intros (pos & node & range & Hpos & Hr & Hle & Hl & Hv).
    assert (existsb (λ v, dedent_applies canConvert v.2) (visited doc ranges) = true) as Hex.
    { apply existsb_exists. exists (pos, node). split.
      - apply list_elem_of_In, visited_elem. split; [done|]. by exists range.
      - unfold dedent_applies. simpl. rewrite Hl. simpl.
        destruct Hv as [Hv%Z.ltb_lt|Hv]; [by rewrite Hv|]. rewrite Hv. apply orb_true_r. }
    congruence.
Qed.

(** X6. What dedentFlatListItem does to the nodes, for a selection of one
    range: the number of nodes and every content stay; a node that is not a
    list item stays as it is; the indent of a list item stays or goes down by
    1; without canConvert every node keeps its type and all its attributes
    but the indent; and when no list item of the document has a negative
    indent, none has one afterwards. *)
Theorem dedentFlatListItem_effect (canConvert : bool) (doc : Doc) (lo len : nat) :
  let res := dedentFlatListItem canConvert doc [(lo, len)] in
  length res.1 = length doc ∧
  ∀ j n, doc !! j = Some n →
    ∃ n', res.1 !! j = Some n' ∧
      content n' = content n ∧
      (isFlatListNode n = false → n' = n) ∧
      (isFlatListNode n' = true →
         isFlatListNode n = true ∧ node_indent n - 1 ≤ node_indent n' ≤ node_indent n) ∧
      (canConvert = false →
         n' = set_node_attrs (with_indent (attrs n) (node_indent n')) n) ∧
      (Forall (λ n, isFlatListNode n = true → 0 ≤ node_indent n) doc →
         isFlatListNode n' = true → 0 ≤ node_indent n').
Proof.
  intros res.
  assert (∀ n, n = set_node_attrs (with_indent (attrs n) (node_indent n)) n) as Hsame.
  { intros [ty [i c chk p] cs]. done. }
  assert (∀ c n,
    content (dedent1 c n) = content n ∧
    (isFlatListNode n = false → dedent1 c n = n) ∧
    (isFlatListNode (dedent1 c n) = true →
       isFlatListNode n = true ∧
       node_indent n - 1 ≤ node_indent (dedent1 c n) ≤ node_indent n) ∧
    (c = false →
       dedent1 c n = set_node_attrs (with_indent (attrs n) (node_indent (dedent1 c n))) n) ∧
    ((isFlatListNode n = true → 0 ≤ node_indent n) →
       isFlatListNode (dedent1 c n) = true → 0 ≤ node_indent (dedent1 c n))) as Hd1.
  { intros c n. split; [|split; [|split; [|split]]].
    - unfold dedent1. destruct (isFlatListNode n); [|done].
      destruct (0 <? node_indent n); [done|]. by destruct c.
    - apply dedent1_not_list.
    - intros Hl. destruct (dedent1_list c n Hl) as [? [[? ->]|[? ->]]]; split; (done || lia).
    - intros ->. unfold dedent1. destruct (isFlatListNode n); [|apply Hsame].
      destruct (0 <? node_indent n); [|apply Hsame].
      by rewrite node_indent_set_indent.
    - intros Hn Hl. destruct (dedent1_list c n Hl) as [Hl' [[? ->]|[? ->]]]; [lia|].
      by apply Hn. }
  destruct (dedent_single_range canConvert doc lo len)
    as [[_ Hdoc]|(_ & p & nodeP & r & Hp & Hlp & Hrange & _ & Hrun & _ & Hres)];
    fold res in Hdoc || fold res in Hres.
  - rewrite Hdoc. split; [done|]. intros j n Hj. exists n.
    split; [done|]. split; [done|]. split; [done|]. split; [split; [done|lia]|].
    split; [intros _; apply Hsame|].
    intros Hall Hl. by apply (proj1 (Forall_lookup _ _) Hall j n).
  - split.
    + apply Nat.le_antisymm.
      * destruct (decide (length res.1 ≤ length doc)%nat) as [|Hgt]; [done|].
        destruct (lookup_lt_is_Some_2 res.1 (length doc)) as [x Hx]; [lia|].
        rewrite Hres in Hx. rewrite (lookup_ge_None_2 doc (length doc)) in Hx by lia.
        by repeat case_decide.
      * destruct (decide (length doc ≤ length res.1)%nat) as [|Hgt]; [done|].
        destruct (lookup_lt_is_Some_2 doc (length res.1)) as [x Hx]; [lia|].
        pose proof (Hres (length res.1)) as H. rewrite Hx in H.
        rewrite (lookup_ge_None_2 res.1 (length res.1)) in H by lia.
        by repeat case_decide.
    + intros j n Hj. specialize (Hres j). rewrite Hj in Hres. simpl in Hres.
      destruct (Hd1 canConvert n) as (D1 & D2 & D3 & D4 & D5).
      case_decide as H1; [|case_decide as H2].
      * exists (dedent1 canConvert n). split; [done|]. split; [done|].
        split; [done|]. split; [done|]. split; [done|].
        intros Hall. apply D5. apply (proj1 (Forall_lookup _ _) Hall j n Hj).
      * destruct (Hrun j H2) as (n0 & Hn0 & Hl0 & Hlt).
        assert (n0 = n) as -> by congruence.
        exists (dec n). split; [done|]. split; [done|].
        split; [intros ?; congruence|]. rewrite node_indent_dec.
        split; [intros _; split; [done|lia]|]. split; [done|].
        intros Hall _.
        pose proof (proj1 (Forall_lookup _ _) Hall p nodeP Hp Hlp). lia.
      * exists n. split; [done|]. split; [done|]. split; [done|].
        split; [intros ?; split; [done|lia]|]. split; [intros _; apply Hsame|].
        intros Hall Hl. by apply (proj1 (Forall_lookup _ _) Hall j n).
Qed.

Lemma nodesBetween_one doc p node :
  doc !! p = Some node → nodesBetween doc (p, 1%nat) = [(p, node)].
Proof. intros H. unfold nodesBetween. simpl. by rewrite H. Qed.

(** X7. Indenting one list item and dedenting it again gives the document
    back: when the document satisfies the staircase invariant, the item at
    [p] has a non-negative indent and indentFlatListItem applies to it, then
    dedentFlatListItem on the same selection restores the document. *)
Theorem indent_then_dedent (doc : Doc) (p : nat) (node : Node) :
  staircase doc →
  doc !! p = Some node → isFlatListNode node = true → 0 ≤ node_indent node →
  (indentFlatListItem doc [(p, 1%nat)]).2 = true →
  dedentFlatListItem false (indentFlatListItem doc [(p, 1%nat)]).1 [(p, 1%nat)]
    = (doc, true).
Proof.
  intros Hst Hp Hl Hi Happ.
  assert ((indentFlatListItem doc [(p, 1%nat)]).1 = setNodeAttribute_indent p (node_indent node + 1) doc)
    as Hdoc1.
  { unfold indentFlatListItem, visited in *. simpl in *.
    rewrite app_nil_r, (nodesBetween_one doc p node Hp) in *. simpl in *.
    rewrite Hl in *. by destruct (_ <=? _). }
  rewrite Hdoc1. set (doc1 := setNodeAttribute_indent p (node_indent node + 1) doc).
  assert (doc1 !! p = Some (bump node)) as Hp1.
  { unfold doc1. rewrite lookup_setNodeAttribute_indent, decide_True by done.
    by rewrite Hp. }
  assert (∀ j, j ≠ p → doc1 !! j = doc !! j) as Hother.
  { intros j Hj. unfold doc1. by rewrite lookup_setNodeAttribute_indent, decide_False. }
  assert (node_indent (bump node) = node_indent node + 1) as Hbump
    by apply node_indent_set_indent.
  assert ((dedentFlatListItem false doc1 [(p, 1%nat)]).2 = true) as Htrue.
  { apply dedentFlatListItem_applicable. exists p, (bump node), (p, 1%nat).
    split; [done|]. split; [by apply list_elem_of_singleton|]. simpl.
    split; [lia|]. split; [done|]. left. lia. }
  destruct (dedent_single_range false doc1 p 1)
    as [[Hfalse _]|(_ & q & nodeQ & r & Hq & _ & Hrange & _ & Hrun & _ & Hres)];
    [congruence|].
  assert (q = p) as -> by lia. rewrite Hp1 in Hq. injection Hq as <-.
  assert (r = 0%nat) as ->.
  { destruct r as [|r]; [done|]. exfalso.
    destruct (Hrun (S p) ltac:(lia)) as (n & Hn & Hln & Hlt).
    rewrite Hother in Hn by lia.
    pose proof (Hst p node n Hp Hn Hl Hln). lia. }
  apply injective_projections; [|done]. cbn [fst].
  apply list_eq. intros j. rewrite Hres.
  destruct (decide (j = p)) as [->|Hne].
  - rewrite decide_True by lia. rewrite Hp1, Hp. simpl. f_equal.
    unfold dedent1. change (isFlatListNode (bump node)) with (isFlatListNode node).
    rewrite Hl, Hbump. destruct (Z.ltb_spec 0 (node_indent node + 1)); [|lia].
    destruct node as [ty [i c chk pr] cs].
    unfold bump, set_node_attrs, with_indent, node_indent. simpl.
    do 2 f_equal. lia.
  - rewrite decide_False by lia. rewrite decide_False by lia. by apply Hother.
Qed.

Lemma indent_then_dedent_witness :
  staircase (item ordered <$> [0; 0; 1]) ∧
  (indentFlatListItem (item ordered <$> [0; 0; 1]) [(1, 1)%nat]).2 = true ∧
  dedentFlatListItem false
    (indentFlatListItem (item ordered <$> [0; 0; 1]) [(1, 1)%nat]).1 [(1, 1)%nat]
  = (item ordered <$> [0; 0; 1], true).
Proof.
  assert (staircase (item ordered <$> [0; 0; 1])) as H
    by (apply staircaseb_correct; reflexivity).
  split; [exact H|]. split; [reflexivity|].
  apply (indent_then_dedent _ 1 (item ordered 0) H eq_refl eq_refl); [done|reflexivity].
Defined.

Lemma indent_run_types doc vs j n :
  (∀ k pos node, vs !! k = Some (pos, node) → doc !! pos = Some node) →
  doc !! j = Some n →
  ∃ n', (indent_run doc vs).1 !! j = Some n' ∧ type_name n' = type_name n ∧
        node_indent n ≤ node_indent n'.
Proof.
  intros Hvs Hj. destruct (indent_run_spec doc vs Hvs) as (_ & Hnodes & _).
  destruct (Hnodes j n Hj) as [[H|H] _]; eexists; (split; [exact H|]).
  - split; [done|lia].
  - split; [done|]. unfold bump. rewrite node_indent_set_indent. lia.
Qed.

(** X8. indentFlatListItem never indents a list item of non-negative indent
    that is the first child of its container or that follows a node that is
    not a list item, whatever the selection. *)
Theorem indentFlatListItem_top_item (doc : Doc) (ranges : list Range) (p : nat)
    (node : Node) :
  doc !! p = Some node → 0 ≤ node_indent node →
  (p = 0%nat ∨ ∃ prev, doc !! (p - 1)%nat = Some prev ∧ isFlatListNode prev = false) →
  (indentFlatListItem doc ranges).1 !! p = Some node.
Proof.
  intros Hp Hi Htop.
  assert ((indentFlatListItem doc ranges).1 = doc ∨
          (indentFlatListItem doc ranges).1 = (indent_run doc (visited doc ranges)).1) as Hres.
  { unfold indentFlatListItem, indent_run. destruct (foldl _ _ _).2; [by right|by left]. }
  destruct Hres as [->| ->]; [done|].
  destruct (indent_run_spec doc (visited doc ranges) (visited_lookup doc ranges))
    as (_ & Hnodes & _).
  destruct (Hnodes p node Hp) as [[H|H] Hiff]; [done|]. exfalso.
  apply Hiff in H as (k & Hk & Hl & Hle).
  set (tr := (indent_run doc (take k (visited doc ranges))).1) in *.
  assert (prevSiblingIndent tr p = -1) as Hprev.
  { unfold prevSiblingIndent. destruct p as [|q]; [done|].
    destruct Htop as [?|(prev & Hprev & Hnl)]; [done|].
    simpl in Hprev. rewrite Nat.sub_0_r in Hprev.
    destruct (indent_run_types doc (take k (visited doc ranges)) q prev) as (n' & Hn' & Ht & _).
    - intros k' pos' node' Hk'. apply lookup_take_Some in Hk' as [Hk' _].
      by apply (visited_lookup doc ranges k').
    - done.
    - fold tr in Hn'. rewrite Hn'.
      by rewrite (isFlatListNode_type_name n' prev Ht), Hnl. }
  rewrite Hprev in Hle. lia.
Qed.

Lemma indentFlatListItem_top_item_witness :
  (item ordered <$> [0; 0]) !! 0%nat = Some (item ordered 0) ∧
  (indentFlatListItem (item ordered <$> [0; 0]) [(0, 2)%nat]).1 !! 0%nat
    = Some (item ordered 0).
Proof.
  assert ((item ordered <$> [0; 0]) !! 0%nat = Some (item ordered 0)) as H
    by reflexivity.
  split; [exact H|].
  apply (indentFlatListItem_top_item (item ordered <$> [0; 0]) [(0, 2)%nat] 0
           (item ordered 0) H); [done|by left].
Defined.

End CommandsMore.


(** * More on the paste plugin *)
Section PasteMore.

Implicit Types (from : ResolvedPos) (st : LoopState) (h : Heap) (child : SliceNode)
  (slice : list SliceNode).

(** X9. In transformPasted, on a slice in which no list item shares its
    attributes object, a list item keeps its indent relative to the list item
    just before it in the slice, clamped to [0, predecessor + 1]: when [a]
    and [b] are adjacent list items of the slice and the loop gives [a] the
    indent [a'], it gives [b] the indent max 0 (min (a' + 1) (a' + (b - a))).
    (For a paste target of non-negative indent, [a] not being a first node
    that the loop skips.) *)
Theorem transformPasted_relative (from : ResolvedPos) (h : Heap) (slice : list SliceNode)
    (j : nat) (a b : SliceNode) (a' : Node) :
  0 ≤ contextIndent (initial from) →
  unshared h slice →
  slice !! j = Some a → slice !! S j = Some b →
  isFlatListNode (node_of h a) = true → isFlatListNode (node_of h b) = true →
  skipped from j = false →
  transformPasted from h slice !! j = Some a' →
  ∃ b', transformPasted from h slice !! S j = Some b' ∧
    node_indent b' =
      Z.max 0 (Z.min (node_indent a' + 1)
                 (node_indent a' + (indent (attrs_of h b) - indent (attrs_of h a)))).
Proof.
  intros Hctx Hun Ha Hb Hla Hlb Hskip. rewrite (transformPasted_unshared from h slice Hun).
  apply (relative_owned from (node_of h <$> slice) j (node_of h a) (node_of h b) a');
    try done; by rewrite list_lookup_fmap, ?Ha, ?Hb.
Qed.

Lemma transformPasted_relative_witness :
  0 ≤ contextIndent (initial (mkPos 1 (item unordered 1) 11 10)) ∧
  unshared (own_heap (item ordered <$> [0; 4])) (own_nodes (item ordered <$> [0; 4])) ∧
  ∃ b', transformPasted (mkPos 1 (item unordered 1) 11 10)
          (own_heap (item ordered <$> [0; 4])) (own_nodes (item ordered <$> [0; 4]))
          !! 1%nat = Some b' ∧
    node_indent b' =
      Z.max 0 (Z.min (node_indent (item ordered 1) + 1)
                 (node_indent (item ordered 1)
                  + (indent (attrs_of (own_heap (item ordered <$> [0; 4]))
                               (mkSliceNode orderedNodeName 1 []))
                     - indent (attrs_of (own_heap (item ordered <$> [0; 4]))
                                 (mkSliceNode orderedNodeName 0 []))))).
Proof.
  assert (0 ≤ contextIndent (initial (mkPos 1 (item unordered 1) 11 10))) as H
    by (vm_compute; discriminate).
  pose proof (unshared_own (item ordered <$> [0; 4])) as Hun.
  split; [exact H|]. split; [exact Hun|].
  exact (transformPasted_relative (mkPos 1 (item unordered 1) 11 10)
           (own_heap (item ordered <$> [0; 4])) (own_nodes (item ordered <$> [0; 4])) 0
           (mkSliceNode orderedNodeName 0 []) (mkSliceNode orderedNodeName 1 [])
           (item ordered 1)
           H Hun eq_refl eq_refl eq_refl eq_refl eq_refl eq_refl).
Defined.

(** X10. In transformPasted, on a slice in which no list item shares its
    attributes object, a list item that comes just after a node of the slice
    that is not a list item gets the indent 0 (for a paste target of
    non-negative indent). *)
Theorem transformPasted_after_block (from : ResolvedPos) (h : Heap)
    (slice : list SliceNode) (j : nat) (a b : SliceNode) :
  0 ≤ contextIndent (initial from) →
  unshared h slice →
  slice !! j = Some a → slice !! S j = Some b →
  isFlatListNode (node_of h a) = false → isFlatListNode (node_of h b) = true →
  ∃ b', transformPasted from h slice !! S j = Some b' ∧ node_indent b' = 0.
Proof.
  intros Hctx Hun Ha Hb Hla Hlb. rewrite (transformPasted_unshared from h slice Hun).
  apply (after_block_owned from (node_of h <$> slice) j (node_of h a) (node_of h b));
    try done; by rewrite list_lookup_fmap, ?Ha, ?Hb.
Qed.

Lemma transformPasted_after_block_witness :
  0 ≤ contextIndent (initial (mkPos 1 (item unordered 2) 11 10)) ∧
  unshared (own_heap [mkNode (otherNodeName "paragraph") defaultAttrs []; item ordered 3])
    (own_nodes [mkNode (otherNodeName "paragraph") defaultAttrs []; item ordered 3]) ∧
  ∃ b', transformPasted (mkPos 1 (item unordered 2) 11 10)
          (own_heap [mkNode (otherNodeName "paragraph") defaultAttrs []; item ordered 3])
          (own_nodes [mkNode (otherNodeName "paragraph") defaultAttrs []; item ordered 3])
          !! 1%nat = Some b' ∧ node_indent b' = 0.
Proof.
  assert (0 ≤ contextIndent (initial (mkPos 1 (item unordered 2) 11 10))) as H
    by (vm_compute; discriminate).
  pose proof (unshared_own [mkNode (otherNodeName "paragraph") defaultAttrs [];
                            item ordered 3]) as Hun.
  split; [exact H|]. split; [exact Hun|].
  exact (transformPasted_after_block (mkPos 1 (item unordered 2) 11 10)
           (own_heap [mkNode (otherNodeName "paragraph") defaultAttrs []; item ordered 3])
           (own_nodes [mkNode (otherNodeName "paragraph") defaultAttrs []; item ordered 3])
           0 (mkSliceNode (otherNodeName "paragraph") 0 []) (mkSliceNode orderedNodeName 1 [])
           H Hun eq_refl eq_refl eq_refl eq_refl).
Defined.

Lemma unprop_first_length (children : list Node) :
  length (unprop_first children) = length children.
Proof. destruct children as [|c l]; [done|]. unfold unprop_first. by destruct (_ && _). Qed.

(** X11. transformPasted keeps the number of nodes of the slice and, for
    every node, its type, its counter and its checked attribute; a node that
    is not a list item stays as it is (when no list item of the slice holds
    its attributes object).  The content stays too, except that a first node
    that is a propped list item loses its first inline; that first node has
    _isTempPropped reset, every other node keeps the attribute.  All this
    holds whether or not nodes of the slice share attributes objects. *)
Theorem transformPasted_keeps_structure (from : ResolvedPos) (h : Heap)
    (slice : list SliceNode) :
  length (transformPasted from h slice) = length slice ∧
  ∀ i child, slice !! i = Some child →
    ∃ out, transformPasted from h slice !! i = Some out ∧
      type_name out = s_type child ∧
      counter (attrs out) = counter (attrs_of h child) ∧
      checked (attrs out) = checked (attrs_of h child) ∧
      content out =
        (if bool_decide (i = 0%nat) && is_propped (node_of h child)
         then drop 1 (s_content child) else s_content child) ∧
      _isTempPropped (attrs out) =
        (if bool_decide (i = 0%nat) && isFlatListNode (node_of h child)
         then false else _isTempPropped (attrs_of h child)) ∧
      (isFlatListNode (node_of h child) = false →
       (∀ b, b ∈ slice → isFlatListNode (node_of h b) = true → s_attrs child ≠ s_attrs b) →
       out = node_of h child).
Proof.
  split.
  - unfold transformPasted. by rewrite unprop_first_length, length_fmap.
  - intros i child Hi. unfold transformPasted.
    set (h' := (loop from (initial from) h 0 slice).2).
    pose proof (loop_keeps from slice (initial from) h 0 child) as Hk. fold h' in Hk.
    pose proof (loop_frame from slice (initial from) h 0 child) as Hf. fold h' in Hf.
    assert ((node_of h' <$> slice) !! i = Some (node_of h' child)) as Hloop
      by (by rewrite list_lookup_fmap, Hi).
    set (v := node_of h' child) in *.
    assert (isFlatListNode v = isFlatListNode (node_of h child)) as Hlv by done.
    assert (type_name v = s_type child ∧ content v = s_content child ∧
            counter (attrs v) = counter (attrs_of h child) ∧
            checked (attrs v) = checked (attrs_of h child) ∧
            _isTempPropped (attrs v) = _isTempPropped (attrs_of h child))
      as (Ht & Hc & Hcnt & Hchk & Hp).
    { unfold v, node_of. cbn [type_name content attrs]. rewrite Hk. done. }
    assert (isFlatListNode (node_of h child) = false →
            (∀ b, b ∈ slice → isFlatListNode (node_of h b) = true →
                  s_attrs child ≠ s_attrs b) →
            v = node_of h child) as Hnl.
    { intros _ Hno. unfold v, node_of. by rewrite (Hf Hno). }
    destruct (node_of h' <$> slice) as [|c l] eqn:El; [done|].
    destruct i as [|i]; simpl in Hloop.
    + injection Hloop as ->. unfold unprop_first, is_propped.
      cbn [attrs node_of]. rewrite Hlv.
      change (attrs v) with (attrs_of h' child) in *. rewrite Hp.
      destruct (isFlatListNode (node_of h child)) eqn:Elc; simpl.
      * destruct (_isTempPropped (attrs_of h child)) eqn:Ep; simpl.
        -- eexists. split; [done|]. simpl. done.
        -- eexists. split; [done|]. by rewrite ?Hp.
      * eexists. split; [done|]. repeat split; done.
    + assert (unprop_first (c :: l) !! S i = Some v) as Hout.
      { unfold unprop_first. by destruct (_ && _). }
      exists v. split; [done|]. simpl. repeat split; try done.
Qed.

(** X25. In transformPasted, the first node of the slice, when it is a list
    item whose attributes object no later list item holds, keeps its indent
    unless the paste is at the very start of the content of the node around
    it; there it is shifted and clamped as the loop does for a list item at
    any later index, which gives it the indent of the target list item (0
    when the target is not a list item, or has a negative indent). *)
Theorem transformPasted_first_node (from : ResolvedPos) (h : Heap) (child : SliceNode)
    (rest : list SliceNode) :
  isFlatListNode (node_of h child) = true →
  (∀ b, b ∈ rest → isFlatListNode (node_of h b) = true → s_attrs child ≠ s_attrs b) →
  ∃ first, transformPasted from h (child :: rest) !! 0%nat = Some first ∧
    type_name first = s_type child ∧
    (at_node_start from = false → node_indent first = indent (attrs_of h child)) ∧
    (at_node_start from = true →
       (∀ i, node_indent first
             = indent (attrs_of (visit from (initial from) h (S i) child).2 child)) ∧
       node_indent first = Z.max 0 (contextIndent (initial from))).
Proof.
  intros Hl Hno. unfold transformPasted. rewrite loop_cons_heap, fmap_cons.
  set (h1 := (visit from (initial from) h 0 child).2).
  set (h' := (loop from _ h1 1 rest).2).
  assert (attrs_of h' child = attrs_of h1 child) as Hsame.
  { apply loop_frame. intros b Hb Hlb. by apply Hno. }
  assert (∃ first, unprop_first (node_of h' child :: (node_of h' <$> rest)) !! 0%nat
                   = Some first ∧ type_name first = s_type child ∧
                   node_indent first = indent (attrs_of h1 child))
    as (first & Hfirst & Ht & Hi).
  { unfold unprop_first. destruct (_ && _); eexists; (split; [done|]);
      by rewrite <- Hsame. }
  exists first. split; [done|]. split; [done|]. rewrite Hi. unfold h1.
  assert (∀ i, indent (attrs_of (visit from (initial from) h i child).2 child)
             = if skipped from i then indent (attrs_of h child)
               else (clamp (lastIndent (initial from))
                       (shift_of (initial from) (node_of h child))
                       (indent (attrs_of h child)
                        + shift_of (initial from) (node_of h child))).2) as Hval.
  { intros i. rewrite visit_list_heap by done. destruct (skipped from i); [done|].
    cbn [snd]. by rewrite attrs_of_insert, decide_True. }
  split; intros Hs.
  - by rewrite Hval, skipped_0, Hs.
  - rewrite (Hval 0%nat), skipped_0, Hs. cbn [negb]. split.
    + intros i. rewrite (Hval (S i)). done.
    + unfold shift_of, clamp.
      change (node_indent (node_of h child)) with (indent (attrs_of h child)).
      destruct (initial_cases from) as [Hinit|Hinit]; rewrite Hinit; simpl.
      * destruct (Z.ltb_spec (indent (attrs_of h child)
                              + (contextIndent (initial from) - indent (attrs_of h child))) 0);
          simpl; [lia|].
        destruct (Z.ltb_spec (contextIndent (initial from) + 1)
                    (indent (attrs_of h child)
                     + (contextIndent (initial from) - indent (attrs_of h child))));
          simpl; lia.
      * destruct (Z.ltb_spec (indent (attrs_of h child) + (0 - indent (attrs_of h child))) 0);
          simpl; [lia|].
        destruct (Z.ltb_spec (-1 + 1)
                    (indent (attrs_of h child) + (0 - indent (attrs_of h child))));
          simpl; lia.
Qed.

Lemma transformPasted_first_node_witness :
  isFlatListNode (node_of (own_heap [item ordered 4; item ordered 5])
                    (mkSliceNode orderedNodeName 0 [])) = true ∧
  (∀ b, b ∈ [mkSliceNode orderedNodeName 1 []] →
     isFlatListNode (node_of (own_heap [item ordered 4; item ordered 5]) b) = true →
     s_attrs (mkSliceNode orderedNodeName 0 []) ≠ s_attrs b) ∧
  ∃ first,
    transformPasted paste_in_item (own_heap [item ordered 4; item ordered 5])
      (mkSliceNode orderedNodeName 0 [] :: [mkSliceNode orderedNodeName 1 []]) !! 0%nat
      = Some first ∧
    type_name first = orderedNodeName ∧
    (at_node_start paste_in_item = false →
     node_indent first
     = indent (attrs_of (own_heap [item ordered 4; item ordered 5])
                 (mkSliceNode orderedNodeName 0 []))) ∧
    (at_node_start paste_in_item = true →
       (∀ i, node_indent first
             = indent (attrs_of (visit paste_in_item (initial paste_in_item)
                                   (own_heap [item ordered 4; item ordered 5]) (S i)
                                   (mkSliceNode orderedNodeName 0 [])).2
                         (mkSliceNode orderedNodeName 0 []))) ∧
       node_indent first = Z.max 0 (contextIndent (initial paste_in_item))).
Proof.
  assert (∀ b, b ∈ [mkSliceNode orderedNodeName 1 []] →
            isFlatListNode (node_of (own_heap [item ordered 4; item ordered 5]) b) = true →
            s_attrs (mkSliceNode orderedNodeName 0 []) ≠ s_attrs b) as H.
  { intros b Hb%list_elem_of_singleton _. by subst b. }
  split; [reflexivity|]. split; [exact H|].
  exact (transformPasted_first_node paste_in_item (own_heap [item ordered 4; item ordered 5])
           (mkSliceNode orderedNodeName 0 []) [mkSliceNode orderedNodeName 1 []] eq_refl H).
Defined.

End PasteMore.


(** * Rendering and parsing *)
Section ParseMore.

Lemma digitValue_pretty_N_char (d : N) :
  (d < 10)%N → digitValue 10 (pretty_N_char d) = Some (Z.of_N d).
Proof.
  intros Hd.
  assert (d = 0 ∨ d = 1 ∨ d = 2 ∨ d = 3 ∨ d = 4 ∨ d = 5 ∨ d = 6 ∨ d = 7 ∨ d = 8 ∨ d = 9)%N
    as H by lia.
  by repeat (destruct H as [->|H]; [done|]); subst.
Qed.

Lemma is_digit_pretty_N_char (d : N) : is_digit (pretty_N_char d).
Proof.
  unfold is_digit, pretty_N_char. repeat case_match; set_solver.
Qed.

Lemma parseDigits_pretty_N_go (x : N) : ∀ s acc,
  (0 < x)%N →
  ∃ m, parseDigits 10 acc (pretty_N_go x s)
       = parseDigits 10 (Some (default 0 acc * m + Z.of_N x)) s.
Proof.
  induction (N.lt_wf_0 x) as [x _ IH]; intros s acc Hx.
  rewrite pretty_N_go_step by done.
  assert (x `mod` 10 < 10)%N as Hmod by (by apply N.mod_lt).
  pose proof (N.div_mod x 10 ltac:(done)) as Hdm.
  destruct (decide (x `div` 10 = 0)%N) as [Hz|Hnz].
  - rewrite Hz, pretty_N_go_0. cbn [parseDigits].
    rewrite digitValue_pretty_N_char by done.
    exists 10. cbn [default]. do 2 f_equal.
    assert (x `mod` 10 = x)%N as -> by (rewrite Hz in Hdm; lia).
    destruct acc; simpl; lia.
  - destruct (IH (x `div` 10)%N) with
      (s := String (pretty_N_char (x `mod` 10)) s) (acc := acc) as [m Hm].
    + apply N.div_lt; lia.
    + lia.
    + rewrite Hm. cbn [parseDigits]. rewrite digitValue_pretty_N_char by done.
      exists (m * 10). cbn [default]. do 2 f_equal.
      assert (Z.of_N x = 10 * Z.of_N (x `div` 10) + Z.of_N (x `mod` 10)) as ->
        by (rewrite Hdm at 1; lia).
      unfold id. generalize (default 0 acc), (Z.of_N (x `div` 10)), (Z.of_N (x `mod` 10)).
      intros. ring.
Qed.

(** The first two characters of a number that [pretty] writes. *)
Lemma pretty_N_go_head (x : N) : ∀ s,
  (0 < x)%N →
  ∃ c s', is_digit c ∧ pretty_N_go x s = String c s' ∧
    (s' = s ∨ ∃ c' s'', is_digit c' ∧ s' = String c' s'').
Proof.
  induction (N.lt_wf_0 x) as [x _ IH]; intros s Hx.
  rewrite pretty_N_go_step by done.
  destruct (decide (x `div` 10 = 0)%N) as [Hz|Hnz].
  - rewrite Hz, pretty_N_go_0. eexists _, s.
    split; [apply is_digit_pretty_N_char|]. split; [done|by left].
  - destruct (IH (x `div` 10)%N) with (s := String (pretty_N_char (x `mod` 10)) s)
      as (c & s' & Hc & Hgo & Hs').
    + apply N.div_lt; lia.
    + by apply N.neq_0_lt_0.
    + exists c, s'. split; [done|]. split; [done|]. right.
      destruct Hs' as [->|?]; [|done].
      eexists _, s. split; [apply is_digit_pretty_N_char|done].
Qed.

Lemma parseInt_digits (sign : Z) (c : ascii) (s' : string) :
  is_digit c →
  (s' = "" ∨ ∃ c' s'', is_digit c' ∧ s' = String c' s'') →
  parseInt (String c s') = parseDigits 10 None (String c s') ∧
  parseInt (String "-" (String c s')) = Z.opp <$> parseDigits 10 None (String c s').
Proof.
  intros Hc Hs'. unfold is_digit in *.
  assert (∀ o : option Z, (λ n, 1 * n) <$> o = o) as H1.
  { intros [n|]; simpl; [f_equal; lia|done]. }
  assert (∀ o : option Z, (λ n, -1 * n) <$> o = Z.opp <$> o) as H2.
  { intros [n|]; simpl; [f_equal; lia|done]. }
  destruct Hs' as [->|(c' & s'' & Hc' & ->)].
  - repeat (apply elem_of_cons in Hc as [->|Hc]; [split; reflexivity|]).
    by apply elem_of_nil in Hc.
  - repeat (apply elem_of_cons in Hc as [->|Hc];
      [repeat (apply elem_of_cons in Hc' as [->|Hc'];
         [split; unfold parseInt; cbn; [apply H1|apply H2]|]);
       by apply elem_of_nil in Hc'|]).
    by apply elem_of_nil in Hc.
Qed.

(** [parseInt] reads back the decimal numeral of an integer. *)
Lemma parseInt_pretty (z : Z) : parseInt (pretty z) = Some z.
Proof.
  assert (∀ p, parseDigits 10 None (pretty_N_go (N.pos p) "") = Some (Z.pos p) ∧
               ∃ c s', is_digit c ∧ pretty_N_go (N.pos p) "" = String c s' ∧
                 (s' = "" ∨ ∃ c' s'', is_digit c' ∧ s' = String c' s'')) as Hpos.
  { intros p. split.
    - destruct (parseDigits_pretty_N_go (N.pos p) "" None) as [m Hm]; [lia|].
      rewrite Hm. simpl. done.
    - apply pretty_N_go_head. lia. }
  destruct z as [|p|p].
  - reflexivity.
  - destruct (Hpos p) as (Hd & c & s' & Hc & Hgo & Hs').
    change (pretty (Z.pos p)) with (pretty_N_go (N.pos p) "").
    rewrite Hgo in *. by rewrite (proj1 (parseInt_digits 1 c s' Hc Hs')).
  - destruct (Hpos p) as (Hd & c & s' & Hc & Hgo & Hs').
    change (pretty (Z.neg p)) with (String "-" (pretty_N_go (N.pos p) "")).
    rewrite Hgo in *. rewrite (proj2 (parseInt_digits 1 c s' Hc Hs')), Hd. done.
Qed.

Lemma computeIndent_rendered (ancestors : list HtmlNode) (i : Z)
    (attributes : list (string * string)) (sty : option (list (string * string)))
    (cs : list HtmlNode) :
  computeIndent ancestors
    (HElement "LI" (("data-list-indent", pretty i) :: attributes) sty cs) = i.
Proof.
  unfold computeIndent, Html.getAttribute. cbn [lookup_attr].
  rewrite bool_decide_eq_true_2 by done. cbn [parseIntegerAttr].
  by rewrite parseInt_pretty.
Qed.

Lemma hasNoContentBeforeChildList_text tag a s d :
  hasNoContentBeforeChildList (HElement tag a s [HText d]) = false.
Proof.
  unfold hasNoContentBeforeChildList. cbn. by destruct (isCollapsible _).
Qed.

(** Decide the equalities between closed terms. *)
Ltac decide_closed :=
  match goal with
  | |- context [bool_decide (?a = ?b)] =>
      let v := eval vm_compute in (bool_decide (a = b)) in
      lazymatch v with
      | true => change (bool_decide (a = b)) with true
      | false => change (bool_decide (a = b)) with false
      end
  end.

Lemma getContentElement_rendered a s la ls lc da ds dc :
  Utils.getContentElement task
    (HElement "LI" a s [HElement "LABEL" la ls lc; HElement "DIV" da ds dc])
  = HElement "DIV" da ds dc.
Proof.
  unfold Utils.getContentElement, Utils.firstElementChild, Utils.lastElementChild. cbn [Html.childNodes].
  rewrite !filter_cons_True by done. rewrite filter_nil. cbn. by decide_closed.
Qed.

(** X12. What the parse rules read back from the HTML that renderHTML gives
    for one list item: the item's type and its indent, and for a task item
    its checked attribute; the counter is back at its default 1 and
    _isTempPropped is false.  (The indent being a safe integer, which a
    number-to-string conversion writes in full.) *)
Theorem parse_renderHTML (node : Node) (ty : ListType) :
  getListType node = Some ty →
  - 2 ^ 53 < node_indent node < 2 ^ 53 →
  parse_fragment [renderHTML node] =
    [(ty, mkAttrs (node_indent node) 1
            (match ty with task => checked (attrs node) | _ => false end) false)].
Proof.
  intros Hty _. unfold renderHTML. rewrite Hty.
  unfold parse_fragment, renderHTML_ordered, renderHTML_unordered, renderHTML_task,
    content_nodes.
  destruct ty; destruct (content node) as [|c0 cs0];
    cbn -[computeIndent pretty hasNoContentBeforeChildList Utils.getContentElement];
    unfold parse_li, getAttrs_ordered, getAttrs_task, getAttrs_unordered, computeChecked,
      Html.getAttribute;
    repeat (cbn -[computeIndent pretty hasNoContentBeforeChildList Utils.getContentElement];
            decide_closed);
    rewrite ?computeIndent_rendered, ?getContentElement_rendered,
      ?hasNoContentBeforeChildList_text; try reflexivity.
  all: destruct (checked (attrs node));
    repeat (cbn -[computeIndent pretty hasNoContentBeforeChildList Utils.getContentElement];
            decide_closed);
    rewrite ?getContentElement_rendered, ?hasNoContentBeforeChildList_text; reflexivity.
Qed.

Lemma parse_renderHTML_witness :
  - 2 ^ 53 < node_indent (item task 2) < 2 ^ 53 ∧
  parse_fragment [renderHTML (item task 2)] = [(task, mkAttrs 2 1 false false)].
Proof.
  assert (- 2 ^ 53 < node_indent (item task 2) < 2 ^ 53) as H by (vm_compute; done).
  split; [exact H|]. exact (parse_renderHTML (item task 2) task eq_refl H).
Defined.

End ParseMore.


(** * The parse rules on the content of an LI *)

Section ParseRulesFacts.

Implicit Types (element c : HtmlNode) (cs : list HtmlNode).

Lemma text_nodes_HElement tag a s cs :
  text_nodes (HElement tag a s cs) = cs ≫= text_nodes.
Proof.
  cbn [text_nodes]. induction cs as [|c cs IH]; [done|]. cbn. by rewrite IH.
Qed.

Lemma isParagraph_element c : isParagraph c = true → ∃ a s cs, c = HElement "P" a s cs.
Proof.
  unfold isParagraph. destruct c as [d|tag a s cs]; [done|]. simpl.
  intros ->%bool_decide_eq_true. eauto.
Qed.

Lemma replace_loop_text cs : replace_loop cs ≫= text_nodes = cs ≫= text_nodes.
Proof.
  induction cs as [|c rest IH]; [done|]. cbn [replace_loop].
  destruct (isParagraph c) eqn:Ep.
  - destruct (isParagraph_element c Ep) as (a & s & pcs & ->).
    rewrite !bind_app, IH, bind_cons, text_nodes_HElement. cbn [Html.childNodes].
    f_equal. destruct rest as [|next rest']; [done|].
    by destruct (_ && _).
  - by rewrite !bind_cons, IH.
Qed.

(** X13. replaceParagraphsWithBreaks keeps all the text of the element: the
    text nodes below it, in document order, are the same before and after. *)
Theorem replaceParagraphsWithBreaks_text (element : HtmlNode) :
  text_nodes (replaceParagraphsWithBreaks element) = text_nodes element.
Proof.
  unfold replaceParagraphsWithBreaks. destruct (negb _); [done|].
  destruct element as [d|tag a s cs]; [done|]. cbn [with_childNodes Html.childNodes].
  by rewrite !text_nodes_HElement, replace_loop_text.
Qed.

Lemma replace_loop_no_paragraph cs :
  Forall (λ c, isParagraph c = true → existsb isParagraph (Html.childNodes c) = false) cs →
  existsb isParagraph (replace_loop cs) = false.
Proof.
  induction 1 as [|c rest Hc _ IH]; [done|]. cbn [replace_loop].
  destruct (isParagraph c) eqn:Ep.
  - rewrite !existsb_app, IH, (Hc eq_refl). destruct rest as [|next rest']; [done|].
    by destruct (_ && _).
  - cbn [existsb]. by rewrite Ep, IH.
Qed.

(** X14. After replaceParagraphsWithBreaks the element has no paragraph
    among its children, provided that no paragraph child had a paragraph
    child of its own; a second call then changes nothing. *)
Theorem replaceParagraphsWithBreaks_no_paragraph (element : HtmlNode) :
  Forall (λ c, isParagraph c = true → existsb isParagraph (Html.childNodes c) = false)
    (Html.childNodes element) →
  existsb isParagraph (Html.childNodes (replaceParagraphsWithBreaks element)) = false ∧
  replaceParagraphsWithBreaks (replaceParagraphsWithBreaks element)
    = replaceParagraphsWithBreaks element.
Proof.
  intros Hall.
  assert (existsb isParagraph (Html.childNodes (replaceParagraphsWithBreaks element))
          = false) as Hno.
  { unfold replaceParagraphsWithBreaks.
    destruct (existsb isParagraph (Html.childNodes element)) eqn:E; [|done].
    destruct element as [d|tag a s cs]; [done|]. cbn [negb with_childNodes Html.childNodes].
    by apply replace_loop_no_paragraph. }
  split; [done|].
  unfold replaceParagraphsWithBreaks at 1. by rewrite Hno.
Qed.

Lemma replaceParagraphsWithBreaks_no_paragraph_witness :
  Forall (λ c, isParagraph c = true → existsb isParagraph (Html.childNodes c) = false)
    (Html.childNodes
       (HElement "LI" [] None
          [HElement "P" [] None [HText "a"]; HElement "P" [] None [HText "b"]])) ∧
  existsb isParagraph
    (Html.childNodes
       (replaceParagraphsWithBreaks
          (HElement "LI" [] None
             [HElement "P" [] None [HText "a"]; HElement "P" [] None [HText "b"]])))
    = false ∧
  replaceParagraphsWithBreaks
    (replaceParagraphsWithBreaks
       (HElement "LI" [] None
          [HElement "P" [] None [HText "a"]; HElement "P" [] None [HText "b"]]))
  = replaceParagraphsWithBreaks
      (HElement "LI" [] None
         [HElement "P" [] None [HText "a"]; HElement "P" [] None [HText "b"]]).
Proof.
  assert (Forall (λ c, isParagraph c = true →
                       existsb isParagraph (Html.childNodes c) = false)
            (Html.childNodes
               (HElement "LI" [] None
                  [HElement "P" [] None [HText "a"]; HElement "P" [] None [HText "b"]])))
    as H by (repeat constructor).
  split; [exact H|]. exact (replaceParagraphsWithBreaks_no_paragraph _ H).
Defined.

Lemma replace_loop_paragraph a s cs rest :
  replace_loop (HElement "P" a s cs :: rest) =
    cs ++ match rest with
          | [] => []
          | nextChild :: _ =>
              if isElement nextChild
                 && (bool_decide (tagName nextChild = "OL")
                     || bool_decide (tagName nextChild = "UL")
                     || bool_decide (tagName nextChild = "LI"))
              then [] else [br]
          end ++ replace_loop rest.
Proof. reflexivity. Qed.

Lemma replace_loop_paragraphs
    (paragraphs : list (list (string * string) * option (list (string * string))
                        * list HtmlNode)) :
  replace_loop ((λ p, HElement "P" p.1.1 p.1.2 p.2) <$> paragraphs)
    = joined_by_br (snd <$> paragraphs).
Proof.
  induction paragraphs as [|p ps IH]; [done|].
  rewrite !fmap_cons, replace_loop_paragraph, IH. destruct ps as [|q ps].
  - cbn. by rewrite app_nil_r.
  - reflexivity.
Qed.

(** X15. When all the children of the element are paragraphs, what
    replaceParagraphsWithBreaks leaves are the contents of the paragraphs
    with one BR between each paragraph and the next, and none at the end. *)
Theorem replaceParagraphsWithBreaks_paragraphs (tag : string)
    (a : list (string * string)) (s : option (list (string * string)))
    (paragraphs : list (list (string * string) * option (list (string * string))
                        * list HtmlNode)) :
  paragraphs ≠ [] →
  replaceParagraphsWithBreaks
    (HElement tag a s ((λ p, HElement "P" p.1.1 p.1.2 p.2) <$> paragraphs))
  = HElement tag a s (joined_by_br (snd <$> paragraphs)).
Proof.
  intros Hne. unfold replaceParagraphsWithBreaks. cbn [Html.childNodes].
  destruct paragraphs as [|p ps]; [done|].
  rewrite <- replace_loop_paragraphs. by rewrite fmap_cons.
Qed.

Lemma replaceParagraphsWithBreaks_paragraphs_witness :
  replaceParagraphsWithBreaks
    (HElement "LI" [] None
       ((λ p, HElement "P" p.1.1 p.1.2 p.2) <$> [([], None, [HText "a"])]))
  = HElement "LI" [] None [HText "a"].
Proof.
  exact (replaceParagraphsWithBreaks_paragraphs "LI" [] None [([], None, [HText "a"])]
           ltac:(discriminate)).
Defined.

Lemma hasNoContentBeforeChildList_prepend_nbsp element :
  hasNoContentBeforeChildList (prepend (HText nbsp) element) = false.
Proof.
  destruct element as [d|tag a s cs]; [done|].
  unfold hasNoContentBeforeChildList, prepend. cbn. done.
Qed.

Lemma prop_up_spec element :
  hasNoContentBeforeChildList
    (if hasNoContentBeforeChildList element then prepend (HText nbsp) element else element)
  = false.
Proof.
  destruct (hasNoContentBeforeChildList element) eqn:E; [|done].
  apply hasNoContentBeforeChildList_prepend_nbsp.
Qed.


End ParseRulesFacts.


(** * The parser against the serializer, and the Backspace key *)
Section KeymapFacts.

(** X17. The parse rules give an LI the list type that getElementListType
    gives the list element around it: an LI whose parent element is, for
    joinListElements, a list of some type is parsed as an item of that
    type. *)
Theorem parse_li_getElementListType (dom : Dom.Dom) (x : nat) (n : Dom.DomNode)
    (parentElement : HtmlNode) (ancestors : list HtmlNode) (element : HtmlNode)
    (listType : ListType) :
  dom !! x = Some n →
  Html.tagName parentElement = Dom.tagName n →
  (∀ name, Html.getAttribute parentElement name = lookup_attr name (Dom.attributes n)) →
  getElementListType dom x = Some listType →
  (parse_li (parentElement :: ancestors) element).1 = listType.
Proof.
  intros Hx Htag Hattr.
  unfold getElementListType, Dom.tagNameOf, Dom.getAttribute. rewrite Hx. simpl.
  unfold parse_li, getAttrs_ordered, getAttrs_task. rewrite Htag, Hattr.
  case_bool_decide as H1; [by intros [= <-]|].
  case_bool_decide as H2; [|done].
  destruct (_ || _); by intros [= <-].
Qed.

Lemma parse_li_getElementListType_witness :
  getElementListType one_list 1%nat = Some unordered ∧
  (parse_li [HElement "UL" [] None []] (HElement "LI" [] None [])).1 = unordered.
Proof.
  assert (getElementListType one_list 1%nat = Some unordered) as H by reflexivity.
  split; [exact H|].
  refine (parse_li_getElementListType one_list 1%nat
            (Dom.mkDomNode Dom.ElementNode "UL" "" [] (Some [("margin-left", "0px")]) [2%nat])
            (HElement "UL" [] None []) [] (HElement "LI" [] None []) unordered
            _ _ _ H); [reflexivity|reflexivity|done].
Defined.

Implicit Types (doc : Doc) (sel : Selection) (node : Node).

(** Backspace at the start of a list item, once. *)
Lemma handleBackspace1_step doc sel node :
  sel_from sel = sel_to sel → sel_parentOffset sel = 0 →
  doc !! sel_index sel = Some node → isFlatListNode node = true →
  ∃ doc', handleBackspace1 doc sel = Some doc' ∧
    length doc' = length doc ∧
    doc' !! sel_index sel = Some (dedent1 true node).
Proof.
  intros Hft Hoff Hnode Hl. unfold handleBackspace1, parent_is_list.
  rewrite Hnode, Hl, !bool_decide_eq_true_2 by done. cbn [negb].
  assert ((dedentFlatListItem true doc [(sel_index sel, 1%nat)]).2 = true) as Htrue.
  { apply dedentFlatListItem_applicable. exists (sel_index sel), node, (sel_index sel, 1%nat).
    split; [done|]. split; [by apply list_elem_of_singleton|]. simpl.
    split; [lia|]. split; [done|by right]. }
  rewrite Htrue. eexists. split; [done|].
  split; [apply (dedentFlatListItem_effect true doc (sel_index sel) 1)|].
  destruct (dedent_single_range true doc (sel_index sel) 1)
    as [[Hfalse _]|(_ & q & nodeQ & r & Hq & _ & Hrange & _ & _ & _ & Hres)];
    [congruence|].
  rewrite Hres, decide_True by lia. by rewrite Hnode.
Qed.

Lemma press_indent (k : nat) : ∀ doc sel node,
  sel_from sel = sel_to sel → sel_parentOffset sel = 0 →
  doc !! sel_index sel = Some node → isFlatListNode node = true →
  node_indent node = Z.of_nat k →
  ∃ doc', press (S k) doc sel = Some doc' ∧
    doc' !! sel_index sel
      = Some (mkNode (otherNodeName "paragraph") defaultAttrs (content node)).
Proof.
  induction k as [|k IH]; intros doc sel node Hft Hoff Hnode Hl Hi.
  - destruct (handleBackspace1_step doc sel node Hft Hoff Hnode Hl) as (doc' & H1 & _ & H2).
    exists doc'. cbn [press]. rewrite H1. split; [done|]. rewrite H2. f_equal.
    unfold dedent1. rewrite Hl, Hi. done.
  - destruct (handleBackspace1_step doc sel node Hft Hoff Hnode Hl) as (doc1 & H1 & _ & H2).
    assert (dedent1 true node = dec node) as Hd.
    { unfold dedent1. rewrite Hl. destruct (Z.ltb_spec 0 (node_indent node)); [done|lia]. }
    rewrite Hd in H2.
    destruct (IH doc1 sel (dec node) Hft Hoff H2) as (doc' & Hp & Hres).
    + done.
    + rewrite node_indent_dec. lia.
    + exists doc'. split; [|done]. change (press (S (S k)) doc sel) with
        (match handleBackspace1 doc sel with
         | Some doc => press (S k) doc sel
         | None => None
         end). by rewrite H1.
Qed.

(** X18. Backspace at the start of a list item: with the cursor at the start
    of a list item of indent n >= 0, pressing the key n + 1 times is handled
    every time and leaves, in the place of the item, a paragraph with the
    item's content; the handler then declines the next press. *)
Theorem handleBackspace1_to_paragraph (doc : Doc) (sel : Selection) (node : Node) :
  sel_from sel = sel_to sel → sel_parentOffset sel = 0 →
  doc !! sel_index sel = Some node → isFlatListNode node = true →
  0 ≤ node_indent node →
  ∃ doc', press (S (Z.to_nat (node_indent node))) doc sel = Some doc' ∧
    doc' !! sel_index sel
      = Some (mkNode (otherNodeName "paragraph") defaultAttrs (content node)) ∧
    handleBackspace1 doc' sel = None.
Proof.
  intros Hft Hoff Hnode Hl Hi.
  destruct (press_indent (Z.to_nat (node_indent node)) doc sel node Hft Hoff Hnode Hl)
    as (doc' & Hp & Hres); [lia|].
  exists doc'. split; [done|]. split; [done|].
  unfold handleBackspace1, parent_is_list. rewrite Hres.
  by rewrite bool_decide_eq_true_2 by done.
Qed.

Lemma handleBackspace1_to_paragraph_witness :
  ∃ doc', press (S (Z.to_nat (node_indent (item ordered 2))))
            (item ordered <$> [0; 1; 2]) (mkSelection 5 5 2 0) = Some doc' ∧
    doc' !! 2%nat = Some (mkNode (otherNodeName "paragraph") defaultAttrs []) ∧
    handleBackspace1 doc' (mkSelection 5 5 2 0) = None.
Proof.
  exact (handleBackspace1_to_paragraph (item ordered <$> [0; 1; 2]) (mkSelection 5 5 2 0)
           (item ordered 2) eq_refl eq_refl eq_refl eq_refl ltac:(done)).
Defined.

End KeymapFacts.


(** * More on joinListElements *)
Section JoinMore.
Import Dom.

Implicit Types (dom : Dom) (doc x : nat) (usedFor : UsedFor).

Lemma join_loop_no_lists usedFor doc dom turns : ∀ ll i,
  (∀ block, block ∈ children dom doc → getElementListType dom block = None) →
  0 ≤ i → (Z.to_nat i + turns = length (children dom doc))%nat →
  join_loop turns usedFor doc (mkJoin dom ll i) = Some (inr dom).
Proof.
  induction turns as [|turns IH]; intros ll i Hno Hi Hturns.
  - cbn [join_loop Serializer.dom Serializer.i].
    destruct (Z.ltb_spec i (Z.of_nat (length (children dom doc)))); [lia|done].
  - cbn [join_loop Serializer.dom Serializer.i].
    destruct (Z.ltb_spec i (Z.of_nat (length (children dom doc)))); [|lia].
    unfold join_step. cbn [Serializer.dom Serializer.i Serializer.lastLists].
    destruct (lookup_lt_is_Some_2 (children dom doc) (Z.to_nat i)) as [block Hblock]; [lia|].
    rewrite Hblock, (Hno block) by (by eapply list_elem_of_lookup_2).
    cbn [JsArray.ret Serializer.dom Serializer.i Serializer.lastLists].
    apply IH; [done|lia|lia].
Qed.

(** X19. joinListElements leaves a DOM without list elements among the
    children of [doc] exactly as it is. *)
Theorem joinListElements_no_lists (usedFor : UsedFor) (doc : nat) (dom : Dom) :
  (∀ block, block ∈ children dom doc → getElementListType dom block = None) →
  joinListElements usedFor doc dom = Some (inr dom).
Proof.
  intros Hno. unfold joinListElements. apply join_loop_no_lists; [done|lia|lia].
Qed.

Lemma joinListElements_no_lists_witness :
  joinListElements getHTML 0%nat
    (fragment [HElement "P" [] None [HText "a"]; HElement "P" [] None []])
  = Some (inr (fragment [HElement "P" [] None [HText "a"]; HElement "P" [] None []])).
Proof.
  apply (joinListElements_no_lists getHTML 0%nat
           (fragment [HElement "P" [] None [HText "a"]; HElement "P" [] None []])).
  intros block Hblock. vm_compute in Hblock.
  repeat (apply elem_of_cons in Hblock as [->|Hblock]; [reflexivity|]).
  by apply elem_of_nil in Hblock.
Defined.



End JoinMore.


(** * joinListElements: when it returns and when it throws *)

Section JoinSteps.
Import Dom.

Implicit Types (dom : Dom) (x p c id block liChild doc : nat) (st : JoinState)
  (usedFor : UsedFor).

Lemma getAttribute_removeAttribute_other name other id dom x :
  x ≠ id → getAttribute (removeAttribute other id dom) x name = getAttribute dom x name.
Proof. intros Hx. unfold getAttribute, removeAttribute. by rewrite lookup_alter_ne. Qed.

Lemma getAttribute_clean_list usedFor block dom x :
  getAttribute (clean_list usedFor block dom) x dli = getAttribute dom x dli.
Proof.
  unfold clean_list. case_decide;
    by rewrite ?(getAttribute_removeAttribute_ne dli "style"),
         getAttribute_style_removeProperty,
         (getAttribute_removeAttribute_ne dli "start") by done.
Qed.

Lemma set_length_cases {A} (a : JsArray.t A) indent :
  if length_ok indent then ∃ ll, JsArray.set_length a (indent + 1) = inr ll
  else JsArray.set_length a (indent + 1) = inl JsArray.RangeError.
Proof.
  unfold length_ok, JsArray.set_length, JsArray.max_length.
  replace (0 <=? indent + 1) with (-1 <=? indent)
    by (apply eq_true_iff_eq; rewrite !Z.leb_le; lia).
  replace (indent + 1 <=? 4294967295) with (indent <=? 4294967294)
    by (apply eq_true_iff_eq; rewrite !Z.leb_le; lia).
  destruct (_ && _); [eauto|done].
Qed.

(** Outside the LI and its children, clean_li changes no list of children;
    outside the LI it changes no indent attribute. *)
Lemma clean_li_frame usedFor doc listType block liChild dom :
  tree dom doc →
  liChild ∈ childNodesOf dom block →
  isElement dom liChild = true →
  (∀ x, x ≠ liChild →
        getAttribute (clean_li usedFor listType liChild dom) x dli = getAttribute dom x dli) ∧
  (∀ x, x ≠ liChild → x ∉ childNodesOf dom liChild →
        childNodesOf (clean_li usedFor listType liChild dom) x = childNodesOf dom x).
Proof.
  intros Htree Hli Hel. pose proof Htree as (T1 & T2 & T3).
  unfold clean_li. destruct usedFor.
  - rewrite (decide_True (P := getHTML = getHTML)) by done.
    rewrite (decide_False (P := getHTML = clipboard)) by done.
    split.
    + intros x Hx. by apply getAttribute_removeAttribute_other.
    + intros x _ _. apply childNodesOf_removeAttribute.
  - rewrite (decide_False (P := clipboard = getHTML)) by done.
    rewrite (decide_True (P := clipboard = clipboard)) by done.
    set (ce := getContentElement dom (Some listType) liChild).
    split.
    + intros x Hx. rewrite getAttribute_removeAttribute_other by done.
      case_decide; [apply getAttribute_replaceChildren|done].
    + intros x Hx Hnin. rewrite childNodesOf_removeAttribute.
      case_decide as Hce; [|done].
      destruct (getContentElement_cases dom (Some listType) liChild) as [?|[Hin _]];
        [done|]. fold ce in Hin.
      rewrite childNodesOf_replaceChildren by by apply isElement_is_Some.
      rewrite decide_False by done. apply filter_id. intros y Hy Hycs.
      pose proof (T2 _ _ _ Hy Hycs) as ->. done.
Qed.

(** start_list throws a RangeError exactly for an indent that is no array
    length; otherwise a node other than [doc] keeps its children, or gets
    [block] as its last child: then it is the last child of an element of
    [lastLists], or a child of that last child. *)
Lemma start_list_result usedFor doc st block indent :
  tree (dom st) doc →
  block ∈ childNodesOf (dom st) doc →
  (∀ key v, JsArray.get (lastLists st) key = Some v →
     v ≠ doc ∧ ∃ y, lastChild (dom st) v = Some y ∧ isElement (dom st) y = true) →
  if length_ok indent
  then ∃ st', start_list usedFor st block indent = inr st' ∧
         (∀ x, getAttribute (dom st') x dli = getAttribute (dom st) x dli) ∧
         (∀ x, x ≠ doc →
            childNodesOf (dom st') x = childNodesOf (dom st) x ∨
            (lastChild (dom st') x = Some block ∧
             ∃ key v y, JsArray.get (lastLists st) key = Some v ∧
               lastChild (dom st) v = Some y ∧ (x = y ∨ x ∈ childNodesOf (dom st) y)))
  else start_list usedFor st block indent = inl JsArray.RangeError.
Proof.
  intros Htree Hblock Hlast.
  destruct (clean_list_spec usedFor block (dom st)) as (Hcn & Hstatic & _).
  assert (tree (clean_list usedFor block (dom st)) doc) as Htree2
    by (by eapply tree_same).
  pose proof Htree2 as (T1 & T2 & T3).
  assert (block ∈ childNodesOf (clean_list usedFor block (dom st)) doc) as Hblock2
    by (by rewrite Hcn).
  pose proof (getAttribute_clean_list usedFor block (dom st)) as Hattr.
  unfold start_list. set (dom2 := clean_list usedFor block (dom st)) in *.
  pose proof (set_length_cases (JsArray.set (lastLists st) indent block) indent) as Hlen.
  destruct (if 0 <? indent then JsArray.get (lastLists st) (indent - 1) else None)
    as [parentList|] eqn:Eparent.
  - assert (JsArray.get (lastLists st) (indent - 1) = Some parentList) as Hget.
    { destruct (0 <? indent); [done|discriminate Eparent]. }
    destruct (Hlast _ _ Hget) as (Hpd & y & Hy & Hye).
    assert (lastChild dom2 parentList = Some y) as Hy2.
    { unfold lastChild in *. by rewrite Hcn. }
    rewrite Hy2. unfold as_element.
    rewrite (isElement_static _ _ _ (Hstatic y)), Hye.
    cbn [JsArray.bind JsArray.ret fst snd].
    destruct (length_ok indent); [|by rewrite Hlen].
    destruct Hlen as [ll ->]. cbn [JsArray.bind JsArray.ret].
    eexists. split; [reflexivity|]. cbn [dom lastLists i].
    set (ce := getContentElement dom2 (getElementListType dom2 parentList) y).
    assert (is_Some (dom2 !! ce) ∧ (ce = y ∨ ce ∈ childNodesOf (dom st) y)) as [Hce Hcey].
    { destruct (getContentElement_cases dom2 (getElementListType dom2 parentList) y)
        as [Heq|[Hin Hel]]; (fold ce in Heq) || (fold ce in Hin, Hel).
      - rewrite Heq. split; [|by left]. apply isElement_is_Some.
        by rewrite (isElement_static _ _ _ (Hstatic y)).
      - split; [by apply isElement_is_Some|]. right. by rewrite <- Hcn. }
    split.
    + intros x. by rewrite getAttribute_append.
    + intros x Hxd. destruct (decide (x = ce)) as [->|Hne].
      * right. split.
        -- unfold lastChild. rewrite childNodesOf_append, decide_True by done.
           apply last_snoc.
        -- by exists (indent - 1), parentList, y.
      * left. rewrite childNodesOf_append, decide_False by done.
        rewrite <- Hcn. apply filter_id. intros z Hz ->.
        by apply Hxd, (T2 x doc block).
  - cbn [JsArray.bind JsArray.ret fst snd].
    destruct (length_ok indent); [|by rewrite Hlen].
    destruct Hlen as [ll ->]. cbn [JsArray.bind JsArray.ret].
    eexists. split; [reflexivity|]. cbn [dom lastLists i].
    split; [done|]. intros x _. left. apply Hcn.
Qed.

(** join_list throws a RangeError exactly for an indent that is no array
    length; otherwise [lastList] gets the LI as its last child, and the nodes
    other than [doc], [block] and [lastList] keep their children. *)
Lemma join_list_result doc st block liChild lastList indent :
  tree (dom st) doc →
  block ∈ childNodesOf (dom st) doc →
  liChild ∈ childNodesOf (dom st) block →
  is_Some (dom st !! lastList) →
  if length_ok indent
  then ∃ st', join_list st block liChild lastList indent = inr st' ∧
         (∀ x, getAttribute (dom st') x dli = getAttribute (dom st) x dli) ∧
         (∀ x, x ≠ doc → x ≠ block →
            if decide (x = lastList) then lastChild (dom st') x = Some liChild
            else childNodesOf (dom st') x = childNodesOf (dom st) x)
  else join_list st block liChild lastList indent = inl JsArray.RangeError.
Proof.
  intros Htree Hblock Hli Hlast. pose proof Htree as (T1 & T2 & T3).
  assert (block ≠ doc) as Hbd by (intros ->; by apply (T3 doc)).
  assert (liChild ≠ block) as Hlb.
  { intros ->. by apply Hbd, (T2 block doc block). }
  unfold join_list.
  pose proof (set_length_cases (lastLists st) indent) as Hlen.
  destruct (length_ok indent); [|by rewrite Hlen].
  destruct Hlen as [ll ->]. cbn [JsArray.bind JsArray.ret].
  eexists. split; [reflexivity|]. cbn [dom lastLists i]. unfold remove.
  split.
  - intros x. by rewrite getAttribute_detach, getAttribute_append.
  - intros x Hxd Hxb. unfold lastChild.
    rewrite childNodesOf_detach, childNodesOf_append by done.
    destruct (decide (x = lastList)) as [->|Hne].
    + rewrite filter_app, (filter_id _ [liChild]).
      * apply last_snoc.
      * by intros z ->%list_elem_of_singleton.
    + rewrite (filter_id (λ y, y ≠ liChild)).
      * apply filter_id. intros z Hz ->. by apply Hxd, (T2 x doc block).
      * intros z Hz ->. by apply Hxb, (T2 x block liChild).
Qed.

End JoinSteps.

Section JoinReturns.
Import Dom.

Variables (usedFor : UsedFor) (doc : nat) (dom0 : Dom).
Hypothesis Htree0 : tree dom0 doc.
Hypothesis Hitems : list_items dom0 doc.

Implicit Types (dom : Dom) (x p c id block liChild : nat) (st : JoinState) (k : nat).

Local Abbreviation Inv := (Inv usedFor doc dom0).
Local Abbreviation Inv2 := (Inv2 doc dom0).

Lemma top_child b v li :
  b ∈ children dom0 doc → v ∈ children dom0 doc → li ∈ childNodesOf dom0 b →
  v ≠ li ∧ (v ∉ childNodesOf dom0 li) ∧ li ≠ doc.
Proof.
  intros Hb%children_subseteq Hv%children_subseteq Hli.
  destruct Htree0 as (T1 & T2 & T3).
  assert (b ≠ doc) as Hbd by (intros ->; by apply (T3 doc)).
  split; [|split].
  - intros ->. by apply Hbd, (T2 b doc li).
  - intros Hin. pose proof (T2 _ _ _ Hin Hv) as ->. by apply (T3 b).
  - intros ->. by apply (T3 b).
Qed.

Lemma li_other u b li_u li :
  u ∈ children dom0 doc → b ∈ children dom0 doc → u ≠ b →
  li_u ∈ childNodesOf dom0 u → li ∈ childNodesOf dom0 b →
  li_u ≠ li ∧ li_u ∉ childNodesOf dom0 li.
Proof.
  intros Hu Hb Hub Hliu Hli. pose proof Htree0 as (T1 & T2 & T3). split.
  - intros ->. by apply Hub, (T2 u b li).
  - intros Hin. pose proof (T2 _ _ _ Hin Hliu) as ->.
    by destruct (top_child b u u Hb Hu Hli) as (? & _).
Qed.

Lemma inv2_init : Inv2 0 (mkJoin dom0 JsArray.empty 0).
Proof. split; cbn [dom lastLists i]; done. Qed.

(** One turn of the loop: a RangeError for a list whose LI has an indent
    that is no array length; otherwise the turn returns and keeps [Inv2]. *)
Lemma join_step_result k st block :
  Inv k st → Inv2 k st → children dom0 doc !! k = Some block →
  if bad_list dom0 block then join_step usedFor doc st = inl JsArray.RangeError
  else ∃ st', join_step usedFor doc st = inr st' ∧
              Inv2 (S k) (mkJoin (dom st') (lastLists st') (i st' + 1)).
Proof.
  intros HInv [Ja Jc Jl] Hk. pose proof HInv as [Ht Hs Hi _ Hrest Hll Hattrs Hcl].
  destruct (inv_block usedFor doc dom0 Htree0 k st block HInv Hk)
    as (Hlook & Hblock & Hothers & Hlists).
  pose proof (drop_S _ _ _ Hk) as Hdrop.
  assert (block ∈ children dom0 doc) as Hb0 by (eapply list_elem_of_lookup_2, Hk).
  assert (∀ u, u ∈ drop (S k) (children dom0 doc) → u ∈ drop k (children dom0 doc))
    as Hdrop' by (intros u Hu; rewrite Hdrop; by right).
  assert (block ∈ drop k (children dom0 doc)) as Hbk by (rewrite Hdrop; by left).
  assert (block ≠ doc) as Hbd by (intros ->; by apply (doc_not_top doc dom0 Htree0)).
  remember (join_step usedFor doc st) as r eqn:Er.
  unfold join_step in Er. unfold bad_list.
  rewrite Hlook, (getElementListType_static _ _ _ (Hs block)) in Er.
  destruct (getElementListType dom0 block) as [listType|] eqn:Ety; last first.
  { subst r. eexists. split; [reflexivity|]. cbn [dom lastLists i]. split.
    - intros u li Hu. apply Ja. by apply Hdrop'.
    - intros u li Hu. apply Jc. by apply Hdrop'.
    - intros key v Hv. done. }
  destruct (Hitems block Hb0) as (liChild & y0 & Efirst & Eel0 & Elast0 & Eely0);
    [by rewrite Ety|].
  assert (childNodesOf (dom st) block = childNodesOf dom0 block) as Hcnb by by apply Hrest.
  rewrite (firstChild_same _ _ _ Hcnb), Efirst in Er. rewrite Efirst.
  assert (isElement (dom st) liChild = true) as Eel
    by (by rewrite (isElement_static _ _ _ (Hs liChild))).
  unfold as_element in Er. rewrite Eel in Er.
  cbn [JsArray.bind JsArray.ret lastLists dom i] in Er.
  assert (liChild ∈ childNodesOf dom0 block) as Hli0 by by apply firstChild_elem.
  assert (liChild ∈ childNodesOf (dom st) block) as Hli by by rewrite Hcnb.
  pose proof (Ja block liChild Hbk Efirst) as Hattr.
  pose proof (Jc block liChild Hbk Efirst) as Hlic.
  change (default 0 (parseIntegerAttr (getAttribute (dom st) liChild "data-list-indent")))
    with (li_indent (dom st) liChild) in Er.
  assert (li_indent (dom st) liChild = li_indent dom0 liChild) as Hindent.
  { unfold li_indent. unfold dli in Hattr. by rewrite Hattr. }
  rewrite Hindent in Er.
  set (indent := li_indent dom0 liChild) in *.
  destruct (clean_li_spec usedFor doc listType block liChild (dom st) Ht Hblock Hli Eel)
    as (Ht1 & Hs1 & Hcn1 & _ & _).
  destruct (clean_li_frame usedFor doc listType block liChild (dom st) Ht Hli Eel)
    as [Hfa Hfc].
  set (dom1 := clean_li usedFor listType liChild (dom st)) in *.
  assert (∀ y, isElement dom0 y = true → isElement dom1 y = true) as Hel1.
  { intros y Hy. by rewrite (isElement_static _ _ _ (Hs1 y)), (isElement_static _ _ _ (Hs y)). }
  assert (∀ key v, JsArray.get (lastLists st) key = Some v → v ∈ children dom0 doc) as Hv0.
  { intros key v Hv. apply Hll in Hv. rewrite <- (take_drop k (children dom0 doc)).
    apply elem_of_app. by left. }
  assert (∀ key v, JsArray.get (lastLists st) key = Some v →
            v ≠ doc ∧ ∃ y, lastChild dom1 v = Some y ∧ isElement dom1 y = true) as Hl1.
  { intros key v Hv. split; [by destruct (Hlists key v Hv) as (_ & ? & _)|].
    destruct (Jl key v Hv) as (y & Hy & Hye). exists y. split.
    - destruct (top_child block v liChild Hb0 (Hv0 _ _ Hv) Hli0) as (H1 & H2 & _).
      unfold lastChild. rewrite Hfc; [done|done|by rewrite Hlic].
    - by rewrite (isElement_static _ _ _ (Hs1 y)). }
  assert (block ∈ childNodesOf dom1 doc) as Hblock1 by (rewrite Hcn1 by (by left); done).
  assert (childNodesOf dom1 block = childNodesOf dom0 block) as Hcnb1
    by (rewrite Hcn1 by (by right); done).
  assert (∀ u li, u ∈ drop (S k) (children dom0 doc) → firstChild dom0 u = Some li →
            li ≠ doc ∧ li ≠ block ∧
            (∀ key v, JsArray.get (lastLists st) key = Some v → li ≠ v) ∧
            li ∈ childNodesOf dom1 u ∧ u ∈ childNodesOf dom1 doc ∧
            getAttribute dom1 li dli = getAttribute dom0 li dli ∧
            childNodesOf dom1 li = childNodesOf dom0 li) as Hlater.
  { intros u li Hu Hfirst. destruct (Hothers u Hu) as [Hud Hub].
    assert (u ∈ children dom0 doc) as Hu0.
    { rewrite <- (take_drop (S k) (children dom0 doc)). apply elem_of_app. by right. }
    pose proof (firstChild_elem _ _ _ Hfirst) as Hliu.
    destruct (top_child u block li Hu0 Hb0 Hliu) as (Hbl & _ & Hlid).
    destruct (li_other u block li liChild Hu0 Hb0 Hub Hliu Hli0) as [Hne Hnin].
    split; [done|]. split; [done|]. split.
    { intros key v Hv. by destruct (top_child u v li Hu0 (Hv0 _ _ Hv) Hliu) as (? & _). }
    split. { rewrite Hcn1 by (by right). rewrite Hrest by (by apply Hdrop'). done. }
    split. { rewrite Hcn1 by (by left). done. }
    split. { rewrite Hfa by done. apply (Ja u); [by apply Hdrop'|done]. }
    rewrite Hfc; [apply (Jc u); [by apply Hdrop'|done]|done|by rewrite Hlic]. }
  assert (if length_ok indent
          then ∃ st', start_list usedFor (mkJoin dom1 (lastLists st) (i st)) block indent
                        = inr st' ∧
                      Inv2 (S k) (mkJoin (dom st') (lastLists st') (i st' + 1))
          else start_list usedFor (mkJoin dom1 (lastLists st) (i st)) block indent
                 = inl JsArray.RangeError) as Hstart.
  { pose proof (start_list_result usedFor doc (mkJoin dom1 (lastLists st) (i st)) block
                  indent Ht1 Hblock1 Hl1) as Hres.
    destruct (length_ok indent); [|done].
    destruct Hres as (st2 & Hst2 & Hattr2 & Hch2).
    assert (∀ key v, JsArray.get (lastLists st) key = Some v → v ≠ doc) as Hnd.
    { intros key v Hv. by destruct (Hl1 key v Hv) as [? _]. }
    destruct (start_list_spec usedFor doc (mkJoin dom1 (lastLists st) (i st)) st2 block
                indent Ht1 Hblock1 Hnd Hst2) as (_ & Hs2 & _ & _ & _ & Hll2).
    exists st2. split; [done|]. cbn [dom lastLists i] in *.
    assert (isElement (dom st2) block = true) as Heb.
    { rewrite (isElement_static _ _ _ (Hs2 block)). apply Hel1.
      by eapply children_isElement. }
    split; cbn [dom lastLists i].
    - intros u li Hu Hfirst. destruct (Hlater u li Hu Hfirst) as (_ & _ & _ & _ & _ & Ha & _).
      by rewrite Hattr2.
    - intros u li Hu Hfirst.
      destruct (Hlater u li Hu Hfirst) as (Hlid & _ & _ & Hin & Hud & _ & Hc).
      destruct (Hch2 li Hlid) as [->|(_ & key & v & y & Hv & Hy & Hor)]; [done|].
      exfalso. pose proof Ht1 as (T1 & T2 & T3). apply lastChild_elem in Hy.
      destruct (Hlists key v Hv) as (_ & Hvd & _ & Hvl).
      destruct Hor as [->|Hin'].
      + apply Hvl. by rewrite (T2 v u y Hy Hin).
      + pose proof (T2 _ _ _ Hin' Hin) as ->. by apply Hvd, (T2 v doc u).
    - intros key v Hv. destruct (Hll2 key v Hv) as [->|Hv'].
      + destruct (Hch2 block Hbd) as [Heq|[Hlastb _]]; [|by exists block].
        exists y0. split.
        * unfold lastChild in *. by rewrite Heq, Hcnb1.
        * rewrite (isElement_static _ _ _ (Hs2 y0)). by apply Hel1.
      + destruct (Hl1 key v Hv') as (Hvd & y & Hy & Hye).
        destruct (Hch2 v Hvd) as [Heq|[Hlastb _]]; [|by exists block].
        exists y. split.
        * unfold lastChild in *. by rewrite Heq.
        * by rewrite (isElement_static _ _ _ (Hs2 y)). }
  assert (∀ r' : JsArray.Result JoinState,
    (if length_ok indent
     then ∃ st', r' = inr st' ∧ Inv2 (S k) (mkJoin (dom st') (lastLists st') (i st' + 1))
     else r' = inl JsArray.RangeError) →
    if negb (length_ok indent) then r' = inl JsArray.RangeError
    else ∃ st', r' = inr st' ∧ Inv2 (S k) (mkJoin (dom st') (lastLists st') (i st' + 1)))
    as Hflip by (intros r'; by destruct (length_ok indent)).
  apply Hflip. rewrite Er.
  destruct (JsArray.get (lastLists st) indent) as [lastList|] eqn:Elast; [|exact Hstart].
  case_decide as Hsame; [|exact Hstart].
  destruct (Hlists indent lastList Elast) as (Hsome & Hld & Hlb & Hlo).
  assert (liChild ∈ childNodesOf dom1 block) as Hli1 by by rewrite Hcnb1.
  assert (is_Some (dom1 !! lastList)) as Hsome1.
  { eapply static_is_Some; [apply Hs1|done]. }
  pose proof (join_list_result doc (mkJoin dom1 (lastLists st) (i st)) block liChild
                lastList indent Ht1 Hblock1 Hli1 Hsome1) as Hres.
  destruct (length_ok indent); [|done].
  destruct Hres as (st2 & Hst2 & Hattr2 & Hch2).
  destruct (join_list_spec usedFor doc (mkJoin dom1 (lastLists st) (i st)) st2 block
              liChild lastList indent Ht1 Hblock1 Hli1 Hsome1 Hld Hst2)
    as (_ & Hs2 & _ & _ & _ & _ & Hll2).
  exists st2. split; [done|]. cbn [dom lastLists i] in *.
  split; cbn [dom lastLists i].
  - intros u li Hu Hfirst. destruct (Hlater u li Hu Hfirst) as (_ & _ & _ & _ & _ & Ha & _).
    by rewrite Hattr2.
  - intros u li Hu Hfirst.
    destruct (Hlater u li Hu Hfirst) as (Hlid & Hlib & Hliv & _ & _ & _ & Hc).
    specialize (Hch2 li Hlid Hlib).
    rewrite decide_False in Hch2 by by apply (Hliv indent). by rewrite Hch2.
  - intros key v Hv. apply Hll2 in Hv. destruct (Hl1 key v Hv) as (Hvd & y & Hy & Hye).
    destruct (Hlists key v Hv) as (_ & _ & Hvb & _).
    specialize (Hch2 v Hvd Hvb). destruct (decide (v = lastList)) as [->|Hne].
    + exists liChild. split; [done|].
      rewrite (isElement_static _ _ _ (Hs2 liChild)). by apply Hel1.
    + exists y. split.
      * unfold lastChild in *. by rewrite Hch2.
      * by rewrite (isElement_static _ _ _ (Hs2 y)).
Qed.

(** The loop from the turn [k] on: it throws a RangeError when a list that
    is left has an LI with an indent that is no array length, and returns
    otherwise. *)
Lemma join_loop_result turns : ∀ k st,
  Inv k st → Inv2 k st → (k + turns = length (children dom0 doc))%nat →
  (Exists (λ b, bad_list dom0 b = true) (drop k (children dom0 doc)) →
     join_loop turns usedFor doc st = Some (inl JsArray.RangeError)) ∧
  (Forall (λ b, bad_list dom0 b = false) (drop k (children dom0 doc)) →
     ∃ dom', join_loop turns usedFor doc st = Some (inr dom')).
Proof.
  induction turns as [|turns IH]; intros k st HInv HInv2 Hturns.
  - pose proof HInv as [_ _ Hi (P & Hch & HlenP & _) _ _ _ _].
    rewrite drop_ge in * by lia. rewrite app_nil_r in Hch.
    split; [by intros ?%Exists_nil|]. intros _. exists (dom st).
    simpl. rewrite Hch.
    destruct (Z.ltb_spec (i st) (Z.of_nat (length P))); [lia|done].
  - destruct (lookup_lt_is_Some_2 (children dom0 doc) k) as [block Hk]; [lia|].
    pose proof HInv as [_ _ Hi (P & Hch & HlenP & _) _ _ _ _].
    pose proof (drop_S _ _ _ Hk) as Hdrop.
    cbn [join_loop]. rewrite Hch, length_app, Hdrop. cbn [length].
    destruct (Z.ltb_spec (i st)
                (Z.of_nat (length P + S (length (drop (S k) (children dom0 doc))))));
      [|lia].
    pose proof (join_step_result k st block HInv HInv2 Hk) as Hstep.
    destruct (bad_list dom0 block) eqn:Ebad.
    + rewrite Hstep. split; [done|]. intros [? _]%Forall_cons. congruence.
    + destruct Hstep as (st1 & Hst1 & HInv2').
      rewrite Hst1.
      pose proof (join_step_inv usedFor doc dom0 Htree0 k st st1 block HInv Hk Hst1) as HInv'.
      destruct (IH (S k) _ HInv' HInv2' ltac:(lia)) as [IH1 IH2].
      split.
      * intros [?|Hex]%Exists_cons; [congruence|]. by apply IH1.
      * intros [_ Hall]%Forall_cons. by apply IH2.
Qed.

End JoinReturns.

Section JoinResult.
Import Dom.

Implicit Types (dom : Dom) (block li doc : nat) (usedFor : UsedFor).

Lemma length_ok_spec indent : length_ok indent = true ↔ -1 ≤ indent ≤ 4294967294.
Proof. unfold length_ok. rewrite andb_true_iff, !Z.leb_le. done. Qed.

Lemma bad_list_spec dom block :
  bad_list dom block = true ↔
  getElementListType dom block ≠ None ∧
  ∃ li, firstChild dom block = Some li ∧ ¬ (-1 ≤ li_indent dom li ≤ 4294967294).
Proof.
  unfold bad_list.
  destruct (getElementListType dom block) as [ty|]; [|split; [done|by intros [? _]]].
  destruct (firstChild dom block) as [li|];
    [|split; [done|by intros (_ & ? & ? & _)]].
  rewrite negb_true_iff, <- not_true_iff_false, length_ok_spec. split.
  - intros H. split; [done|]. by exists li.
  - intros (_ & li' & [= <-] & H). done.
Qed.

Lemma joinListElements_result usedFor doc dom0 :
  tree dom0 doc → list_items dom0 doc →
  (Exists (λ b, bad_list dom0 b = true) (children dom0 doc) →
     joinListElements usedFor doc dom0 = Some (inl JsArray.RangeError)) ∧
  (Forall (λ b, bad_list dom0 b = false) (children dom0 doc) →
     ∃ dom', joinListElements usedFor doc dom0 = Some (inr dom')).
Proof.
  intros Htree Hitems. unfold joinListElements.
  pose proof (join_loop_result usedFor doc dom0 Htree Hitems
                (length (children dom0 doc)) 0%nat (mkJoin dom0 JsArray.empty 0)
                (inv_init usedFor doc dom0 Htree) (inv2_init doc dom0) eq_refl) as H.
  by rewrite drop_0 in H.
Qed.

(** X21. On a DOM tree in which every list element among the children of
    [doc] has an element as its first and as its last child, and the
    first child has an indent from -1 to 2^32 - 2, joinListElements
    returns: it meets no missing child and no child that is not an element,
    and every assignment to lastLists.length is accepted. *)
Theorem joinListElements_returns (usedFor : UsedFor) (doc : nat) (dom0 : Dom) :
  tree dom0 doc → list_items dom0 doc →
  (∀ block li, block ∈ children dom0 doc → getElementListType dom0 block ≠ None →
     firstChild dom0 block = Some li → -1 ≤ li_indent dom0 li ≤ 4294967294) →
  ∃ dom', joinListElements usedFor doc dom0 = Some (inr dom').
Proof.
  intros Htree Hitems Hok.
  apply (joinListElements_result usedFor doc dom0 Htree Hitems).
  apply Forall_forall. intros block Hblock. apply not_true_iff_false.
  intros (Hty & li & Hli & Hbad)%bad_list_spec. apply Hbad. by apply (Hok block).
Qed.

Lemma joinListElements_returns_witness :
  tree one_list 0%nat ∧ list_items one_list 0%nat ∧
  (∀ block li, block ∈ children one_list 0%nat → getElementListType one_list block ≠ None →
     firstChild one_list block = Some li → -1 ≤ li_indent one_list li ≤ 4294967294) ∧
  ∃ dom', joinListElements clipboard 0%nat one_list = Some (inr dom').
Proof.
  assert (tree one_list 0%nat) as H1 by (apply treeb_tree; vm_compute; reflexivity).
  assert (list_items one_list 0%nat) as H2.
  { intros block Hblock _. vm_compute in Hblock.
    apply list_elem_of_singleton in Hblock as ->.
    exists 2%nat, 2%nat. vm_compute. done. }
  assert (∀ block li, block ∈ children one_list 0%nat →
            getElementListType one_list block ≠ None →
            firstChild one_list block = Some li →
            -1 ≤ li_indent one_list li ≤ 4294967294) as H3.
  { intros block li Hblock _ Hli. vm_compute in Hblock.
    apply list_elem_of_singleton in Hblock as ->.
    vm_compute in Hli. injection Hli as <-.
    assert (li_indent one_list 2%nat = 0) as -> by (vm_compute; reflexivity). lia. }
  split; [exact H1|]. split; [exact H2|]. split; [exact H3|].
  exact (joinListElements_returns clipboard 0%nat one_list H1 H2 H3).
Defined.

(** X22. On such a tree joinListElements throws nothing but a RangeError,
    and throws it exactly when some list element among the children of
    [doc] has a first child with an indent below -1 or above 2^32 - 2. *)
Theorem joinListElements_throws_iff (usedFor : UsedFor) (doc : nat) (dom0 : Dom) :
  tree dom0 doc → list_items dom0 doc →
  ∀ e, joinListElements usedFor doc dom0 = Some (inl e) ↔
       e = JsArray.RangeError ∧
       ∃ block li, block ∈ children dom0 doc ∧ getElementListType dom0 block ≠ None ∧
         firstChild dom0 block = Some li ∧ ¬ (-1 ≤ li_indent dom0 li ≤ 4294967294).
Proof.
  intros Htree Hitems e.
  destruct (joinListElements_result usedFor doc dom0 Htree Hitems) as [Hbad Hgood].
  destruct (decide (Exists (λ b, bad_list dom0 b = true) (children dom0 doc)))
    as [Hex|Hall].
  - rewrite (Hbad Hex). apply Exists_exists in Hex as (block & Hblock & Hb).
    apply bad_list_spec in Hb as (Hty & li & Hli & Hrange).
    split; [|by intros [-> _]]. intros [= <-]. split; [done|]. by exists block, li.
  - apply not_Exists_Forall in Hall; [|intros b; apply _].
    destruct Hgood as [dom' Hdom'].
    { eapply Forall_impl; [exact Hall|]. intros b Hb. by apply not_true_iff_false. }
    rewrite Hdom'. split; [done|]. intros (_ & block & li & Hblock & Hty & Hli & Hrange).
    exfalso. apply (proj1 (Forall_forall _ _) Hall block Hblock). simpl.
    apply bad_list_spec. split; [done|]. by exists li.
Qed.

Lemma joinListElements_throws_iff_witness :
  tree low_list 0%nat ∧ list_items low_list 0%nat ∧
  (joinListElements getHTML 0%nat low_list = Some (inl JsArray.RangeError) ↔
   JsArray.RangeError = JsArray.RangeError ∧
   ∃ block li, block ∈ children low_list 0%nat ∧ getElementListType low_list block ≠ None ∧
     firstChild low_list block = Some li ∧ ¬ (-1 ≤ li_indent low_list li ≤ 4294967294)).
Proof.
  assert (tree low_list 0%nat) as H1 by (apply treeb_tree; vm_compute; reflexivity).
  assert (list_items low_list 0%nat) as H2.
  { intros block Hblock _. vm_compute in Hblock.
    apply list_elem_of_singleton in Hblock as ->.
    exists 2%nat, 2%nat. vm_compute. done. }
  split; [exact H1|]. split; [exact H2|].
  exact (joinListElements_throws_iff getHTML 0%nat low_list H1 H2 JsArray.RangeError).
Defined.

End JoinResult.


(** * joinListElements on the rendered nodes *)
Section RenderedBlocks.
Import Dom.

Implicit Types (h : Dom) (lo hi k block : nat) (node : Node) (usedFor : UsedFor).

Lemma rendered_block_lookup h h' block node :
  h' !! block = h !! block →
  (∀ li, li ∈ childNodesOf h block → h' !! li = h !! li) →
  rendered_block h block node → rendered_block h' block node.
Proof.
  intros Hb Hli [H1 H2]. split.
  - by rewrite (getElementListType_lookup h h').
  - intros Hty. destruct (H2 Hty) as (li & Hc & He & Ha). exists li.
    assert (h' !! li = h !! li) as Hl by (apply Hli; rewrite Hc; by left).
    split; [unfold childNodesOf in *; by rewrite Hb|].
    split; [by rewrite (isElement_lookup h h')|by rewrite (getAttribute_lookup h h')].
Qed.

Lemma build_renderHTML_block node lo h :
  fresh lo h → rendered_block (build (renderHTML node) (lo, h)).2.2 lo node.
Proof.
  intros Hf.
  unfold rendered_block, renderHTML, renderHTML_ordered, renderHTML_unordered,
    renderHTML_task, renderHTML_other, content_nodes.
  destruct (getListType node) as [[| |]|]; destruct (content node) as [|c0 cs];
    cbn [build build_all fst snd]; cbv zeta; cbn [fst snd].
  all: unfold getElementListType, tagNameOf, getAttribute, childNodesOf, isElement.
  all: rewrite !lookup_insert_eq.
  all: split; [done|]; intros Hty; try done.
  all: exists (S lo); rewrite lookup_insert_ne by lia; rewrite lookup_insert_eq; done.
Qed.

Lemma build_all_blocks (nodes : list Node) : ∀ lo h,
  fresh lo h →
  Forall2 (λ block node, (lo ≤ block)%nat ∧
             rendered_block (build_all (renderHTML <$> nodes) (lo, h)).2.2 block node)
    (build_all (renderHTML <$> nodes) (lo, h)).1 nodes.
Proof.
  induction nodes as [|node nodes IH]; intros lo h Hf.
  - simpl. constructor.
  - cbn [fmap list_fmap build_all]. cbv zeta.
    pose proof (build_renderHTML_block node lo h Hf) as Hb.
    destruct (build_region (renderHTML node) lo h Hf) as (Hroot & Hlt & Hreg1).
    destruct (build (renderHTML node) (lo, h)) as [root [mid h1]] eqn:Eb.
    cbn [fst snd] in *. subst root.
    pose proof (reg_fresh _ _ _ _ Hreg1) as Hf1.
    specialize (IH mid h1 Hf1).
    assert (Forall (λ t, ∀ lo h, fresh lo h →
              (build t (lo, h)).1 = lo ∧ (lo < (build t (lo, h)).2.1)%nat ∧
              region lo (build t (lo, h)).2.1 h (build t (lo, h)).2.2)
              (renderHTML <$> nodes)) as Hall.
    { apply Forall_forall. intros t _. apply build_region. }
    destruct (build_all_region (renderHTML <$> nodes) Hall mid h1 Hf1) as [Hreg2 _].
    change (list_fmap Node HtmlNode renderHTML nodes) with (renderHTML <$> nodes).
    destruct (build_all (renderHTML <$> nodes) (mid, h1)) as [rs [hi h2]] eqn:Ea.
    cbn [fst snd] in *.
    pose proof (reg_old _ _ _ _ Hreg2) as Hold.
    constructor.
    + split; [done|]. apply (rendered_block_lookup h1); [by apply Hold| |done].
      intros li Hli. apply Hold.
      pose proof (reg_children _ _ _ _ Hreg1 lo li ltac:(lia) Hli). lia.
    + eapply Forall2_impl; [exact IH|]. intros block node' [? ?]. split; [lia|done].
Qed.

(** The children of the fragment of the rendered nodes are the wrappers of
    the nodes, in their order. *)
Lemma fragment_blocks (nodes : list Node) :
  Forall2 (rendered_block (fragment (renderHTML <$> nodes)))
    (children (fragment (renderHTML <$> nodes)) 0%nat) nodes.
Proof.
  unfold fragment. cbv zeta.
  pose proof (build_all_blocks nodes 1%nat ∅ (fresh_empty 1)) as Hblocks.
  destruct (build_all_renderHTML nodes 1%nat ∅ (fresh_empty 1)) as [Hels _].
  assert (Forall (λ t, ∀ lo h, fresh lo h →
            (build t (lo, h)).1 = lo ∧ (lo < (build t (lo, h)).2.1)%nat ∧
            region lo (build t (lo, h)).2.1 h (build t (lo, h)).2.2)
            (renderHTML <$> nodes)) as Hall.
  { apply Forall_forall. intros t _. apply build_region. }
  destruct (build_all_region (renderHTML <$> nodes) Hall 1%nat ∅ (fresh_empty 1))
    as [Hreg (_ & Hin & _)].
  destruct (build_all (renderHTML <$> nodes) (1%nat, ∅)) as [rs [hi h1]].
  cbn [fst snd] in *.
  set (top := mkDomNode FragmentNode "#document-fragment" "" [] None rs).
  assert (children (<[0%nat := top]> h1) 0%nat = rs) as ->.
  { unfold children, childNodesOf. rewrite lookup_insert_eq. cbn [childNodes].
    apply filter_id. intros b Hb. specialize (Hin b Hb).
    rewrite (isElement_lookup h1) by (apply lookup_insert_ne; lia).
    by apply (proj1 (Forall_forall _ _) Hels). }
  eapply Forall2_impl; [exact Hblocks|]. intros block node [Hle Hb]. cbn beta in *.
  apply (rendered_block_lookup h1); [apply lookup_insert_ne; lia| |done].
  intros li Hli. apply lookup_insert_ne.
  pose proof (reg_children _ _ _ _ Hreg block li Hle Hli). lia.
Qed.

Lemma fragment_list_items (nodes : list Node) :
  list_items (fragment (renderHTML <$> nodes)) 0%nat.
Proof.
  intros block [j Hj]%list_elem_of_lookup Hty.
  destruct (Forall2_lookup_l _ _ _ _ _ (fragment_blocks nodes) Hj)
    as (node & _ & [H1 H2]).
  destruct (H2 (proj1 H1 Hty)) as (li & Hc & He & _).
  exists li, li. unfold firstChild, lastChild. rewrite Hc. done.
Qed.

Lemma rendered_block_bad h block node :
  rendered_block h block node →
  bad_list h block = true ↔
  isFlatListNode node = true ∧ ¬ (-1 ≤ node_indent node ≤ 4294967294).
Proof.
  intros [H1 H2]. unfold isFlatListNode. rewrite bool_decide_eq_true, bad_list_spec.
  split.
  - intros (Hty & li & Hli & Hbad). apply H1 in Hty. split; [done|].
    destruct (H2 Hty) as (li' & Hc & _ & Ha).
    unfold firstChild in Hli. rewrite Hc in Hli. injection Hli as <-.
    unfold li_indent in Hbad. unfold dli in Ha.
    rewrite Ha in Hbad. cbn [parseIntegerAttr] in Hbad.
    by rewrite parseInt_pretty in Hbad.
  - intros [Hty Hbad]. split; [by apply H1|].
    destruct (H2 Hty) as (li & Hc & _ & Ha). exists li.
    split; [unfold firstChild; by rewrite Hc|].
    unfold li_indent. unfold dli in Ha. rewrite Ha. cbn [parseIntegerAttr].
    by rewrite parseInt_pretty.
Qed.

Lemma Forall2_Exists {A B} (R : A → B → Prop) (P : A → Prop) (Q : B → Prop) l l' :
  Forall2 R l l' → (∀ x y, R x y → P x ↔ Q y) → Exists P l ↔ Exists Q l'.
Proof.
  intros H HPQ. induction H as [|x y l l' HR _ IH].
  - by rewrite !Exists_nil.
  - by rewrite !Exists_cons, IH, (HPQ x y HR).
Qed.

Lemma fragment_result usedFor (nodes : list Node) :
  (Exists (λ node, isFlatListNode node = true ∧ ¬ (-1 ≤ node_indent node ≤ 4294967294))
     nodes →
   joinListElements usedFor 0%nat (fragment (renderHTML <$> nodes))
   = Some (inl JsArray.RangeError)) ∧
  (Forall (λ node, isFlatListNode node = true → -1 ≤ node_indent node ≤ 4294967294)
     nodes →
   ∃ dom', joinListElements usedFor 0%nat (fragment (renderHTML <$> nodes))
           = Some (inr dom')).
Proof.
  destruct (joinListElements_result usedFor 0%nat (fragment (renderHTML <$> nodes))
              (tree_fragment _) (fragment_list_items nodes)) as [Hbad Hgood].
  pose proof (Forall2_Exists _
                (λ b, bad_list (fragment (renderHTML <$> nodes)) b = true)
                (λ node, isFlatListNode node = true ∧
                         ¬ (-1 ≤ node_indent node ≤ 4294967294))
                _ _ (fragment_blocks nodes)
                (rendered_block_bad (fragment (renderHTML <$> nodes)))) as Hex.
  split.
  - intros H. apply Hbad. by apply Hex.
  - intros H. apply Hgood. apply Forall_forall. intros block Hblock.
    apply not_true_iff_false. intros Hb.
    assert (Exists (λ b, bad_list (fragment (renderHTML <$> nodes)) b = true)
              (children (fragment (renderHTML <$> nodes)) 0%nat)) as Hex'
      by (apply Exists_exists; eauto).
    apply Hex, Exists_exists in Hex' as (node & Hnode & Hty & Hrange).
    apply Hrange. by apply (proj1 (Forall_forall _ _) H node).
Qed.

(** X23. For list items with indents from -1 to 2^32 - 2, joinListElements
    returns on the fragment of the rendered nodes, for getHTML and for the
    clipboard. *)
Theorem joinListElements_rendered_returns (usedFor : UsedFor) (nodes : list Node) :
  (∀ node, node ∈ nodes → isFlatListNode node = true →
     -1 ≤ node_indent node ≤ 4294967294) →
  ∃ dom', joinListElements usedFor 0%nat (fragment (renderHTML <$> nodes))
          = Some (inr dom').
Proof.
  intros H. apply fragment_result. by apply Forall_forall.
Qed.

Lemma joinListElements_rendered_returns_witness :
  (∀ node, node ∈ [item ordered 0; item task 1; item task 1] →
     isFlatListNode node = true → -1 ≤ node_indent node ≤ 4294967294) ∧
  ∃ dom', joinListElements getHTML 0%nat
            (fragment (renderHTML <$> [item ordered 0; item task 1; item task 1]))
          = Some (inr dom').
Proof.
  assert (∀ node, node ∈ [item ordered 0; item task 1; item task 1] →
            isFlatListNode node = true → -1 ≤ node_indent node ≤ 4294967294) as H.
  { intros node Hnode _.
    repeat (apply elem_of_cons in Hnode as [->|Hnode]; [vm_compute; split; discriminate|]).
    by apply elem_of_nil in Hnode. }
  split; [exact H|].
  exact (joinListElements_rendered_returns getHTML
           [item ordered 0; item task 1; item task 1] H).
Defined.

(** X24. For list items whose indents are safe integers (the numbers that
    the indent attribute renders digit by digit), serializeFragment throws
    nothing but a RangeError, and throws it exactly when some list item has
    an indent below -1 or above 2^32 - 2. *)
Theorem serializeFragment_throws_iff (usedFor : UsedFor) (nodes : list Node) :
  (∀ node, node ∈ nodes → isFlatListNode node = true →
     - 2 ^ 53 < node_indent node < 2 ^ 53) →
  ∀ e, serializeFragment usedFor nodes = Some (inl e) ↔
       e = JsArray.RangeError ∧
       ∃ node, node ∈ nodes ∧ isFlatListNode node = true ∧
               ¬ (-1 ≤ node_indent node ≤ 4294967294).
Proof.
  intros _ e. destruct (fragment_result usedFor nodes) as [Hbad Hgood].
  unfold serializeFragment.
  destruct (decide (Exists (λ node, isFlatListNode node = true ∧
                              ¬ (-1 ≤ node_indent node ≤ 4294967294)) nodes))
    as [Hex|Hall].
  - rewrite (Hbad Hex). apply Exists_exists in Hex as (node & Hnode & Hty & Hrange).
    split; [|by intros [-> _]]. intros [= <-]. split; [done|]. by exists node.
  - destruct Hgood as [dom' ->].
    { apply Forall_forall. intros node Hnode Hty.
      destruct (decide (-1 ≤ node_indent node ≤ 4294967294)) as [|Hno]; [done|].
      exfalso. apply Hall, Exists_exists. by exists node. }
    split.
    + by destruct (innerHTML dom' 0%nat).
    + intros (_ & node & Hnode & Hty & Hrange). exfalso.
      apply Hall, Exists_exists. by exists node.
Qed.

Lemma serializeFragment_throws_iff_witness :
  (∀ node, node ∈ [item unordered 0; item unordered (-2)] →
     isFlatListNode node = true → - 2 ^ 53 < node_indent node < 2 ^ 53) ∧
  (serializeFragment clipboard [item unordered 0; item unordered (-2)]
   = Some (inl JsArray.RangeError) ↔
   JsArray.RangeError = JsArray.RangeError ∧
   ∃ node, node ∈ [item unordered 0; item unordered (-2)] ∧ isFlatListNode node = true ∧
           ¬ (-1 ≤ node_indent node ≤ 4294967294)).
Proof.
  assert (∀ node, node ∈ [item unordered 0; item unordered (-2)] →
            isFlatListNode node = true → - 2 ^ 53 < node_indent node < 2 ^ 53) as H.
  { intros node Hnode _.
    repeat (apply elem_of_cons in Hnode as [->|Hnode]; [vm_compute; split; reflexivity|]).
    by apply elem_of_nil in Hnode. }
  split; [exact H|].
  exact (serializeFragment_throws_iff clipboard [item unordered 0; item unordered (-2)] H
           JsArray.RangeError).
Defined.

End RenderedBlocks.

